(** * danizee-claude-suite: conflict detection and settings merge

    A shallow embedding of [src/utils/conflicts.js], of
    [src/utils/settings.js] and of the conflict check that opens [install]
    in [src/installer.js], and the properties of these.

    Conventions of the embedding.
    - A JavaScript string is a [string]: a sequence of code units below 256
      (Latin-1), which covers the command and key names the suite handles.
    - A JavaScript number that is computed with is a [number] (NaN, the two
      infinities, or an exact rational); the edit distances are naturals.
      The one quotient the code takes is of a distance by a length; it is
      kept exact, and the default threshold is the rational 3/10.  On
      names of fewer than 10^15 characters the rounded quotient compares
      with the rounded 0.3 as the exact one does with 3/10.
    - A parsed JSON document is a [tree]; an object is the list of its own
      properties in enumeration order.  Property reads and writes are those
      of own data properties: [get], [read] and [store] do not look at the
      prototype of a value.  The code does, where it reads a name that the
      value inherits ([constructor], [toString], ...) and where it assigns
      to [__proto__]; [own_read] and [ordinary] say of a key that it is
      none of these, and a statement that would be another one for such a
      key has them as a hypothesis.
    - A write of a new key puts it after the keys that are there, where
      JavaScript puts a new array index before the other keys; [ordinary]
      keeps keys of digits out as well.
    - Objects that are written to live in a [heap] of cells, addressed by
      location, so that sharing and in-place updates are visible. *)

From Stdlib Require Import QArith Ascii String.
From stdpp Require Import base option list sorting strings pretty.

Local Open Scope nat_scope.

(* ================================================================== *)
(** * Part I: the embedding                                            *)
(* ================================================================== *)

(** ** Numbers, as far as [areSimilar] computes with them *)

Module Num.

Inductive number :=
| NaN
| PosInf
| NegInf
| Fin (q : Q).

(** [x / m] for a distance [x] (absent: [undefined] or NaN) and a length.
    The quotient is exact, where the code's is rounded to a double: the
    two compare alike with a threshold that is a whole number, and with
    3/10 for the default 0.3; with another threshold they can differ
    when the quotient and the threshold round to the same double. *)
Definition divide (x : option nat) (m : nat) : number :=
  match x with
  | None => NaN
  | Some d =>
      match m with
      | 0 => match d with 0 => NaN | S _ => PosInf end
      | S _ => Fin (Z.of_nat d # Pos.of_nat m)
      end
  end.

(** [x <= y]: false as soon as one side is NaN. *)
Definition le (x y : number) : bool :=
  match x, y with
  | NaN, _ | _, NaN => false
  | NegInf, _ => true
  | _, PosInf => true
  | PosInf, _ => false
  | _, NegInf => false
  | Fin p, Fin q => Qle_bool p q
  end.

End Num.

(** ** [src/utils/conflicts.js]: the similarity detector *)

Module Similarity.
Import Num.

(** A JavaScript array of numbers.  A slot holds [None] when it is a hole
    or holds [undefined] / NaN: all three read as "not a number". *)
Definition array := list (option nat).

(** [arr[i] = v]: in range the slot is overwritten, at the end the array
    grows by one, further out the gap is left as holes. *)
Definition array_set {A} (hole : A) (i : nat) (v : A) (arr : list A) : list A :=
  if decide (i < length arr) then <[i := v]> arr
  else arr ++ replicate (i - length arr) hole ++ [v].

(** [matrix[i][j]] *)
Definition cell (matrix : list array) (i j : nat) : option nat :=
  row ← matrix !! i; mjoin (row !! j).

(** [matrix[i][j] = v] *)
Definition set_cell (i j : nat) (v : option nat) (matrix : list array) : list array :=
  alter (array_set None j v) i matrix.

(** [Math.min(x, y, z)]: NaN as soon as one argument is. *)
Definition min3 (x y z : option nat) : option nat :=
  x' ← x; y' ← y; z' ← z; Some (x' `min` (y' `min` z')).

(** [s.charAt(i)]; out of range ([None]) stands for the empty string. *)
Definition charAt (s : string) (i : nat) : option ascii := String.get i s.

(** The body of the inner loop of [levenshteinDistance]. *)
Definition fill_cell (a b : string) (i j : nat) (matrix : list array) : list array :=
  if decide (charAt b (i - 1) = charAt a (j - 1)) then
    set_cell i j (cell matrix (i - 1) (j - 1)) matrix
  else
    set_cell i j
      (min3 (S <$> cell matrix (i - 1) (j - 1))
            (S <$> cell matrix i (j - 1))
            (S <$> cell matrix (i - 1) j))
      matrix.

(** First loop: [matrix[i] = [i]] for [i = 0 .. b.length]. *)
Definition init_rows (b : string) : list array :=
  foldl (λ matrix i, array_set [] i [Some i] matrix) [] (seq 0 (S (String.length b))).

(** Second loop: [matrix[0][j] = j] for [j = 0 .. a.length]. *)
Definition init_first_row (a : string) (matrix : list array) : list array :=
  foldl (λ matrix j, set_cell 0 j (Some j) matrix) matrix (seq 0 (S (String.length a))).

(** The two nested loops, [i = 1 .. b.length], [j = 1 .. a.length]. *)
Definition fill (a b : string) (matrix : list array) : list array :=
  foldl (λ matrix i,
           foldl (λ matrix j, fill_cell a b i j matrix) matrix (seq 1 (String.length a)))
        matrix (seq 1 (String.length b)).

Definition levenshteinDistance (a b : string) : option nat :=
  cell (fill a b (init_first_row a (init_rows b))) (String.length b) (String.length a).

(** [String.prototype.toLowerCase] on code units below 256: the letters
    A-Z and the Latin-1 capitals (0xC0-0xDE without the multiplication
    sign 0xD7) move up by 32, every other unit stays.  (Outside Latin-1
    lower-casing can make a string longer; a [string] has no such
    character.) *)
Definition lower_char (c : ascii) : ascii :=
  let n := nat_of_ascii c in
  if decide ((65 ≤ n ∧ n ≤ 90) ∨ (192 ≤ n ∧ n ≤ 222 ∧ n ≠ 215))
  then ascii_of_nat (n + 32) else c.

Fixpoint toLowerCase (s : string) : string :=
  match s with
  | EmptyString => EmptyString
  | String c s => String (lower_char c) (toLowerCase s)
  end.

Definition areSimilar (a b : string) (threshold : number) : bool :=
  let distance := levenshteinDistance (toLowerCase a) (toLowerCase b) in
  let maxLength := String.length a `max` String.length b in
  le (divide distance maxLength) threshold.

(** The default value of the parameter, [threshold = 0.3]. *)
Definition default_threshold : number := Fin (3 # 10).

End Similarity.

(** ** Edit scripts: the specification of [levenshteinDistance] *)

Module EditScript.

(** [edit s t n]: [s] is turned into [t] by a script that keeps characters
    for free and pays one for each substitution, deletion and insertion. *)
Inductive edit : list ascii → list ascii → nat → Prop :=
| edit_nil : edit [] [] 0
| edit_keep c s t n : edit s t n → edit (c :: s) (c :: t) n
| edit_subst c d s t n : edit s t n → edit (c :: s) (d :: t) (S n)
| edit_delete c s t n : edit s t n → edit (c :: s) t (S n)
| edit_insert d s t n : edit s t n → edit s (d :: t) (S n).

(** The Levenshtein distance: the cost of a cheapest script. *)
Definition is_distance (s t : list ascii) (d : nat) : Prop :=
  edit s t d ∧ ∀ n, edit s t n → d ≤ n.

(** The recurrence the matrix of [levenshteinDistance] is filled with,
    read on the two prefixes back to front. *)
Fixpoint lev (s : list ascii) : list ascii → nat :=
  fix lev_s (t : list ascii) : nat :=
    match s, t with
    | [], _ => length t
    | _, [] => length s
    | c :: s', d :: t' =>
        if decide (c = d) then lev s' t'
        else (S (lev s' t')) `min` ((S (lev_s t')) `min` (S (lev s' t)))
    end.

(** The characters of a string, and the table the matrix is meant to
    hold: entry [(i, j)] relates the first [i] characters of [b] to the
    first [j] characters of [a]. *)
Definition chars (s : string) : list ascii := list_ascii_of_string s.

Definition entry (a b : string) (i j : nat) : nat :=
  lev (reverse (take i (chars b))) (reverse (take j (chars a))).

Definition row_upto (a b : string) (i width : nat) : list (option nat) :=
  (λ j, Some (entry a b i j)) <$> seq 0 width.

(** The matrix while row [i] is being filled and holds [j] entries: the
    rows above are complete, the rows below hold their first entry. *)
Definition table (a b : string) (i j : nat) : list (list (option nat)) :=
  (λ k, row_upto a b k
          (if decide (k < i) then S (String.length a)
           else if decide (k = i) then j else 1))
    <$> seq 0 (S (String.length b)).

End EditScript.

(** ** Parsed JSON documents *)

Module Json.

Inductive tree :=
| TNull
| TBool (b : bool)
| TNum (q : Q)
| TStr (s : string)
| TArr (items : list tree)
| TObj (props : list (string * tree)).

(** First binding of [key] in a property list. *)
Fixpoint assoc {A} (key : string) (props : list (string * A)) : option A :=
  match props with
  | [] => None
  | (k, v) :: props => if decide (k = key) then Some v else assoc key props
  end.

(** ToBoolean. *)
Definition truthy (t : tree) : bool :=
  match t with
  | TNull => false
  | TBool b => b
  | TNum q => negb (Qeq_bool q 0)
  | TStr s => match s with EmptyString => false | String _ _ => true end
  | TArr _ | TObj _ => true
  end.

(** ToBoolean of a value that may be [undefined]. *)
Definition truthy_opt (v : option tree) : bool := from_option truthy false v.

(** The key of an array index: its decimal numeral. *)
Definition index_key (i : nat) : string := pretty i.

(** The own enumerable properties of a value, in enumeration order: what
    [Object.keys], [Object.entries] and an object spread see.  An array and
    a string expose their indices, the other primitives nothing. *)
Definition own_props (t : tree) : list (string * tree) :=
  match t with
  | TObj props => props
  | TArr items => imap (λ i x, (index_key i, x)) items
  | TStr s =>
      imap (λ i c, (index_key i, TStr (String c EmptyString)))
           (list_ascii_of_string s)
  | TNull | TBool _ | TNum _ => []
  end.

Definition keys (t : tree) : list string := (own_props t).*1.

(** [t[key]] for a [t] other than [null]: the own property, or [None] for
    [undefined].  Arrays and strings also own [length].  This is what the
    code reads when [t] has the key or inherits no such name ([own_read]
    below); an inherited member is not looked up. *)
Definition get (t : tree) (key : string) : option tree :=
  match t with
  | TArr items =>
      if decide (key = "length") then Some (TNum (inject_Z (Z.of_nat (length items))))
      else assoc key (own_props t)
  | TStr s =>
      if decide (key = "length") then Some (TNum (inject_Z (Z.of_nat (String.length s))))
      else assoc key (own_props t)
  | _ => assoc key (own_props t)
  end.

(** Structural equality; on two parsed documents it decides
    [JSON.stringify(x) === JSON.stringify(y)]. *)
Fixpoint tree_eqb (x y : tree) : bool :=
  match x, y with
  | TNull, TNull => true
  | TBool a, TBool b => bool_decide (a = b)
  | TNum p, TNum q => Qeq_bool p q
  | TStr s, TStr t => bool_decide (s = t)
  | TArr xs, TArr ys =>
      (fix items_eqb (xs ys : list tree) : bool :=
         match xs, ys with
         | [], [] => true
         | x :: xs, y :: ys => tree_eqb x y && items_eqb xs ys
         | _, _ => false
         end) xs ys
  | TObj ps, TObj qs =>
      (fix props_eqb (ps qs : list (string * tree)) : bool :=
         match ps, qs with
         | [], [] => true
         | (k, x) :: ps, (l, y) :: qs =>
             bool_decide (k = l) && tree_eqb x y && props_eqb ps qs
         | _, _ => false
         end) ps qs
  | _, _ => false
  end.

(** [props[key] = v] on an object: a key that is there keeps its place,
    a new key goes to the end.  This is the assignment of the code for a
    key other than [__proto__] (which sets the prototype when the object
    has no such property) and other than a new array index (which goes
    before the other keys). *)
Fixpoint put {A} (key : string) (v : A) (props : list (string * A))
    : list (string * A) :=
  match props with
  | [] => [(key, v)]
  | (k, x) :: props =>
      if decide (k = key) then (k, v) :: props else (k, x) :: put key v props
  end.

(** [delete props[key]] *)
Definition remove {A} (key : string) (props : list (string * A))
    : list (string * A) :=
  filter (λ p, p.1 ≠ key) props.

(** [base[key] || {}] *)
Definition base_at (base : tree) (key : string) : tree :=
  match get base key with
  | Some v => if truthy v then v else TObj []
  | None => TObj []
  end.

(** The document [deepMerge(base, over)] stands for when [over] is an
    object, and the value it leaves at a key whose overlay value is
    [over] and whose base is [base]; it is built with [put] and [base_at],
    and so is the document of the code on the overlays that are
    [ordinary] for the base (below). *)
Fixpoint merge_tree (base over : tree) {struct over} : tree :=
  match over with
  | TObj sps =>
      TObj (foldl (λ result '(key, sv),
                     put key (merge_tree (base_at base key) sv) result)
                  (own_props base) sps)
  | _ => over
  end.

(** The keys of every object reached through object members are
    pairwise distinct (arrays are not looked into). *)
Fixpoint unique_keys (t : tree) : Prop :=
  match t with
  | TObj props =>
      NoDup props.*1 ∧
      (fix all (props : list (string * tree)) : Prop :=
         match props with
         | [] => True
         | (_, x) :: props => unique_keys x ∧ all props
         end) props
  | _ => True
  end.

(** Nesting depth, through objects only and through objects and arrays. *)
Fixpoint object_depth (t : tree) : nat :=
  match t with
  | TObj props =>
      S ((fix deepest (props : list (string * tree)) : nat :=
            match props with
            | [] => 0
            | (_, x) :: props => object_depth x `max` deepest props
            end) props)
  | _ => 0
  end.

Fixpoint depth (t : tree) : nat :=
  match t with
  | TObj props =>
      S ((fix deepest (props : list (string * tree)) : nat :=
            match props with
            | [] => 0
            | (_, x) :: props => depth x `max` deepest props
            end) props)
  | TArr items =>
      S ((fix deepest (items : list tree) : nat :=
            match items with
            | [] => 0
            | x :: items => depth x `max` deepest items
            end) items)
  | _ => 0
  end.

(** The properties of the object at the end of a path that runs through
    objects only. *)
Fixpoint obj_at (t : tree) (path : list string) : option (list (string * tree)) :=
  match t with
  | TObj props =>
      match path with
      | [] => Some props
      | key :: path => t' ← assoc key props; obj_at t' path
      end
  | _ => None
  end.


(** The names [Object.prototype] defines, Annex B's included: what a
    read [o[key]] finds on a plain object [o], or on a boolean, that has no
    property [key] of its own.  [Number.prototype] adds three names to
    them, [Boolean.prototype] none. *)
Definition object_prototype : list string :=
  ["constructor"; "__proto__"; "hasOwnProperty"; "isPrototypeOf";
   "propertyIsEnumerable"; "toLocaleString"; "toString"; "valueOf";
   "__defineGetter__"; "__defineSetter__"; "__lookupGetter__";
   "__lookupSetter__"].

Definition number_prototype : list string :=
  ["toExponential"; "toFixed"; "toPrecision"].

(** The read [t[key]] is decided by the properties [t] has itself, as
    [get] has it: [t] has the property, or no prototype of [t] has it and
    the read gives [undefined].  The prototypes of arrays and of strings
    grow with the language; of an array and of a string only the reads of
    their own properties count as such. *)
Definition own_read (t : tree) (key : string) : bool :=
  match get t key with
  | Some _ => true
  | None =>
      match t with
      | TObj _ | TBool _ => bool_decide (key ∉ object_prototype)
      | TNum _ => bool_decide (key ∉ object_prototype ++ number_prototype)
      | TStr _ | TArr _ | TNull => false
      end
  end.

(** A key made of digits only.  The array indices, which an object
    enumerates before its other keys whenever they were added, are among
    these. *)
Definition index_like (key : string) : bool :=
  match key with
  | EmptyString => false
  | String _ _ =>
      forallb (λ c, bool_decide (48 ≤ nat_of_ascii c ≤ 57)) (list_ascii_of_string key)
  end.

(** The overlays on which [put], [get] and [base_at] are what
    [deepMerge] does to a base, key by key: no key that [deepMerge] writes
    is [__proto__], whose assignment sets the prototype, or is made of
    digits only, and every read [target[key]] that [deepMerge] makes (there
    is one for each key under which the overlay holds an object) is an own
    read. *)
Fixpoint ordinary (base over : tree) {struct over} : bool :=
  match over with
  | TObj sps =>
      forallb (λ '(key, sv),
        negb (bool_decide (key = "__proto__")) && negb (index_like key) &&
        match sv with
        | TObj _ => own_read base key && ordinary (base_at base key) sv
        | _ => true
        end) sps
  | _ => true
  end.

End Json.

(** ** [src/utils/conflicts.js]: the detectors and their report *)

Module Conflicts.
Import Num Similarity Json.

(** What a file of the [.claude] directory holds. *)
Inductive file :=
| Missing
| Unparseable
| Document (t : tree).

(** An entry of [.claude/commands]: [Failing] is one whose [stat] or
    [readdir] rejects. *)
Inductive entry :=
| NotDirectory
| Directory (files : list string)
| Failing.

Record claude_dir := {
  commands : option (list (string * entry));
  settings_json : file;
  settings_local_json : file;
}.

(** The conflict records.  [message] is a rendering of the other fields;
    of it, [similar_commands] keeps the two names it quotes. *)
Inductive conflict :=
| similar_commands (directory : string) (files : string * string)
                   (quoted : string * string)
| plugin_override (plugin : string)
| mcp_server_override (server : string)
| duplicate_mcp (servers : string * string)
| existing_installation (version : option tree).

(** The [type] field of a record. *)
Definition type (r : conflict) : string :=
  match r with
  | similar_commands _ _ _ => "similar_commands"
  | plugin_override _ => "plugin_override"
  | mcp_server_override _ => "mcp_server_override"
  | duplicate_mcp _ => "duplicate_mcp"
  | existing_installation _ => "existing_installation"
  end.

(** A block that pushes records onto [conflicts] and may throw: the state
    is the array, [None] is an exception on its way to the [catch]. *)
Definition block (A : Type) := list conflict → option A * list conflict.

Definition ret {A} (x : A) : block A := λ conflicts, (Some x, conflicts).
Definition throw {A} : block A := λ conflicts, (None, conflicts).
Definition bind {A B} (m : block A) (f : A → block B) : block B :=
  λ conflicts,
    match m conflicts with
    | (Some x, conflicts) => f x conflicts
    | (None, conflicts) => (None, conflicts)
    end.
Definition push (r : conflict) : block unit :=
  λ conflicts, (Some tt, conflicts ++ [r]).

Notation "x <- m ;; k" := (bind m (λ x, k))
  (at level 100, m at next level, right associativity).
Notation "m ;;; k" := (bind m (λ _, k))
  (at level 100, right associativity).

(** [for (const x of xs) body(x)] *)
Fixpoint for_of {A} (xs : list A) (body : A → block unit) : block unit :=
  match xs with
  | [] => ret tt
  | x :: xs => body x ;;; for_of xs body
  end.

(** [const conflicts = []; try { body } catch { }; return conflicts] *)
Definition caught (body : block unit) : list conflict := (body []).2.

(** A value that must be there: reading through [undefined] throws. *)
Definition defined {A} (v : option A) : block A :=
  match v with Some x => ret x | None => throw end.

(** [t.key]: a TypeError on [null]. *)
Definition member (t : tree) (key : string) : block (option tree) :=
  match t with TNull => throw | _ => ret (get t key) end.

(** [JSON.parse(await fs.readFile(path))] *)
Definition read_json (f : file) : block tree :=
  match f with Document t => ret t | Missing | Unparseable => throw end.

(** [fs.access(path).then(() => true).catch(() => false)] *)
Definition exists_file (f : file) : bool :=
  match f with Missing => false | Unparseable | Document _ => true end.

Fixpoint drop_chars (n : nat) (s : string) : string :=
  match n, s with
  | S n, String _ s => drop_chars n s
  | _, _ => s
  end.

(** [pattern] stands at the start of [s]. *)
Fixpoint starts_with (pattern s : string) : bool :=
  match pattern, s with
  | EmptyString, _ => true
  | String _ _, EmptyString => false
  | String a pattern, String b s => bool_decide (a = b) && starts_with pattern s
  end.

(** [s.replace(pattern, '')] for a string pattern: the leftmost
    occurrence is removed. *)
Fixpoint remove_first (pattern s : string) : string :=
  if starts_with pattern s then drop_chars (String.length pattern) s
  else match s with
       | EmptyString => EmptyString
       | String c s => String c (remove_first pattern s)
       end.

(** The two loops over the files of one directory, lines 67-81. *)
Definition scan_directory (subdir : string) (files : list string) : block unit :=
  for_of (seq 0 (length files)) (λ i,
    for_of (seq (i + 1) (length files - (i + 1))) (λ j,
      fi <- defined (files !! i);;
      fj <- defined (files !! j);;
      let nameA := remove_first ".md" fi in
      let nameB := remove_first ".md" fj in
      if areSimilar nameA nameB default_threshold then
        push (similar_commands subdir (fi, fj) (nameA, nameB))
      else ret tt)).

(** The pairs of positions the two loops visit, in the order of the
    visit, and the order they are listed in. *)
Definition index_pairs (n : nat) : list (nat * nat) :=
  i ← seq 0 n; (λ j, (i, j)) <$> seq (i + 1) (n - (i + 1)).

Definition lex_lt (p q : nat * nat) : Prop :=
  p.1 < q.1 ∨ (p.1 = q.1 ∧ p.2 < q.2).

(** What the test of one pair of positions contributes. *)
Definition flagged (subdir : string) (files : list string) (p : nat * nat)
    : list conflict :=
  match files !! p.1, files !! p.2 with
  | Some fi, Some fj =>
      if areSimilar (remove_first ".md" fi) (remove_first ".md" fj) default_threshold
      then [similar_commands subdir (fi, fj)
              (remove_first ".md" fi, remove_first ".md" fj)]
      else []
  | _, _ => []
  end.

(** The base name of a file in the usual sense: the name up to its last
    dot, the whole name when it has none (or only a leading one). *)
Fixpoint last_dot (s : string) : option nat :=
  match s with
  | EmptyString => None
  | String c s' =>
      match last_dot s' with
      | Some k => Some (S k)
      | None => if decide (c = "."%char) then Some 0 else None
      end
  end.

Fixpoint take_chars (n : nat) (s : string) : string :=
  match n, s with
  | S n, String c s => String c (take_chars n s)
  | _, _ => EmptyString
  end.

Definition strip_extension (s : string) : string :=
  match last_dot s with
  | Some (S k) => take_chars (S k) s
  | _ => s
  end.

(** [pattern] occurs somewhere in [s]. *)
Fixpoint occurs (pattern s : string) : bool :=
  starts_with pattern s ||
  match s with
  | EmptyString => false
  | String _ s => occurs pattern s
  end.

Definition detectDuplicateCommands (dir : claude_dir) : list conflict :=
  caught (
    subdirs <- defined (commands dir);;
    for_of subdirs (λ '(subdir, e),
      match e with
      | Failing => throw
      | NotDirectory => ret tt
      | Directory files => scan_directory subdir files
      end)).

(** One of the two key comparisons of [detectSettingsConflicts]. *)
Definition overrides (section : string) (record : string → conflict)
    (settings localSettings : tree) : block unit :=
  mine <- member settings section;;
  if truthy_opt mine then
    theirs <- member localSettings section;;
    if truthy_opt theirs then
      for_of (keys (default TNull mine)) (λ key,
        if truthy_opt (get (default TNull theirs) key) then push (record key)
        else ret tt)
    else ret tt
  else ret tt.

Definition detectSettingsConflicts (dir : claude_dir) : list conflict :=
  caught (
    if exists_file (settings_json dir) && exists_file (settings_local_json dir) then
      settings <- read_json (settings_json dir);;
      localSettings <- read_json (settings_local_json dir);;
      overrides "plugins" plugin_override settings localSettings;;;
      overrides "mcpServers" mcp_server_override settings localSettings
    else ret tt).

Record installation := {
  installed : bool;
  version : option tree;
  installedAt : option tree;
}.

Definition not_installed : installation :=
  {| installed := false; version := None; installedAt := None |}.

Definition detectExistingInstallation (dir : claude_dir) : installation :=
  match settings_json dir with
  | Document settings =>
      match settings with
      | TNull => not_installed
      | _ =>
          match get settings "danizee-suite" with
          | Some marker =>
              if truthy marker then
                {| installed := true;
                   version :=
                     Some (if truthy_opt (get marker "version")
                           then default TNull (get marker "version")
                           else TStr "unknown");
                   installedAt := get marker "installedAt" |}
              else not_installed
          | None => not_installed
          end
      end
  | Missing | Unparseable => not_installed
  end.

(** [x === y] on two values read from different places of one parsed
    document: primitives compare by value, two objects or arrays are
    never the same object. *)
Definition strict_eq (x y : option tree) : bool :=
  match x, y with
  | None, None => true
  | Some TNull, Some TNull => true
  | Some (TBool a), Some (TBool b) => bool_decide (a = b)
  | Some (TNum p), Some (TNum q) => Qeq_bool p q
  | Some (TStr s), Some (TStr t) => bool_decide (s = t)
  | _, _ => false
  end.

(** [JSON.stringify(x) === JSON.stringify(y)] *)
Definition stringify_eq (x y : option tree) : bool :=
  match x, y with
  | None, None => true
  | Some x, Some y => tree_eqb x y
  | _, _ => false
  end.

Definition detectMcpConflicts (dir : claude_dir) : list conflict :=
  caught (
    settings <- read_json (settings_json dir);;
    mcpServers <- member settings "mcpServers";;
    if truthy_opt mcpServers then
      let servers := own_props (default TNull mcpServers) in
      for_of (seq 0 (length servers)) (λ i,
        for_of (seq (i + 1) (length servers - (i + 1))) (λ j,
          serverA <- defined (servers !! i);;
          serverB <- defined (servers !! j);;
          let '(nameA, configA) := serverA in
          let '(nameB, configB) := serverB in
          commandA <- member configA "command";;
          commandB <- member configB "command";;
          if strict_eq commandA commandB then
            argsA <- member configA "args";;
            argsB <- member configB "args";;
            if stringify_eq argsA argsB then push (duplicate_mcp (nameA, nameB))
            else ret tt
          else ret tt))
    else ret tt).

(** [options.force]; a call without it reads as [false]. *)
Record options := { force : bool }.

Record report := {
  hasConflicts : bool;
  conflicts : list conflict;
  existing : installation;
}.

Definition runConflictChecks (dir : claude_dir) (opts : options) : report :=
  let duplicateCommands := detectDuplicateCommands dir in
  let settingsConflicts := detectSettingsConflicts dir in
  let mcpConflicts := detectMcpConflicts dir in
  let existing := detectExistingInstallation dir in
  let allConflicts := [] ++ duplicateCommands ++ settingsConflicts ++ mcpConflicts in
  let allConflicts :=
    if installed existing && negb (force opts)
    then allConflicts ++ [existing_installation (version existing)]
    else allConflicts in
  {| hasConflicts := bool_decide (0 < length allConflicts);
     conflicts := allConflicts;
     existing := existing |}.

(** [m] leaves the records that are there and pushes only records that
    satisfy [P]. *)
Definition pushes_only {A} (P : conflict → Prop) (m : block A) : Prop :=
  ∀ c, ∃ new, (m c).2 = c ++ new ∧ Forall P new.

(** Where a record of [detectDuplicateCommands] comes from. *)
Definition from_directory (dir : claude_dir) (r : conflict) : Prop :=
  ∃ subdirs subdir files i j fi fj,
    commands dir = Some subdirs ∧ (subdir, Directory files) ∈ subdirs ∧
    i < j ∧ files !! i = Some fi ∧ files !! j = Some fj ∧
    areSimilar (remove_first ".md" fi) (remove_first ".md" fj) default_threshold = true ∧
    r = similar_commands subdir (fi, fj)
          (remove_first ".md" fi, remove_first ".md" fj).

(** What one entry of the commands directory contributes when it can be
    read. *)
Definition scanned (p : string * entry) : list conflict :=
  match p.2 with
  | Directory files => index_pairs (length files) ≫= flagged p.1 files
  | NotDirectory | Failing => []
  end.

(** What one section contributes to [detectSettingsConflicts] when
    nothing throws. *)
Definition overridden (section : string) (record : string → conflict)
    (settings localSettings : tree) : list conflict :=
  if truthy_opt (get settings section) && truthy_opt (get localSettings section) then
    keys (default TNull (get settings section)) ≫= λ key,
      if truthy_opt (get (default TNull (get localSettings section)) key)
      then [record key] else []
  else [].

(** Every read [localSettings[section][key]] that [detectSettingsConflicts]
    makes for [section] is an own read (it makes none when the section is
    missing or falsy on one side). *)
Definition own_section_reads (section : string) (settings localSettings : tree)
    : bool :=
  match get settings section, get localSettings section with
  | Some mine, Some theirs =>
      if truthy mine && truthy theirs then forallb (own_read theirs) (keys mine)
      else true
  | _, _ => true
  end.

(** What the test of one pair of servers contributes. *)
Definition duplicated (servers : list (string * tree)) (p : nat * nat)
    : list conflict :=
  match servers !! p.1, servers !! p.2 with
  | Some (nameA, configA), Some (nameB, configB) =>
      if strict_eq (get configA "command") (get configB "command")
         && stringify_eq (get configA "args") (get configB "args")
      then [duplicate_mcp (nameA, nameB)] else []
  | _, _ => []
  end.

End Conflicts.

(** ** [src/utils/settings.js]: objects in a heap *)

Module Settings.
Import Json.

(** A JavaScript value: a primitive, or a reference to an object or an
    array of the heap. *)
Inductive value :=
| VUndefined
| VNull
| VBool (b : bool)
| VNum (q : Q)
| VStr (s : string)
| VRef (l : nat).

Inductive cell :=
| CObj (props : list (string * value))
| CArr (items : list value).

(** The heap: a location is an index, a new object goes to the end. *)
Notation heap := (list cell).

Inductive outcome (A : Type) :=
| Ok (x : A)
| TypeError
| OutOfFuel.
Arguments Ok {A} x.
Arguments TypeError {A}.
Arguments OutOfFuel {A}.

Definition truthy_value (v : value) : bool :=
  match v with
  | VUndefined | VNull => false
  | VBool b => b
  | VNum q => negb (Qeq_bool q 0)
  | VStr s => match s with EmptyString => false | String _ _ => true end
  | VRef _ => true
  end.

Definition nullish (v : value) : bool :=
  match v with VUndefined | VNull => true | _ => false end.

(** The own enumerable properties of a value: what [{ ...v }] copies and
    [Object.keys(v)] lists. *)
Definition props_of (h : heap) (v : value) : list (string * value) :=
  match v with
  | VRef l =>
      match h !! l with
      | Some (CObj props) => props
      | Some (CArr items) => imap (λ i x, (index_key i, x)) items
      | None => []
      end
  | VStr s =>
      imap (λ i c, (index_key i, VStr (String c EmptyString)))
           (list_ascii_of_string s)
  | _ => []
  end.

Definition length_of (h : heap) (v : value) : option nat :=
  match v with
  | VRef l =>
      match h !! l with Some (CArr items) => Some (length items) | _ => None end
  | VStr s => Some (String.length s)
  | _ => None
  end.

(** [v[key]] for a [v] that is neither [null] nor [undefined]: the own
    property, as [get] on documents. *)
Definition read (h : heap) (v : value) (key : string) : value :=
  match length_of h v with
  | Some n =>
      if decide (key = "length") then VNum (inject_Z (Z.of_nat n))
      else default VUndefined (assoc key (props_of h v))
  | None => default VUndefined (assoc key (props_of h v))
  end.

(** [v && typeof v === 'object' && !Array.isArray(v)] *)
Definition plain_object (h : heap) (v : value) : bool :=
  match v with
  | VRef l => match h !! l with Some (CObj _) => true | _ => false end
  | _ => false
  end.

(** [result[key] = v] for the object at [result]: an own property is
    written, as [put] on documents. *)
Definition store (result : nat) (key : string) (v : value) (h : heap) : heap :=
  alter (λ c, match c with
              | CObj props => CObj (put key v props)
              | CArr _ => c
              end) result h.

(** The loop of [deepMerge] over [Object.keys(source)]; [recurse] is the
    recursive call. *)
Fixpoint merge_keys (recurse : value → value → heap → outcome (value * heap))
    (target source : value) (result : nat) (keys : list string) (h : heap)
    : outcome heap :=
  match keys with
  | [] => Ok h
  | key :: keys =>
      if plain_object h (read h source key) then
        if nullish target then TypeError
        else
          let '(base, h) :=
            if truthy_value (read h target key) then (read h target key, h)
            else (VRef (length h), h ++ [CObj []]) in
          match recurse base (read h source key) h with
          | Ok (r, h) => merge_keys recurse target source result keys (store result key r h)
          | TypeError => TypeError
          | OutOfFuel => OutOfFuel
          end
      else
        merge_keys recurse target source result keys
          (store result key (read h source key) h)
  end.

Fixpoint deepMerge (fuel : nat) (target source : value) (h : heap)
    : outcome (value * heap) :=
  match fuel with
  | 0 => OutOfFuel
  | S fuel =>
      let result := length h in
      let h := h ++ [CObj (props_of h target)] in
      if nullish source then TypeError
      else
        match merge_keys (deepMerge fuel) target source result
                (props_of h source).*1 h with
        | Ok h => Ok (VRef result, h)
        | TypeError => TypeError
        | OutOfFuel => OutOfFuel
        end
  end.

(** [JSON.parse], and object and array literals: the document is built
    in the heap, members first. *)
Fixpoint alloc (t : tree) (h : heap) : value * heap :=
  match t with
  | TNull => (VNull, h)
  | TBool b => (VBool b, h)
  | TNum q => (VNum q, h)
  | TStr s => (VStr s, h)
  | TArr items =>
      let '(vs, h) :=
        (fix members (items : list tree) (h : heap) : list value * heap :=
           match items with
           | [] => ([], h)
           | x :: items =>
               let '(v, h) := alloc x h in
               let '(vs, h) := members items h in
               (v :: vs, h)
           end) items h in
      (VRef (length h), h ++ [CArr vs])
  | TObj props =>
      let '(vps, h) :=
        (fix members (props : list (string * tree)) (h : heap)
             : list (string * value) * heap :=
           match props with
           | [] => ([], h)
           | (k, x) :: props =>
               let '(v, h) := alloc x h in
               let '(vps, h) := members props h in
               ((k, v) :: vps, h)
           end) props h in
      (VRef (length h), h ++ [CObj vps])
  end.

(** The document a value stands for, as [JSON.stringify] walks it: a
    member that is [undefined] is left out of an object and is [null] in
    an array.  With no fuel left the value is nested deeper than the fuel. *)
Fixpoint reify (fuel : nat) (h : heap) (v : value) : option tree :=
  match fuel with
  | 0 => None
  | S fuel =>
      match v with
      | VUndefined | VNull => Some TNull
      | VBool b => Some (TBool b)
      | VNum q => Some (TNum q)
      | VStr s => Some (TStr s)
      | VRef l =>
          match h !! l with
          | Some (CObj props) =>
              TObj <$>
                (fix members (props : list (string * value))
                     : option (list (string * tree)) :=
                   match props with
                   | [] => Some []
                   | (k, VUndefined) :: props => members props
                   | (k, v) :: props =>
                       x ← reify fuel h v; xs ← members props; Some ((k, x) :: xs)
                   end) props
          | Some (CArr items) =>
              TArr <$>
                (fix members (items : list value) : option (list tree) :=
                   match items with
                   | [] => Some []
                   | v :: items =>
                       x ← reify fuel h v; xs ← members items; Some (x :: xs)
                   end) items
          | None => None
          end
      end
  end.

(** [JSON.stringify(v)], as the text that [writeSettings] hands to
    [fs.writeFile]: there is none for [undefined], and none for a value
    that runs into itself ([JSON.stringify] throws on a cycle; a value of
    a heap of [n] cells that is nested deeper than [n] runs through some
    cell twice). *)
Definition stringify (h : heap) (v : value) : outcome tree :=
  match v with
  | VUndefined => TypeError
  | _ =>
      match reify (S (length h)) h v with
      | Some t => Ok t
      | None => TypeError
      end
  end.

(** [readSettings]: the parsed file, or a new empty object when the file
    is missing or is not JSON. *)
Definition readSettings (f : Conflicts.file) (h : heap) : value * heap :=
  match f with
  | Conflicts.Document t => alloc t h
  | Conflicts.Missing | Conflicts.Unparseable => (VRef (length h), h ++ [CObj []])
  end.

(** [delete settings['danizee-suite']] *)
Definition delete_marker (settings : value) (h : heap) : outcome heap :=
  match settings with
  | VUndefined | VNull => TypeError
  | VRef l =>
      Ok (alter (λ c, match c with
                      | CObj props => CObj (remove "danizee-suite" props)
                      | CArr _ => c
                      end) l h)
  | _ => Ok h
  end.

(** [writeSettings]: the file holds the text of the settings. *)
Definition writeSettings (settings : value) (h : heap) : outcome Conflicts.file :=
  match stringify h settings with
  | Ok t => Ok (Conflicts.Document t)
  | TypeError => TypeError
  | OutOfFuel => OutOfFuel
  end.

(** [removeSettings(claudeDir, keepSettings)] on the settings file and the
    heap: the file afterwards ([Missing] once unlinked) and the heap. *)
Definition removeSettings (keepSettings : bool) (f : Conflicts.file) (h : heap)
    : outcome (Conflicts.file * heap) :=
  if keepSettings then
    let '(settings, h) := readSettings f h in
    match delete_marker settings h with
    | Ok h =>
        match writeSettings settings h with
        | Ok f => Ok (f, h)
        | TypeError => TypeError
        | OutOfFuel => OutOfFuel
        end
    | TypeError => TypeError
    | OutOfFuel => OutOfFuel
    end
  else Ok (Conflicts.Missing, h).

(** The member loops of [alloc] and [reify], by name. *)
Definition alloc_items : list tree → heap → list value * heap :=
  fix members (items : list tree) (h : heap) : list value * heap :=
    match items with
    | [] => ([], h)
    | x :: items =>
        let '(v, h) := alloc x h in
        let '(vs, h) := members items h in
        (v :: vs, h)
    end.

Definition alloc_props : list (string * tree) → heap → list (string * value) * heap :=
  fix members (props : list (string * tree)) (h : heap)
      : list (string * value) * heap :=
    match props with
    | [] => ([], h)
    | (k, x) :: props =>
        let '(v, h) := alloc x h in
        let '(vps, h) := members props h in
        ((k, v) :: vps, h)
    end.

Definition reify_props (fuel : nat) (h : heap)
    : list (string * value) → option (list (string * tree)) :=
  fix members (props : list (string * value)) : option (list (string * tree)) :=
    match props with
    | [] => Some []
    | (k, VUndefined) :: props => members props
    | (k, v) :: props =>
        x ← reify fuel h v; xs ← members props; Some ((k, x) :: xs)
    end.

Definition reify_items (fuel : nat) (h : heap) : list value → option (list tree) :=
  fix members (items : list value) : option (list tree) :=
    match items with
    | [] => Some []
    | v :: items => x ← reify fuel h v; xs ← members items; Some (x :: xs)
    end.

(** [deepMerge] on two documents: both are built in an empty heap, the
    fuel is the nesting of the overlay, and the result is read back. *)
Definition deepMerge_documents (base over : tree) : option tree :=
  let '(vb, h) := alloc base [] in
  let '(vo, h) := alloc over h in
  match deepMerge (object_depth over) vb vo h with
  | Ok (r, h) => reify (S (length h)) h r
  | TypeError | OutOfFuel => None
  end.

(** [v] stands for the document [t] in [h], through cells in [P] only. *)
Fixpoint repr (P : nat → Prop) (h : heap) (t : tree) (v : value) {struct t} : Prop :=
  match t with
  | TNull => v = VNull
  | TBool b => v = VBool b
  | TNum q => v = VNum q
  | TStr s => v = VStr s
  | TArr items =>
      ∃ l vs, v = VRef l ∧ P l ∧ h !! l = Some (CArr vs) ∧
        (fix all (items : list tree) (vs : list value) : Prop :=
           match items, vs with
           | [], [] => True
           | x :: items, v :: vs => repr P h x v ∧ all items vs
           | _, _ => False
           end) items vs
  | TObj props =>
      ∃ l vps, v = VRef l ∧ P l ∧ h !! l = Some (CObj vps) ∧
        (fix all (props : list (string * tree)) (vps : list (string * value)) : Prop :=
           match props, vps with
           | [], [] => True
           | (k, x) :: props, (k', v) :: vps => k = k' ∧ repr P h x v ∧ all props vps
           | _, _ => False
           end) props vps
  end.

(** Two entries with the same key and related values. *)
Definition same_entry (R : tree → value → Prop)
  (p : string * tree) (q : string * value) : Prop :=
p.1 = q.1 ∧ R p.2 q.2.

(** What is to be shown of an overlay: on a base and an overlay that stand
  in the heap, with fuel for the nesting of the overlay, [deepMerge]
  returns a new object that stands for [merge_tree base over]. *)
Definition refines (over : tree) : Prop :=
∀ P h base vb vo fuel,
  (∀ l, P l → l < length h) →
  repr P h base vb → base ≠ TNull →
  repr P h over vo → unique_keys over → object_depth over ≤ fuel →
  (∃ sps, over = TObj sps) →
  ∃ h', deepMerge fuel vb vo h = Ok (VRef (length h), h') ∧
        repr (λ l, P l ∨ length h ≤ l < length h') h'
             (merge_tree base over) (VRef (length h)).

(** [h'] is [h] with cells added and the cell at [r] possibly changed. *)
Definition later (r : nat) (h h' : heap) : Prop :=
length h ≤ length h' ∧ ∀ l, l < length h → l ≠ r → h' !! l = h !! l.

(** The cells a member of a result under construction may use: the old
    ones, in [P], and the ones added after the result itself, which is
    at [r]. *)
Definition inside (P : nat → Prop) (r n : nat) : nat → Prop :=
  λ l, P l ∨ r < l < n.

(** What [alloc] promises of a document. *)
Definition allocated (x : tree) : Prop :=
  ∀ h v h', alloc x h = (v, h') →
    h `prefix_of` h' ∧ repr (λ l, length h ≤ l < length h') h' x v ∧
    length h + depth x ≤ length h'.

(** [v[k1]...[kn]], read through own properties; there is no value when
    the path runs into [null] or [undefined] before its end (the read
    throws). *)
Fixpoint member_at (h : heap) (v : value) (path : list string) : option value :=
  match path with
  | [] => Some v
  | key :: path => if nullish v then None else member_at h (read h v key) path
  end.

(** The cells of a heap of [n] cells, but the two at [r] and at [a]. *)
Definition apart (r a n : nat) : nat → Prop :=
  λ l, l < n ∧ l ≠ r ∧ l ≠ a.

(** Two entries with the same key, and with related values unless the
    key is [k0]. *)
Definition keyed (k0 : string) (R : tree → value → Prop)
    (p : string * tree) (q : string * value) : Prop :=
  p.1 = q.1 ∧ (p.1 ≠ k0 → R p.2 q.2).

(** [getDefaultSettings()]; [now] is what [new Date().toISOString()]
    returns. *)
Definition getDefaultSettings (now : string) : tree :=
  TObj [
    ("danizee-suite", TObj [
       ("version", TStr "1.0.0");
       ("installedAt", TStr now);
       ("plugins", TObj [
          ("claude-flow", TBool true);
          ("compound-engineering", TBool true);
          ("frontend-design", TBool true)])]);
    ("mcpServers", TObj [
       ("claude-flow", TObj [
          ("command", TStr "npx");
          ("args", TArr [TStr "claude-flow@alpha"; TStr "mcp"; TStr "start"]);
          ("description",
           TStr "Claude Flow multi-agent orchestration with memory and swarm support")])]);
    ("permissions", TObj [
       ("allow", TArr [
          TStr "Bash(npx claude-flow*)";
          TStr "Bash(git worktree*)";
          TStr "Read(docs/solutions/**)";
          TStr "Write(docs/solutions/**)"])]);
    ("features", TObj [
       ("danizee-compound-memory", TBool true);
       ("danizee-compound-checkpoints", TBool true);
       ("danizee-compound-docs", TBool true)])].

(** The table [settings] of [getPluginSettings]. *)
Definition plugin_settings : tree :=
  TObj [
    ("claude-flow", TObj [
       ("namespace", TStr "danizee-flow");
       ("swarm", TObj [
          ("topologies",
           TArr [TStr "hierarchical"; TStr "mesh"; TStr "ring"; TStr "star"]);
          ("defaultTopology", TStr "hierarchical")]);
       ("memory", TObj [
          ("enabled", TBool true);
          ("namespaces", TArr [
             TStr "project/features/*";
             TStr "project/bugs/*";
             TStr "project/security/*";
             TStr "project/performance/*";
             TStr "project/architecture/*";
             TStr "project/reviews/*";
             TStr "project/incidents/*";
             TStr "project/tdd/*";
             TStr "project/implementations/*";
             TStr "project/debugging/*";
             TStr "project/full-tdd-swarm/*";
             TStr "project/multi-repo/*"])]);
       ("agents", TArr [
          TStr "coder";
          TStr "tester";
          TStr "reviewer";
          TStr "security-sentinel";
          TStr "performance-oracle";
          TStr "architecture-strategist";
          TStr "pattern-recognition-specialist";
          TStr "code-simplicity-reviewer";
          TStr "analyst";
          TStr "git-history-analyzer";
          TStr "system-architect"])]);
    ("compound-engineering", TObj [
       ("namespace", TStr "danizee-compound");
       ("commands", TArr [TStr "plan"; TStr "work"; TStr "review"; TStr "compound"]);
       ("docsPath", TStr "docs/solutions");
       ("checkpoints", TObj [
          ("enabled", TBool true);
          ("pauseMessage",
           TStr (String.append "Say "
                   (String "034" (String.append "continue"
                      (String "034" " to proceed or give feedback to redirect.")))))])]);
    ("frontend-design", TObj [
       ("namespace", TStr "danizee-frontend");
       ("commands", TArr [TStr "design"; TStr "component"; TStr "layout"; TStr "theme"]);
       ("frameworks", TArr [TStr "react"; TStr "vue"; TStr "svelte"])])].

(** [getPluginSettings(pluginName)]: the table is built, and
    [settings[pluginName] || {}] is returned. *)
Definition getPluginSettings (pluginName : string) (h : heap) : value * heap :=
  let '(settings, h) := alloc plugin_settings h in
  if truthy_value (read h settings pluginName) then (read h settings pluginName, h)
  else (VRef (length h), h ++ [CObj []]).

(** What [validateSettings] returns. *)
Record validation := {
  valid : bool;
  errors : list string;
}.

(** [validateSettings(settings)]; [settings.mcpServers?.['claude-flow']]
    is [undefined] when [settings.mcpServers] is [null] or [undefined]. *)
Definition validateSettings (settings : value) (h : heap) : outcome validation :=
  if nullish settings then TypeError
  else
    let errors := [] in
    let errors :=
      if truthy_value (read h settings "danizee-suite") then errors
      else errors ++ ["Missing danizee-suite configuration"] in
    let mcpServers := read h settings "mcpServers" in
    let claudeFlow :=
      if nullish mcpServers then VUndefined else read h mcpServers "claude-flow" in
    let errors :=
      if truthy_value claudeFlow then errors
      else errors ++ ["Missing claude-flow MCP server configuration"] in
    Ok {| valid := bool_decide (length errors = 0); errors := errors |}.

(** [target[key] = v] on a value that was read: an object takes the
    property; [null] and [undefined] throw, and so does a primitive, the
    file being a module and so in strict mode. *)
Definition assign (target : value) (key : string) (v : value) (h : heap)
    : outcome heap :=
  match target with
  | VRef l => Ok (store l key v h)
  | _ => TypeError
  end.

(** [mergeSettings(claudeDir, options)] on the settings file and the heap:
    the object it returns, the file it writes and the heap.  [force] is the
    truthiness of [options.force]; [now], [now1] and [now2] are the three
    readings of the clock, the first in [getDefaultSettings]. *)
Definition mergeSettings (f : Conflicts.file) (force : bool)
    (now now1 now2 : string) (h : heap)
    : outcome (value * Conflicts.file * heap) :=
  let '(existing, h) := readSettings f h in
  let '(defaultSettings, h) := alloc (getDefaultSettings now) h in
  let allPluginSettings := length h in
  let h := h ++ [CObj []] in
  let h :=
    foldl (λ h plugin,
             let '(v, h) := getPluginSettings plugin h in
             store allPluginSettings plugin v h)
          h ["claude-flow"; "compound-engineering"; "frontend-design"] in
  match deepMerge (object_depth (getDefaultSettings now)) existing defaultSettings h with
  | Ok (merged, h) =>
      let '(plugins, h) :=
        if truthy_value (read h merged "plugins") then (read h merged "plugins", h)
        else (VRef (length h), h ++ [CObj []]) in
      match deepMerge (object_depth plugin_settings) plugins
              (VRef allPluginSettings) h with
      | Ok (plugins, h) =>
          match assign merged "plugins" plugins h with
          | Ok h =>
              let stamped :=
                if force then
                  match assign (read h merged "danizee-suite") "installedAt"
                          (VStr now1) h with
                  | Ok h => assign (read h merged "danizee-suite") "updatedAt"
                              (VStr now2) h
                  | TypeError => TypeError
                  | OutOfFuel => OutOfFuel
                  end
                else Ok h in
              match stamped with
              | Ok h =>
                  match writeSettings merged h with
                  | Ok f => Ok (merged, f, h)
                  | TypeError => TypeError
                  | OutOfFuel => OutOfFuel
                  end
              | TypeError => TypeError
              | OutOfFuel => OutOfFuel
              end
          | TypeError => TypeError
          | OutOfFuel => OutOfFuel
          end
      | TypeError => TypeError
      | OutOfFuel => OutOfFuel
      end
  | TypeError => TypeError
  | OutOfFuel => OutOfFuel
  end.

(** The document [mergeSettings] writes and returns when the file held
    [existing]: the defaults merged over it, the plugin table merged over
    its [plugins], and with [force] the two dates set on the marker. *)
Definition merged_settings (existing : tree) (force : bool)
    (now now1 now2 : string) : tree :=
  let merged := own_props (merge_tree existing (getDefaultSettings now)) in
  let merged :=
    put "plugins" (merge_tree (base_at (TObj merged) "plugins") plugin_settings)
        merged in
  if force then
    let suite := own_props (default (TObj []) (assoc "danizee-suite" merged)) in
    TObj (put "danizee-suite"
            (TObj (put "updatedAt" (TStr now2) (put "installedAt" (TStr now1) suite)))
            merged)
  else TObj merged.

(** The document a settings file holds once read: a missing or broken
    file reads as the empty object. *)
Definition settings_of (f : Conflicts.file) : tree :=
  match f with
  | Conflicts.Document t => t
  | Conflicts.Missing | Conflicts.Unparseable => TObj []
  end.

(** A document with the key "danizee-suite" taken off, if it is an
    object. *)
Definition without_marker (t : tree) : tree :=
  match t with
  | TObj props => TObj (remove "danizee-suite" props)
  | _ => t
  end.

End Settings.

(** ** [src/installer.js]: the conflict check of [install] *)

Module Installer.
Import Conflicts.

(** The first step of [install], lines 31 to 39: the conflict check and
    the error it raises.  [Some records] is the [Error] whose message
    lists the messages of [records]; [None] is going on to install. *)
Definition install_refused (dir : claude_dir) (force : bool)
    : option (list conflict) :=
  let conflictCheck := runConflictChecks dir {| Conflicts.force := force |} in
  if hasConflicts conflictCheck && negb force then Some (conflicts conflictCheck)
  else None.

End Installer.

(* ================================================================== *)
(** * Part II: properties                                              *)
(* ================================================================== *)

Import Num Similarity EditScript.

Example levenshtein_kitten : levenshteinDistance "kitten" "sitting" = Some 3.
Proof. vm_compute. reflexivity. Qed.

Example similar_plan : areSimilar "plan" "plann" default_threshold = true
  ∧ areSimilar "plan" "review" default_threshold = false
  ∧ areSimilar "PLAN" "plan" default_threshold = true.
Proof. vm_compute. auto. Qed.

(** ** Edit scripts and the recurrence *)

Section EditScripts.
Implicit Types (s t : list ascii) (c d : ascii) (n : nat).

Lemma lev_nil_l t : lev [] t = length t.
Proof. by destruct t. Qed.

Lemma lev_nil_r s : lev s [] = length s.
Proof. by destruct s. Qed.

Lemma lev_cons c s d t :
  lev (c :: s) (d :: t) =
    if decide (c = d) then lev s t
    else (S (lev s t)) `min` ((S (lev (c :: s) t)) `min` (S (lev s (d :: t)))).
Proof. reflexivity. Qed.

Lemma edit_insert_all t : edit [] t (length t).
Proof. induction t; simpl; eauto using edit. Qed.

Lemma edit_delete_all s : edit s [] (length s).
Proof. induction s; simpl; eauto using edit. Qed.

(** The recurrence is the cost of a script. *)
Lemma lev_edit s t : edit s t (lev s t).
Proof.
  revert t. induction s as [|c s IHs]; intros t.
  { rewrite lev_nil_l. apply edit_insert_all. }
  induction t as [|d t IHt].
  { rewrite lev_nil_r. apply edit_delete_all. }
  rewrite lev_cons. case_decide as Hcd.
  - subst d. apply edit_keep, IHs.
  - destruct (Nat.min_spec (S (lev s t))
                (S (lev (c :: s) t) `min` S (lev s (d :: t)))) as [[_ ->]|[_ ->]].
    + apply edit_subst, IHs.
    + destruct (Nat.min_spec (S (lev (c :: s) t)) (S (lev s (d :: t))))
        as [[_ ->]|[_ ->]].
      * apply edit_insert, IHt.
      * apply edit_delete, IHs.
Qed.

(** One more or one less character moves the recurrence by at most one. *)
Lemma lev_step_bounds k s t :
  length s + length t ≤ k →
  (∀ c, lev s t ≤ S (lev s (c :: t))) ∧
  (∀ c, lev s t ≤ S (lev (c :: s) t)) ∧
  (∀ c, lev s (c :: t) ≤ S (lev s t)) ∧
  (∀ c, lev (c :: s) t ≤ S (lev s t)).
Proof.
  revert s t. induction k as [k IH] using lt_wf_ind. intros s t Hk.
  assert (Hsub : ∀ s' t', length s' + length t' < length s + length t →
    (∀ c, lev s' t' ≤ S (lev s' (c :: t'))) ∧
    (∀ c, lev s' t' ≤ S (lev (c :: s') t')) ∧
    (∀ c, lev s' (c :: t') ≤ S (lev s' t')) ∧
    (∀ c, lev (c :: s') t' ≤ S (lev s' t'))).
  { intros s' t' Hlt. apply (IH (length s' + length t')); lia. }
  assert (HU1 : ∀ c, lev s (c :: t) ≤ S (lev s t)).
  { intros c. destruct s as [|x s'].
    - rewrite !lev_nil_l. simpl. lia.
    - rewrite lev_cons. case_decide; [|lia]. subst x.
      destruct (Hsub s' t) as (_ & H2 & _); [simpl; lia|]. apply H2. }
  assert (HU2 : ∀ c, lev (c :: s) t ≤ S (lev s t)).
  { intros c. destruct t as [|d t'].
    - rewrite !lev_nil_r. simpl. lia.
    - rewrite lev_cons. case_decide; [|lia]. subst d.
      destruct (Hsub s t') as (H1 & _); [simpl; lia|]. apply H1. }
  split_and!; [| |exact HU1|exact HU2].
  - intros c. destruct s as [|x s'].
    { rewrite !lev_nil_l. simpl. lia. }
    destruct (Hsub s' t) as (H1 & _ & _ & H4); [simpl; lia|].
    specialize (H4 x). specialize (H1 c).
    rewrite (lev_cons x s' c t). case_decide; lia.
  - intros c. destruct t as [|d t'].
    { rewrite !lev_nil_r. simpl. lia. }
    destruct (Hsub s t') as (_ & H2 & H3 & _); [simpl; lia|].
    specialize (H3 d). specialize (H2 c).
    rewrite (lev_cons c s d t'). case_decide; lia.
Qed.

(** No script is cheaper than the recurrence. *)
Lemma lev_least s t n : edit s t n → lev s t ≤ n.
Proof.
  induction 1 as [|c s t n _ IH|c d s t n _ IH|c s t n _ IH|d s t n _ IH].
  - reflexivity.
  - rewrite lev_cons, decide_True by done. exact IH.
  - rewrite lev_cons. case_decide; lia.
  - destruct (lev_step_bounds _ s t (reflexivity _)) as (_ & _ & _ & H4).
    specialize (H4 c). lia.
  - destruct (lev_step_bounds _ s t (reflexivity _)) as (_ & _ & H3 & _).
    specialize (H3 d). lia.
Qed.

Lemma lev_is_distance s t : is_distance s t (lev s t).
Proof. split; [apply lev_edit|apply lev_least]. Qed.

Lemma is_distance_unique s t (x y : nat) :
  is_distance s t x → is_distance s t y → x = y.
Proof. intros [H1 L1] [H2 L2]. apply Nat.le_antisymm; auto. Qed.

Lemma edit_sym s t n : edit s t n → edit t s n.
Proof. induction 1; eauto using edit. Qed.

Lemma edit_refl s : edit s s 0.
Proof. induction s; eauto using edit. Qed.

Lemma edit_app s1 t1 n1 s2 t2 n2 :
  edit s1 t1 n1 → edit s2 t2 n2 → edit (s1 ++ s2) (t1 ++ t2) (n1 + n2).
Proof. induction 1; intros; simpl; eauto using edit. Qed.

Lemma edit_reverse s t n : edit s t n → edit (reverse s) (reverse t) n.
Proof.
  induction 1 as [|c s t n _ IH|c d s t n _ IH|c s t n _ IH|d s t n _ IH];
    rewrite ?reverse_cons.
  - constructor.
  - replace n with (n + 0) by lia. apply edit_app; eauto using edit.
  - replace (S n) with (n + 1) by lia. apply edit_app; eauto using edit.
  - replace (S n) with (n + 1) by lia. rewrite <-(app_nil_r (reverse t)).
    apply edit_app; eauto using edit.
  - replace (S n) with (n + 1) by lia. rewrite <-(app_nil_r (reverse s)).
    apply edit_app; eauto using edit.
Qed.

Lemma is_distance_sym s t n : is_distance s t n → is_distance t s n.
Proof. intros [H L]. split; [by apply edit_sym|]. intros k Hk. by apply L, edit_sym. Qed.

Lemma is_distance_reverse s t n :
  is_distance (reverse s) (reverse t) n → is_distance s t n.
Proof.
  intros [H L]. split.
  - apply edit_reverse in H. by rewrite !reverse_involutive in H.
  - intros k Hk. by apply L, edit_reverse.
Qed.

End EditScripts.

(** ** The matrix of [levenshteinDistance] *)

Section Matrix.
Context (a b : string).
Local Abbreviation m := (String.length a).
Local Abbreviation n := (String.length b).

Lemma length_chars s : length (chars s) = String.length s.
Proof. induction s; simpl; auto. Qed.

Lemma charAt_chars s i : charAt s i = chars s !! i.
Proof.
  revert i. induction s as [|c s IH]; intros [|i]; simpl; auto.
Qed.

Lemma foldl_seq_steps {A} (f : A → nat → A) (st : nat → A) lo len init :
  init = st lo →
  (∀ i, lo ≤ i < lo + len → f (st i) i = st (S i)) →
  foldl f init (seq lo len) = st (lo + len).
Proof.
  intros ->. revert lo. induction len as [|len IH]; intros lo Hstep; simpl.
  { f_equal. lia. }
  rewrite Hstep by lia. rewrite IH.
  - f_equal. lia.
  - intros i Hi. apply Hstep. lia.
Qed.

Lemma foldl_cons {A B} (f : A → B → A) x y l :
  foldl f x (y :: l) = foldl f (f x y) l.
Proof. reflexivity. Qed.

Lemma entry_0_r i : i ≤ n → entry a b i 0 = i.
Proof.
  intros Hi. unfold entry. rewrite take_0, lev_nil_r.
  rewrite length_reverse, length_take, length_chars. lia.
Qed.

Lemma entry_0_l j : j ≤ m → entry a b 0 j = j.
Proof.
  intros Hj. unfold entry. rewrite take_0, lev_nil_l.
  rewrite length_reverse, length_take, length_chars. lia.
Qed.

Lemma entry_S i j x y :
  chars b !! i = Some x → chars a !! j = Some y →
  entry a b (S i) (S j) =
    if decide (x = y) then entry a b i j
    else (S (entry a b i j)) `min`
           ((S (entry a b (S i) j)) `min` (S (entry a b i (S j)))).
Proof.
  intros Hx Hy. unfold entry.
  rewrite (take_S_r _ _ _ Hx), (take_S_r _ _ _ Hy), !reverse_snoc.
  apply lev_cons.
Qed.

Lemma length_row_upto i w : length (row_upto a b i w) = w.
Proof. unfold row_upto. by rewrite length_fmap, length_seq. Qed.

Lemma lookup_row_upto i w j :
  j < w → row_upto a b i w !! j = Some (Some (entry a b i j)).
Proof.
  intros Hj. unfold row_upto. rewrite list_lookup_fmap, lookup_seq_lt by done.
  reflexivity.
Qed.

Lemma row_upto_S i w :
  row_upto a b i (S w) = row_upto a b i w ++ [Some (entry a b i w)].
Proof. unfold row_upto. by rewrite seq_S, fmap_app. Qed.

Lemma lookup_table i j k :
  k ≤ n →
  table a b i j !! k =
    Some (row_upto a b k (if decide (k < i) then S m
                          else if decide (k = i) then j else 1)).
Proof.
  intros Hk. unfold table. rewrite list_lookup_fmap, lookup_seq_lt by lia.
  reflexivity.
Qed.

Lemma length_table i j : length (table a b i j) = S n.
Proof. unfold table. by rewrite length_fmap, length_seq. Qed.

Lemma cell_table_above i j k c :
  k < i → k ≤ n → c ≤ m → cell (table a b i j) k c = Some (entry a b k c).
Proof.
  intros Hki Hk Hc. unfold cell. rewrite lookup_table by done. simpl.
  rewrite decide_True by done. rewrite lookup_row_upto by lia. reflexivity.
Qed.

Lemma cell_table_current i j c :
  i ≤ n → c < j → cell (table a b i j) i c = Some (entry a b i c).
Proof.
  intros Hi Hc. unfold cell. rewrite lookup_table by done. simpl.
  rewrite decide_False by lia. rewrite decide_True by done.
  rewrite lookup_row_upto by lia. reflexivity.
Qed.

(** Writing the next entry of the current row. *)
Lemma set_cell_table i j :
  i ≤ n → set_cell i j (Some (entry a b i j)) (table a b i j) = table a b i (S j).
Proof.
  intros Hi. apply list_eq. intros k. unfold set_cell.
  destruct (decide (n < k)) as [Hk|Hk].
  { rewrite !lookup_ge_None_2; auto;
      rewrite ?length_alter, length_table; lia. }
  destruct (decide (k = i)) as [->|Hne].
  - rewrite list_lookup_alter_eq, !lookup_table by lia. simpl.
    repeat case_decide; try lia.
    unfold array_set. rewrite length_row_upto, decide_False by lia.
    rewrite Nat.sub_diag. simpl. by rewrite row_upto_S.
  - rewrite list_lookup_alter_ne, !lookup_table by (done || lia).
    repeat case_decide; done || lia.
Qed.

(** An entry that is already there is overwritten by itself. *)
Lemma set_cell_table_again i j c :
  i ≤ n → c < j →
  set_cell i c (Some (entry a b i c)) (table a b i j) = table a b i j.
Proof.
  intros Hi Hc. apply list_eq. intros k. unfold set_cell.
  destruct (decide (k = i)) as [->|Hne].
  - rewrite list_lookup_alter_eq, !lookup_table by lia. simpl.
    repeat case_decide; try lia.
    unfold array_set. rewrite length_row_upto, decide_True by lia.
    f_equal. apply list_insert_id. by apply lookup_row_upto.
  - by rewrite list_lookup_alter_ne.
Qed.

Lemma table_next_row i : table a b i (S m) = table a b (S i) 1.
Proof.
  unfold table. apply list_fmap_ext. intros _ k _.
  repeat case_decide; done || lia.
Qed.

Lemma init_rows_table : init_rows b = table a b 0 1.
Proof.
  unfold init_rows.
  rewrite (foldl_seq_steps _ (λ i, (λ k, [Some k]) <$> seq 0 i) 0 (S n));
    [|done|].
  2:{ intros i _. unfold array_set.
      rewrite length_fmap, length_seq, decide_False by lia.
      by rewrite Nat.sub_diag, seq_S, fmap_app. }
  - unfold table. apply list_fmap_ext. intros i k [-> Hi]%lookup_seq.
    repeat case_decide; try lia; unfold row_upto; simpl;
      by rewrite entry_0_r by lia.
Qed.

Lemma init_first_row_table : init_first_row a (table a b 0 1) = table a b 1 1.
Proof.
  unfold init_first_row.
  change (seq 0 (S m)) with (0 :: seq 1 m). rewrite foldl_cons.
  pose proof (set_cell_table_again 0 1 0) as H0.
  rewrite entry_0_l in H0 by lia. rewrite H0 by lia. clear H0.
  rewrite (foldl_seq_steps _ (λ j, table a b 0 j) 1 m); [|done|].
  - apply table_next_row.
  - intros j Hj. pose proof (set_cell_table 0 j) as Hj'.
    rewrite entry_0_l in Hj' by lia. apply Hj'. lia.
Qed.

Lemma fill_cell_table i j :
  1 ≤ i ≤ n → 1 ≤ j ≤ m →
  fill_cell a b i j (table a b i j) = table a b i (S j).
Proof.
  intros Hi Hj. destruct i as [|i]; [lia|]. destruct j as [|j]; [lia|].
  destruct (lookup_lt_is_Some_2 (chars b) i) as [x Hx];
    [rewrite length_chars; lia|].
  destruct (lookup_lt_is_Some_2 (chars a) j) as [y Hy];
    [rewrite length_chars; lia|].
  unfold fill_cell.
  replace (S i - 1) with i by lia. replace (S j - 1) with j by lia.
  rewrite !charAt_chars, Hx, Hy.
  rewrite (cell_table_above (S i) (S j) i j) by lia.
  rewrite (cell_table_above (S i) (S j) i (S j)) by lia.
  rewrite (cell_table_current (S i) (S j) j) by lia.
  rewrite <-(set_cell_table (S i) (S j)) by lia.
  rewrite (entry_S i j x y) by done.
  unfold min3. cbn [fmap option_fmap option_map mbind option_bind].
  repeat case_decide; simplify_eq; done.
Qed.

Lemma fill_table : fill a b (table a b 1 1) = table a b (S n) 1.
Proof.
  unfold fill. rewrite (foldl_seq_steps _ (λ i, table a b i 1) 1 n); [done..|].
  intros i Hi.
  rewrite (foldl_seq_steps _ (λ j, table a b i j) 1 m); [|done|].
  - apply table_next_row.
  - intros j Hj. apply fill_cell_table; lia.
Qed.

(** The matrix ends up holding the recurrence, and the returned entry is
    the one that relates the two whole strings. *)
Lemma levenshteinDistance_lev :
  levenshteinDistance a b = Some (lev (reverse (chars b)) (reverse (chars a))).
Proof.
  unfold levenshteinDistance.
  rewrite init_rows_table, init_first_row_table, fill_table.
  rewrite cell_table_above by lia. unfold entry.
  by rewrite !take_ge by (rewrite length_chars; lia).
Qed.

End Matrix.

(** ** [levenshteinDistance] is the Levenshtein distance *)

Lemma levenshteinDistance_spec a b d :
  is_distance (chars a) (chars b) d → levenshteinDistance a b = Some d.
Proof.
  intros Hd. rewrite levenshteinDistance_lev. f_equal.
  apply (is_distance_unique (chars a) (chars b)); [|done].
  apply is_distance_sym, is_distance_reverse, lev_is_distance.
Qed.

(** C5: [levenshteinDistance a b] is the cost of a cheapest script of
    single-character insertions, deletions and substitutions that turns [a]
    into [b] (a natural number); it is 0 on equal strings, symmetric, the
    length of [s] against the empty string, and 3 on "kitten" / "sitting". *)
Theorem levenshteinDistance_classic :
  (∀ a b, ∃ d, levenshteinDistance a b = Some d ∧ is_distance (chars a) (chars b) d)
  ∧ (∀ a, levenshteinDistance a a = Some 0)
  ∧ (∀ a b, levenshteinDistance a b = levenshteinDistance b a)
  ∧ (∀ s, levenshteinDistance "" s = Some (String.length s))
  ∧ levenshteinDistance "" "abc" = Some 3
  ∧ levenshteinDistance "abc" "abcd" = Some 1
  ∧ levenshteinDistance "kitten" "sitting" = Some 3.
Proof.
  assert (Hex : ∀ a b, ∃ d,
    levenshteinDistance a b = Some d ∧ is_distance (chars a) (chars b) d).
  { intros a b. exists (lev (chars a) (chars b)).
    split; [apply levenshteinDistance_spec|]; apply lev_is_distance. }
  split_and!; [exact Hex | | | | by vm_compute..].
  - intros a. apply levenshteinDistance_spec. split; [apply edit_refl|lia].
  - intros a b. destruct (Hex a b) as (d & -> & Hd). symmetry.
    by apply levenshteinDistance_spec, is_distance_sym.
  - intros s. apply levenshteinDistance_spec. simpl. rewrite <-length_chars.
    split; [apply edit_insert_all|]. intros n Hn.
    apply lev_least in Hn. by rewrite lev_nil_l in Hn.
Qed.

(** ** [areSimilar] *)

(** C1 (the code on the input of the claim): on two empty strings the
    ratio is 0/0, which is NaN, and [NaN <= threshold] is false whatever
    the threshold. *)
Theorem areSimilar_empty_is_false : ∀ threshold, areSimilar "" "" threshold = false.
Proof. intros threshold. reflexivity. Qed.

(** Away from that input, equal strings are similar at every threshold
    that is not negative. *)
Lemma areSimilar_refl s q :
  s ≠ EmptyString → (0 <= q)%Q → areSimilar s s (Fin q) = true.
Proof.
  intros Hs Hq. unfold areSimilar.
  rewrite (levenshteinDistance_spec _ _ 0) by (split; [apply edit_refl|lia]).
  destruct s as [|c s]; [done|]. simpl.
  apply Qle_bool_iff. unfold Qle in *. simpl in *. lia.
Qed.

(** ** Blocks: what a loop pushes *)

Import Json Conflicts.

Section Blocks.

Lemma pushes_only_mono {A} (P Q : conflict → Prop) (m : block A) :
  (∀ r, P r → Q r) → pushes_only P m → pushes_only Q m.
Proof.
  intros HPQ Hm c. destruct (Hm c) as (new & -> & Hnew).
  exists new. split; [done|]. eapply Forall_impl; eauto.
Qed.

Lemma pushes_only_ret {A} P (x : A) : pushes_only P (ret x).
Proof. intros c. exists []. by rewrite app_nil_r. Qed.

Lemma pushes_only_throw {A} P : pushes_only P (@throw A).
Proof. intros c. exists []. by rewrite app_nil_r. Qed.

Lemma pushes_only_push (P : conflict → Prop) r : P r → pushes_only P (push r).
Proof. intros Hr c. exists [r]. split; [done|]. by constructor. Qed.

Lemma pushes_only_bind {A B} P (m : block A) (f : A → block B) :
  pushes_only P m → (∀ x, pushes_only P (f x)) → pushes_only P (bind m f).
Proof.
  intros Hm Hf c. unfold bind. destruct (Hm c) as (new & Hc & Hnew).
  destruct (m c) as [[x|] c']; simpl in *; subst c'.
  - destruct (Hf x (c ++ new)) as (new' & -> & Hnew').
    exists (new ++ new'). rewrite app_assoc. split; [done|].
    by apply Forall_app.
  - by exists new.
Qed.

Lemma pushes_only_bind_ret {A B} P (x : A) (f : A → block B) :
  pushes_only P (f x) → pushes_only P (bind (ret x) f).
Proof. intros Hf c. apply Hf. Qed.

Lemma pushes_only_defined {A} P (v : option A) : pushes_only P (defined v).
Proof. destruct v; [apply pushes_only_ret|apply pushes_only_throw]. Qed.

Lemma pushes_only_member P t key : pushes_only P (member t key).
Proof. destruct t; first [apply pushes_only_ret|apply pushes_only_throw]. Qed.

Lemma pushes_only_read_json P f : pushes_only P (read_json f).
Proof. destruct f; first [apply pushes_only_ret|apply pushes_only_throw]. Qed.

Lemma pushes_only_for_of {A} (P : A → conflict → Prop) xs (body : A → block unit) :
  (∀ x, x ∈ xs → pushes_only (P x) (body x)) →
  pushes_only (λ r, ∃ x, x ∈ xs ∧ P x r) (for_of xs body).
Proof.
  induction xs as [|x xs IH]; intros Hbody; simpl.
  { apply pushes_only_ret. }
  apply pushes_only_bind.
  - eapply pushes_only_mono; [|apply Hbody; left].
    intros r Hr. exists x. split; [left|done].
  - intros _. eapply pushes_only_mono; [|apply IH].
    + intros r (y & Hy & Hr). exists y. split; [by right|done].
    + intros y Hy. apply Hbody. by right.
Qed.

Lemma pushes_only_for_of_each {A} P xs (body : A → block unit) :
  (∀ x, pushes_only P (body x)) → pushes_only P (for_of xs body).
Proof.
  intros Hbody. eapply pushes_only_mono;
    [|apply (pushes_only_for_of (λ _, P)); intros; apply Hbody].
  by intros r (_ & _ & Hr).
Qed.

Lemma pushes_only_caught P (m : block unit) :
  pushes_only P m → Forall P (caught m).
Proof. intros Hm. unfold caught. by destruct (Hm []) as (new & -> & Hnew). Qed.

(** A loop whose every round runs to its end and pushes [g x]. *)
Lemma for_of_collect {A} (xs : list A) (body : A → block unit)
    (g : A → list conflict) :
  (∀ x c, x ∈ xs → body x c = (Some tt, c ++ g x)) →
  ∀ c, for_of xs body c = (Some tt, c ++ (xs ≫= g)).
Proof.
  induction xs as [|x xs IH]; intros Hbody c; simpl.
  { by rewrite app_nil_r. }
  unfold bind. rewrite Hbody by left. rewrite IH.
  - by rewrite app_assoc.
  - intros y c' Hy. apply Hbody. by right.
Qed.

End Blocks.

(** ** The scan of one directory *)

Section Scan.

Lemma elem_of_index_pairs n i j : (i, j) ∈ index_pairs n ↔ i < j < n.
Proof.
  unfold index_pairs. rewrite list_elem_of_bind. split.
  - intros (i' & Hj & Hi). apply list_elem_of_fmap in Hj as (j' & [= -> ->] & Hj).
    apply elem_of_seq in Hi, Hj. lia.
  - intros Hij. exists i. split.
    + apply list_elem_of_fmap. exists j. split; [done|]. apply elem_of_seq. lia.
    + apply elem_of_seq. lia.
Qed.

Lemma row_sorted i lo len :
  StronglySorted lex_lt ((λ j, (i, j)) <$> seq lo len).
Proof.
  revert lo. induction len as [|len IH]; intros lo; simpl; constructor.
  - apply IH.
  - apply Forall_forall. intros [i' j'] (j & [= -> ->] & Hj)%list_elem_of_fmap.
    apply elem_of_seq in Hj. right. simpl. lia.
Qed.

Lemma rows_sorted n lo len :
  StronglySorted lex_lt
    (seq lo len ≫= λ i, (λ j, (i, j)) <$> seq (i + 1) (n - (i + 1))).
Proof.
  revert lo. induction len as [|len IH]; intros lo.
  { constructor. }
  rewrite <-cons_seq, bind_cons.
  apply StronglySorted_app_2; [|apply row_sorted|apply IH].
  intros [i1 j1] [i2 j2] (j & [= -> ->] & _)%list_elem_of_fmap
    (i & (j' & [= -> ->] & _)%list_elem_of_fmap & Hi%elem_of_seq)%list_elem_of_bind.
  left. simpl. lia.
Qed.

Lemma index_pairs_sorted n : StronglySorted lex_lt (index_pairs n).
Proof. apply rows_sorted. Qed.

Lemma scan_directory_spec subdir files c :
  scan_directory subdir files c =
    (Some tt, c ++ (index_pairs (length files) ≫= flagged subdir files)).
Proof.
  unfold scan_directory, index_pairs.
  rewrite (for_of_collect _ _
    (λ i, seq (i + 1) (length files - (i + 1)) ≫= λ j, flagged subdir files (i, j))).
  - f_equal. f_equal. induction (seq 0 (length files)) as [|i l IH]; [done|].
    rewrite !bind_cons, bind_app, IH. f_equal. by rewrite list_fmap_bind.
  - intros i c' Hi%elem_of_seq.
    apply for_of_collect. intros j c'' Hj%elem_of_seq.
    destruct (lookup_lt_is_Some_2 files i) as [fi Hfi]; [lia|].
    destruct (lookup_lt_is_Some_2 files j) as [fj Hfj]; [lia|].
    unfold flagged, bind. simpl. rewrite Hfi, Hfj. simpl.
    destruct (areSimilar _ _ _); simpl; [done|]. by rewrite app_nil_r.
Qed.

End Scan.

(** C7: the two loops test the pairs of positions [(i, j)] with [i < j],
    each of them, outer position ascending and inner position ascending
    within it, and push the flagged ones in that order; on "plan", "plann",
    "review" the only record is the one for "plan" and "plann". *)
Theorem scan_directory_all_pairs :
  (∀ subdir files c,
     scan_directory subdir files c =
       (Some tt, c ++ (index_pairs (length files) ≫= flagged subdir files)))
  ∧ (∀ n i j, (i, j) ∈ index_pairs n ↔ i < j < n)
  ∧ (∀ n, StronglySorted lex_lt (index_pairs n))
  ∧ (∀ subdir,
       caught (scan_directory subdir ["plan"; "plann"; "review"]) =
         [similar_commands subdir ("plan", "plann") ("plan", "plann")]).
Proof.
  split_and!.
  - apply scan_directory_spec.
  - apply elem_of_index_pairs.
  - apply index_pairs_sorted.
  - intros subdir. unfold caught. rewrite scan_directory_spec. by vm_compute.
Qed.

(** ** [detectDuplicateCommands] *)

Section DuplicateCommands.

Lemma remove_first_absent pattern name :
  occurs pattern name = false → remove_first pattern name = name.
Proof.
  induction name as [|c name IH]; simpl.
  - intros [-> _]%orb_false_elim. done.
  - intros [-> Hname]%orb_false_elim. by rewrite IH.
Qed.

Lemma starts_with_md_app c rest :
  starts_with ".md" (String c rest) = false →
  starts_with ".md" (String c (rest ++ ".md")) = false.
Proof.
  simpl. case_bool_decide; [|done]. simpl.
  destruct rest as [|c1 rest]; simpl; [done|].
  case_bool_decide; [|done]. simpl.
  destruct rest as [|c2 rest]; simpl; [done|].
  by case_bool_decide.
Qed.

Lemma remove_first_md_suffix base :
  occurs ".md" base = false → remove_first ".md" (base ++ ".md") = base.
Proof.
  induction base as [|c base IH]; [done|].
  cbn [occurs]. intros [Hpre Hbase]%orb_false_elim.
  change (String c base ++ ".md")%string with (String c (base ++ ".md")).
  cbn [remove_first]. rewrite (starts_with_md_app _ _ Hpre). by rewrite IH.
Qed.

Lemma flagged_inv subdir files p r :
  r ∈ flagged subdir files p →
  ∃ fi fj, files !! p.1 = Some fi ∧ files !! p.2 = Some fj ∧
    areSimilar (remove_first ".md" fi) (remove_first ".md" fj) default_threshold = true ∧
    r = similar_commands subdir (fi, fj)
          (remove_first ".md" fi, remove_first ".md" fj).
Proof.
  unfold flagged. destruct (files !! p.1) as [fi|]; [|by inv 1].
  destruct (files !! p.2) as [fj|]; [|by inv 1].
  destruct (areSimilar _ _ _) eqn:Hsim; [|by inv 1].
  intros ->%list_elem_of_singleton. by exists fi, fj.
Qed.

Lemma detectDuplicateCommands_from_directory dir :
  Forall (from_directory dir) (detectDuplicateCommands dir).
Proof.
  apply pushes_only_caught. destruct (commands dir) as [subdirs|] eqn:Hdir;
    simpl; [|apply pushes_only_throw].
  apply pushes_only_bind_ret.
  eapply pushes_only_mono; [|apply (pushes_only_for_of
    (λ x r, ∃ files i j fi fj, x.2 = Directory files ∧
       i < j ∧ files !! i = Some fi ∧ files !! j = Some fj ∧
       areSimilar (remove_first ".md" fi) (remove_first ".md" fj)
         default_threshold = true ∧
       r = similar_commands x.1 (fi, fj)
             (remove_first ".md" fi, remove_first ".md" fj)))].
  - intros r ([subdir e] & Hin & files & i & j & fi & fj & He & Hr). simpl in *.
    subst e. by exists subdirs, subdir, files, i, j, fi, fj.
  - intros [subdir [|files|]] _; [apply pushes_only_ret| |apply pushes_only_throw].
    intros c. rewrite scan_directory_spec. eexists. split; [done|].
    apply Forall_forall. intros r ([i j] & Hr & Hij)%list_elem_of_bind.
    apply elem_of_index_pairs in Hij.
    apply flagged_inv in Hr as (fi & fj & Hfi & Hfj & Hsim & ->).
    exists files, i, j, fi, fj. split_and!; done || lia.
Qed.

(** With every entry readable, the detector returns what the directories
    contribute, one after the other. *)
Lemma detectDuplicateCommands_scanned dir subdirs :
  commands dir = Some subdirs → Forall (λ p, p.2 ≠ Failing) subdirs →
  detectDuplicateCommands dir = subdirs ≫= scanned.
Proof.
  intros Hdir Hread. unfold detectDuplicateCommands, caught. rewrite Hdir.
  simpl. unfold bind at 1. cbn [ret].
  rewrite (for_of_collect _ _ scanned); [done|].
  intros [subdir e] c Hin. unfold scanned. simpl.
  pose proof (proj1 (Forall_forall _ _) Hread _ Hin) as He. simpl in He.
  destruct e as [|files|]; [by rewrite app_nil_r| |done].
  apply scan_directory_spec.
Qed.

(** The records of one directory: one for each pair of positions whose
    names, with ".md" removed, are similar. *)
Lemma elem_of_scanned subdir e r :
  r ∈ scanned (subdir, e) ↔
    ∃ files i j fi fj, e = Directory files ∧
      i < j ∧ files !! i = Some fi ∧ files !! j = Some fj ∧
      areSimilar (remove_first ".md" fi) (remove_first ".md" fj)
        default_threshold = true ∧
      r = similar_commands subdir (fi, fj)
            (remove_first ".md" fi, remove_first ".md" fj).
Proof.
  unfold scanned. simpl. split.
  - destruct e as [|files|]; [by intros ?%not_elem_of_nil| |by intros ?%not_elem_of_nil].
    intros ([i j] & Hr & Hij)%list_elem_of_bind.
    apply elem_of_index_pairs in Hij.
    apply flagged_inv in Hr as (fi & fj & Hfi & Hfj & Hsim & ->).
    exists files, i, j, fi, fj. split_and!; done || lia.
  - intros (files & i & j & fi & fj & -> & Hij & Hfi & Hfj & Hsim & ->).
    apply list_elem_of_bind. exists (i, j). split.
    + unfold flagged. simpl. rewrite Hfi, Hfj, Hsim. by apply list_elem_of_singleton.
    + apply elem_of_index_pairs. split; [done|]. by eapply lookup_lt_Some.
Qed.

End DuplicateCommands.

(** C9, as the code has it: the name that is compared is the file name with
    ".md" removed.  A name that ends in ".md" and has no other ".md" in it
    is compared without that ending, a name with no ".md" in it is compared
    as it stands, whatever other extension it has.  So two files [a.md] and
    [b.md] give a record exactly when [a] and [b] are similar, and, when
    every entry of the commands directory can be read, the records are
    exactly those of the pairs of files of a directory whose names are
    similar once ".md" is removed; every record carries the name of the
    directory and the two file names as listed. *)
Theorem detectDuplicateCommands_strips_md :
  (∀ base, occurs ".md" base = false → remove_first ".md" (base ++ ".md") = base)
  ∧ (∀ name, occurs ".md" name = false → remove_first ".md" name = name)
  ∧ (∀ dir subdir a b,
       commands dir = Some [(subdir, Directory [a ++ ".md"; b ++ ".md"])]%string →
       occurs ".md" a = false → occurs ".md" b = false →
       detectDuplicateCommands dir =
         if areSimilar a b default_threshold
         then [similar_commands subdir ((a ++ ".md")%string, (b ++ ".md")%string) (a, b)]
         else [])
  ∧ (∀ dir subdirs r,
       commands dir = Some subdirs → Forall (λ p, p.2 ≠ Failing) subdirs →
       r ∈ detectDuplicateCommands dir ↔
       ∃ subdir files i j fi fj,
         (subdir, Directory files) ∈ subdirs ∧
         i < j ∧ files !! i = Some fi ∧ files !! j = Some fj ∧
         areSimilar (remove_first ".md" fi) (remove_first ".md" fj)
           default_threshold = true ∧
         r = similar_commands subdir (fi, fj)
               (remove_first ".md" fi, remove_first ".md" fj))
  ∧ (∀ dir r, r ∈ detectDuplicateCommands dir →
       ∃ subdirs subdir files i j fi fj,
         commands dir = Some subdirs ∧ (subdir, Directory files) ∈ subdirs ∧
         i < j ∧ files !! i = Some fi ∧ files !! j = Some fj ∧
         areSimilar (remove_first ".md" fi) (remove_first ".md" fj)
           default_threshold = true ∧
         r = similar_commands subdir (fi, fj)
               (remove_first ".md" fi, remove_first ".md" fj)).
Proof.
  split_and!.
  - apply remove_first_md_suffix.
  - apply remove_first_absent.
  - intros dir subdir a b Hdir Ha Hb.
    rewrite (detectDuplicateCommands_scanned dir _ Hdir)
      by (repeat constructor; done).
    rewrite bind_cons. cbn [mbind list_bind]. rewrite app_nil_r.
    unfold scanned, index_pairs. simpl.
    unfold flagged. simpl.
    rewrite !remove_first_md_suffix by done.
    by destruct (areSimilar a b default_threshold).
  - intros dir subdirs r Hdir Hread.
    rewrite (detectDuplicateCommands_scanned dir subdirs Hdir Hread).
    rewrite list_elem_of_bind. split.
    + intros ([subdir e] & (files & i & j & fi & fj & -> & Hr)%elem_of_scanned & Hin).
      by exists subdir, files, i, j, fi, fj.
    + intros (subdir & files & i & j & fi & fj & Hin & Hr).
      exists (subdir, Directory files). split; [|done].
      apply elem_of_scanned. by exists files, i, j, fi, fj.
  - intros dir r Hr.
    by apply (proj1 (Forall_forall _ _) (detectDuplicateCommands_from_directory dir)).
Qed.

Lemma detectDuplicateCommands_strips_md_witness :
  remove_first ".md" "plan.md" = "plan" ∧ remove_first ".md" "plan.txt" = "plan.txt"
  ∧ detectDuplicateCommands
      {| commands := Some [("workflows", Directory ["plan.md"; "plann.md"])];
         settings_json := Missing; settings_local_json := Missing |}
    = [similar_commands "workflows" ("plan.md", "plann.md") ("plan", "plann")]
  ∧ detectDuplicateCommands
      {| commands := Some [("workflows", Directory ["plan.md"; "review.md"])];
         settings_json := Missing; settings_local_json := Missing |}
    = []
  ∧ similar_commands "analysis" ("coordination.md", "coordination.txt")
      ("coordination", "coordination.txt")
    ∈ detectDuplicateCommands
        {| commands := Some [("notes.txt", NotDirectory);
                             ("analysis", Directory ["coordination.md"; "coordination.txt"])];
           settings_json := Missing; settings_local_json := Missing |}.
Proof.
  split_and!.
  - apply (proj1 detectDuplicateCommands_strips_md "plan"). reflexivity.
  - apply (proj1 (proj2 detectDuplicateCommands_strips_md) "plan.txt"). reflexivity.
  - apply (proj1 (proj2 (proj2 detectDuplicateCommands_strips_md))
             _ "workflows" "plan" "plann"); reflexivity.
  - apply (proj1 (proj2 (proj2 detectDuplicateCommands_strips_md))
             _ "workflows" "plan" "review"); reflexivity.
  - apply (proj1 (proj2 (proj2 (proj2 detectDuplicateCommands_strips_md)))
             _ [("notes.txt", NotDirectory);
                ("analysis", Directory ["coordination.md"; "coordination.txt"])]);
      [reflexivity|repeat constructor; done|].
    exists "analysis", ["coordination.md"; "coordination.txt"], 0, 1,
      "coordination.md", "coordination.txt".
    split_and!; [|lia|reflexivity|reflexivity|by vm_compute|reflexivity].
    apply list_elem_of_further, list_elem_of_here.
Defined.

(** C9, as the claim has it, fails: two files that differ in their
    extension only have the same base name, which is similar to itself, and
    yet the directory yields no record, since the names are compared with
    their extensions on. *)
Lemma detectDuplicateCommands_keeps_other_extensions :
  strip_extension "ab.x1" = "ab" ∧ strip_extension "ab.y2" = "ab"
  ∧ areSimilar (strip_extension "ab.x1") (strip_extension "ab.y2") default_threshold = true
  ∧ detectDuplicateCommands
      {| commands := Some [("workflows", Directory ["ab.x1"; "ab.y2"])];
         settings_json := Missing; settings_local_json := Missing |} = [].
Proof. by vm_compute. Qed.

(** ** [detectSettingsConflicts] *)

(** C2 (the code on the input of the claim): the key "x" is in both
    [plugins] objects, the local value is [false], and no record comes out;
    with a local value that is truthy the record is there. *)
Theorem detectSettingsConflicts_falsy_local_value :
  detectSettingsConflicts
    {| commands := None;
       settings_json := Document (TObj [("plugins", TObj [("x", TBool true)])]);
       settings_local_json := Document (TObj [("plugins", TObj [("x", TBool false)])]) |}
    = []
  ∧ detectSettingsConflicts
      {| commands := None;
         settings_json := Document (TObj [("plugins", TObj [("x", TBool false)])]);
         settings_local_json := Document (TObj [("plugins", TObj [("x", TBool true)])]) |}
    = [plugin_override "x"].
Proof. by vm_compute. Qed.

(** ** [runConflictChecks] *)

Section Report.

Ltac pushes :=
  repeat first
    [ apply pushes_only_ret | apply pushes_only_throw
    | apply pushes_only_member | apply pushes_only_read_json
    | apply pushes_only_defined
    | apply pushes_only_push; by eauto
    | apply pushes_only_bind; [|intros ?]
    | apply pushes_only_for_of_each; intros ?
    | case_match ].

Lemma overrides_records section record settings localSettings :
  pushes_only (λ r, ∃ key, r = record key)
    (overrides section record settings localSettings).
Proof. unfold overrides. pushes. Qed.

Lemma detectSettingsConflicts_types dir :
  Forall (λ r, type r = "plugin_override" ∨ type r = "mcp_server_override")
    (detectSettingsConflicts dir).
Proof.
  apply pushes_only_caught. pushes;
    (eapply pushes_only_mono; [|apply overrides_records]);
    intros r [key ->]; auto.
Qed.

Lemma detectMcpConflicts_types dir :
  Forall (λ r, type r = "duplicate_mcp") (detectMcpConflicts dir).
Proof. apply pushes_only_caught. pushes. Qed.

Lemma detectDuplicateCommands_types dir :
  Forall (λ r, type r = "similar_commands") (detectDuplicateCommands dir).
Proof.
  eapply Forall_impl; [apply detectDuplicateCommands_from_directory|].
  by intros r (? & ? & ? & ? & ? & ? & ? & _ & _ & _ & _ & _ & _ & ->).
Qed.

Lemma filter_none {A} (P : A → Prop) `{∀ x, Decision (P x)} l :
  Forall (λ x, ¬ P x) l → filter P l = [].
Proof.
  induction 1 as [|x l Hx _ IH]; [done|].
  by rewrite filter_cons_False.
Qed.

End Report.

(** C6: the report lists the records of [detectDuplicateCommands], then
    those of [detectSettingsConflicts], then those of [detectMcpConflicts],
    and after them one [existing_installation] record exactly when an
    installation is detected and [force] is off (the three detectors never
    produce a record of that type); [hasConflicts] says whether the list is
    non-empty. *)
Theorem runConflictChecks_report dir opts :
  conflicts (runConflictChecks dir opts) =
    detectDuplicateCommands dir ++ detectSettingsConflicts dir ++
    detectMcpConflicts dir ++
    (if installed (detectExistingInstallation dir) && negb (force opts)
     then [existing_installation (version (detectExistingInstallation dir))]
     else [])
  ∧ length (filter (λ r, type r = "existing_installation")
              (conflicts (runConflictChecks dir opts))) =
      (if installed (detectExistingInstallation dir) && negb (force opts)
       then 1 else 0)
  ∧ (hasConflicts (runConflictChecks dir opts) = true ↔
       conflicts (runConflictChecks dir opts) ≠ [])
  ∧ existing (runConflictChecks dir opts) = detectExistingInstallation dir.
Proof.
  assert (Hlist : conflicts (runConflictChecks dir opts) =
    detectDuplicateCommands dir ++ detectSettingsConflicts dir ++
    detectMcpConflicts dir ++
    (if installed (detectExistingInstallation dir) && negb (force opts)
     then [existing_installation (version (detectExistingInstallation dir))]
     else [])).
  { unfold runConflictChecks. simpl.
    destruct (installed _ && negb _); simpl; [|by rewrite app_nil_r].
    by rewrite <-!app_assoc. }
  split_and!; [done| | |done].
  - rewrite Hlist, !filter_app.
    rewrite (filter_none _ (detectDuplicateCommands dir)), 
      (filter_none _ (detectSettingsConflicts dir)),
      (filter_none _ (detectMcpConflicts dir)).
    + by destruct (installed _ && negb _).
    + eapply Forall_impl; [apply detectMcpConflicts_types|].
      intros r Hr. by rewrite Hr.
    + eapply Forall_impl; [apply detectSettingsConflicts_types|].
      intros r [Hr|Hr]; by rewrite Hr.
    + eapply Forall_impl; [apply detectDuplicateCommands_types|].
      intros r Hr. by rewrite Hr.
  - unfold runConflictChecks. simpl. rewrite bool_decide_eq_true.
    destruct (installed _ && negb _);
      (split; [intros Hlen Hnil; rewrite Hnil in Hlen; simpl in Hlen; lia|]);
      intros Hne; match goal with |- 0 < length ?l => destruct l; [done|simpl; lia] end.
Qed.

(** The two examples of the specification: a marker key and no [force]
    gives the record, last; [force] gives none; nothing at all gives an
    empty report. *)
Example runConflictChecks_marker :
  conflicts (runConflictChecks
    {| commands := None;
       settings_json :=
         Document (TObj [("danizee-suite", TObj [("version", TStr "1.0.0")])]);
       settings_local_json := Missing |} {| force := false |})
    = [existing_installation (Some (TStr "1.0.0"))]
  ∧ conflicts (runConflictChecks
    {| commands := None;
       settings_json :=
         Document (TObj [("danizee-suite", TObj [("version", TStr "1.0.0")])]);
       settings_local_json := Missing |} {| force := true |}) = []
  ∧ runConflictChecks
      {| commands := None; settings_json := Missing; settings_local_json := Missing |}
      {| force := false |}
    = {| hasConflicts := false; conflicts := []; existing := not_installed |}.
Proof. by vm_compute. Qed.

(** ** Property lists *)

Section PropertyLists.
Context {A : Type}.
Implicit Types (props : list (string * A)) (key k : string).

Lemma assoc_put key k (v : A) props :
  assoc k (put key v props) = if decide (key = k) then Some v else assoc k props.
Proof.
  induction props as [|[k' x] props IH]; simpl.
  - repeat case_decide; congruence.
  - repeat (case_decide; simpl); congruence.
Qed.

Lemma assoc_None k props : assoc k props = None ↔ k ∉ props.*1.
Proof.
  induction props as [|[k' x] props IH]; simpl.
  - split; [intros _; apply not_elem_of_nil|done].
  - rewrite not_elem_of_cons. case_decide as Hk.
    + split; [done|]. intros [Hne _]. by destruct Hne.
    + rewrite IH. split; [intros ?; split; [congruence|done]|by intros [_ ?]].
Qed.

Lemma assoc_Some_elem k props (v : A) : assoc k props = Some v → (k, v) ∈ props.
Proof.
  induction props as [|[k' x] props IH]; simpl; [done|].
  case_decide; [intros [= ->]; subst; left|right; auto].
Qed.

Lemma assoc_unique k props (v : A) :
  NoDup props.*1 → (k, v) ∈ props → assoc k props = Some v.
Proof.
  induction props as [|[k' x] props IH]; simpl; [by inv 2|].
  intros [Hk' Hnd]%NoDup_cons [[= -> ->]|Hin]%elem_of_cons.
  - by rewrite decide_True.
  - rewrite decide_False; [auto|]. intros ->. apply Hk'.
    by apply (list_elem_of_fmap_2 fst) in Hin.
Qed.

Lemma assoc_remove key k props :
  assoc k (remove key props) = if decide (key = k) then None else assoc k props.
Proof.
  unfold remove. induction props as [|[k' x] props IH]; simpl.
  - by case_decide.
  - rewrite filter_cons. simpl. repeat (case_decide; simpl); try congruence.
Qed.


End PropertyLists.

(** Induction on documents, members included. *)
Section TreeInduction.
Context (Q : tree → Prop).
Context (HNull : Q TNull) (HBool : ∀ b, Q (TBool b)) (HNum : ∀ q, Q (TNum q))
        (HStr : ∀ s, Q (TStr s))
        (HArr : ∀ items, Forall Q items → Q (TArr items))
        (HObj : ∀ props, Forall (λ p, Q p.2) props → Q (TObj props)).

Fixpoint tree_members_ind (t : tree) : Q t :=
  match t with
  | TNull => HNull
  | TBool b => HBool b
  | TNum q => HNum q
  | TStr s => HStr s
  | TArr items =>
      HArr items
        ((fix all (items : list tree) : Forall Q items :=
            match items with
            | [] => Forall_nil_2 Q
            | x :: items => Forall_cons_2 Q x items (tree_members_ind x) (all items)
            end) items)
  | TObj props =>
      HObj props
        ((fix all (props : list (string * tree)) : Forall (λ p, Q p.2) props :=
            match props with
            | [] => Forall_nil_2 _
            | p :: props =>
                Forall_cons_2 (λ p, Q p.2) p props (tree_members_ind p.2) (all props)
            end) props)
  end.

End TreeInduction.

(** ** Documents in the heap *)

Import Settings.

Section Representation.
Implicit Types (P Q : nat → Prop) (h : heap) (t : tree) (v : value).

Lemma repr_obj P h props v :
  repr P h (TObj props) v ↔
    ∃ l vps, v = VRef l ∧ P l ∧ h !! l = Some (CObj vps) ∧
      Forall2 (same_entry (repr P h)) props vps.
Proof.
  simpl. split; intros (l & vps & -> & HP & Hl & Hall); exists l, vps;
    (split_and!; [done..|]); clear Hl; revert vps Hall.
  - induction props as [|[k x] props IH]; intros [|[k' v] vps]; try done.
    intros (-> & Hx & Hall). constructor; [done|]. by apply IH.
  - induction props as [|[k x] props IH]; intros vps; inv 1 as [|? [k' v]]; [done|].
    match goal with H : same_entry _ _ _ |- _ => destruct H as [Hk Hx] end.
    simpl in *. subst. split_and!; [done|done|by apply IH].
Qed.

Lemma repr_arr P h items v :
  repr P h (TArr items) v ↔
    ∃ l vs, v = VRef l ∧ P l ∧ h !! l = Some (CArr vs) ∧
      Forall2 (repr P h) items vs.
Proof.
  simpl. split; intros (l & vs & -> & HP & Hl & Hall); exists l, vs;
    (split_and!; [done..|]); clear Hl; revert vs Hall.
  - induction items as [|x items IH]; intros [|v vs]; try done.
    intros (Hx & Hall). constructor; [done|]. by apply IH.
  - induction items as [|x items IH]; intros vs; inv 1; [done|].
    split; [done|by apply IH].
Qed.

Lemma Forall2_Forall_impl {A B} (G : A → Prop) (R R' : A → B → Prop) l k :
  Forall G l → Forall2 R l k → (∀ x y, G x → R x y → R' x y) → Forall2 R' l k.
Proof.
  intros HG HR Himpl. revert HG. induction HR; inv 1; constructor; auto.
Qed.

(** A representation survives a change of the heap away from its cells
    and may be read with a larger set of cells. *)
Lemma repr_weaken P Q h h' t v :
  (∀ l, P l → Q l ∧ h' !! l = h !! l) → repr P h t v → repr Q h' t v.
Proof.
  intros HPQ. revert v. induction t as [| | | |items IH|props IH]
    using tree_members_ind; intros v; try done.
  - rewrite !repr_arr. intros (l & vs & -> & HP & Hl & Hall).
    destruct (HPQ l HP) as [HQ Hl']. exists l, vs.
    split_and!; [done|done|congruence|].
    eapply Forall2_Forall_impl; [exact IH|exact Hall|]. auto.
  - rewrite !repr_obj. intros (l & vps & -> & HP & Hl & Hall).
    destruct (HPQ l HP) as [HQ Hl']. exists l, vps.
    split_and!; [done|done|congruence|].
    eapply Forall2_Forall_impl; [exact IH|exact Hall|].
    intros p q Hp [Hk Hr]. split; auto.
Qed.

Lemma repr_truthy P h t v : repr P h t v → truthy_value v = truthy t.
Proof.
  destruct t; simpl; try by intros ->.
  - by intros (l & vs & -> & _).
  - by intros (l & vs & -> & _).
Qed.

Lemma repr_nullish P h t v : repr P h t v → t ≠ TNull → nullish v = false.
Proof.
  destruct t; simpl; try done; try by intros ->.
  - by intros (l & vs & -> & _).
  - by intros (l & vs & -> & _).
Qed.

Lemma repr_plain_object P h t v :
  repr P h t v → plain_object h v = match t with TObj _ => true | _ => false end.
Proof.
  destruct t; simpl; try by intros ->.
  - intros (l & vs & -> & _ & Hl & _). simpl. by rewrite Hl.
  - intros (l & vs & -> & _ & Hl & _). simpl. by rewrite Hl.
Qed.

Lemma Forall2_imap_entries {A B} (R : A → B → Prop) (R' : tree → value → Prop)
    (f : A → tree) (g : B → value) (l : list A) (k : list B) i :
  (∀ x y, R x y → R' (f x) (g y)) →
  Forall2 R l k →
  Forall2 (same_entry R') (imap (λ j x, (index_key (i + j), f x)) l)
                          (imap (λ j y, (index_key (i + j), g y)) k).
Proof.
  intros Hfg HR. revert i. induction HR as [|x y l k Hxy _ IH]; intros i.
  { constructor. }
  rewrite !imap_cons. constructor.
  - split; simpl; auto.
  - specialize (IH (S i)). eapply (eq_ind _ (λ a, Forall2 _ a _)); [
      eapply (eq_ind _ (λ a, Forall2 _ _ a)); [exact IH|]|];
      apply imap_ext; intros j ? _; simpl; do 2 f_equal; lia.
Qed.

(** Spreading and listing keys see the same properties on both sides. *)
Lemma repr_props P h t v :
  repr P h t v → Forall2 (same_entry (repr P h)) (own_props t) (props_of h v).
Proof.
  destruct t as [| | |s|items|props].
  - intros ->. constructor.
  - intros ->. constructor.
  - intros ->. constructor.
  - intros ->. simpl.
    apply (Forall2_imap_entries eq _
             (λ c, TStr (String c EmptyString))
             (λ c, VStr (String c EmptyString)) _ _ 0).
    + by intros c ? <-.
    + apply Forall_Forall2_diag, Forall_true. done.
  - rewrite repr_arr. intros (l & vs & -> & _ & Hl & Hall). simpl. rewrite Hl.
    apply (Forall2_imap_entries (repr P h) _ id id _ _ 0); [done|exact Hall].
  - rewrite repr_obj. intros (l & vps & -> & _ & Hl & Hall). simpl. by rewrite Hl.
Qed.

Lemma repr_length P h t v :
  repr P h t v →
  length_of h v =
    match t with
    | TArr items => Some (length items)
    | TStr s => Some (String.length s)
    | _ => None
    end.
Proof.
  destruct t as [| | |s|items|props]; try by intros ->.
  - rewrite repr_arr. intros (l & vs & -> & _ & Hl & Hall). simpl. rewrite Hl.
    f_equal. symmetry. by eapply Forall2_length.
  - rewrite repr_obj. intros (l & vps & -> & _ & Hl & Hall). simpl. by rewrite Hl.
Qed.

Lemma assoc_same_entry (R : tree → value → Prop) key props vps :
  Forall2 (same_entry R) props vps →
  match assoc key props with
  | Some x => ∃ w, assoc key vps = Some w ∧ R x w
  | None => assoc key vps = None
  end.
Proof.
  induction 1 as [|[k x] [k' w] props vps [Hk Hx] _ IH]; simpl in *; [done|].
  subst k'. case_decide; eauto.
Qed.

(** Reading a member. *)
Lemma repr_read P h t v key :
  repr P h t v →
  match get t key with
  | Some x => repr P h x (read h v key)
  | None => read h v key = VUndefined
  end.
Proof.
  intros Hr. pose proof (repr_length _ _ _ _ Hr) as Hlen.
  pose proof (assoc_same_entry _ key _ _ (repr_props _ _ _ _ Hr)) as Hassoc.
  unfold read. rewrite Hlen. clear Hr Hlen.
  assert (Hmember :
    match assoc key (own_props t) with
    | Some x => repr P h x (default VUndefined (assoc key (props_of h v)))
    | None => default VUndefined (assoc key (props_of h v)) = VUndefined
    end).
  { destruct (assoc key (own_props t)); [|by rewrite Hassoc].
    by destruct Hassoc as (w & -> & Hw). }
  clear Hassoc.
  destruct t as [| | |s|items|props]; unfold get; try exact Hmember;
    case_decide; done.
Qed.

Lemma repr_keys P h t v : repr P h t v → (props_of h v).*1 = (own_props t).*1.
Proof.
  intros Hr. pose proof (repr_props _ _ _ _ Hr) as Hall.
  induction Hall as [|? ? ? ? [Hk _] _ IH]; [done|].
  rewrite !fmap_cons. by rewrite Hk, IH.
Qed.

Lemma same_entry_put (R : tree → value → Prop) key x w props vps :
  R x w → Forall2 (same_entry R) props vps →
  Forall2 (same_entry R) (put key x props) (put key w vps).
Proof.
  intros Hxw. induction 1 as [|[k y] [k' u] props vps [Hk Hy] Hall IH]; simpl in *.
  - by repeat constructor.
  - subst k'. case_decide; constructor; auto; by split.
Qed.

End Representation.

(** ** [deepMerge] only adds to the heap *)

Section Frame.

Lemma prefix_alter (f : cell → cell) (h0 h : heap) i :
  h0 `prefix_of` h → length h0 ≤ i → h0 `prefix_of` alter f i h.
Proof.
  intros [k ->] Hi. rewrite alter_app_r_alt by done. by eexists.
Qed.

Lemma merge_keys_extends recurse target source h0 result keys :
  (∀ b s h r h', recurse b s h = Ok (r, h') → h `prefix_of` h') →
  length h0 ≤ result →
  ∀ h h', h0 `prefix_of` h →
    merge_keys recurse target source result keys h = Ok h' → h0 `prefix_of` h'.
Proof.
  intros Hrec Hresult. induction keys as [|key keys IH]; intros h h' Hh; simpl.
  { by intros [= <-]. }
  destruct (plain_object _ _).
  - destruct (nullish target); [done|].
    destruct (truthy_value _).
    + destruct (recurse _ _ _) as [[r h1]| |] eqn:Hcall; [|done..].
      apply IH, prefix_alter; [|done]. etrans; [exact Hh|]. by eapply Hrec.
    + destruct (recurse _ _ _) as [[r h1]| |] eqn:Hcall; [|done..].
      apply IH, prefix_alter; [|done]. etrans; [exact Hh|].
      etrans; [|by eapply Hrec]. by apply prefix_app_r.
  - apply IH, prefix_alter; done.
Qed.

Lemma deepMerge_extends fuel target source h r h' :
  deepMerge fuel target source h = Ok (r, h') →
  r = VRef (length h) ∧ h `prefix_of` h'.
Proof.
  revert target source h r h'.
  induction fuel as [|fuel IH]; intros target source h r h'; simpl; [done|].
  destruct (nullish source); [done|].
  destruct (merge_keys _ _ _ _ _ _) as [h1| |] eqn:Hloop; [|done..].
  intros [= <- <-]. split; [done|].
  eapply merge_keys_extends in Hloop; [exact Hloop| |done|by apply prefix_app_r].
  intros b s h2 r2 h2' Hcall. by apply IH in Hcall as [_ ?].
Qed.

End Frame.

(** ** [deepMerge] computes [merge_tree] *)

Section Loop.
Context (P : nat → Prop) (h0 : heap) (base : tree) (vb : value).
Context (lo : nat) (vps : list (string * value)) (fuel : nat).
Context (HP : ∀ l, P l → l < length h0).
Context (Hbase : repr P h0 base vb) (Hnn : base ≠ TNull).
Context (HPlo : P lo) (Hlo : h0 !! lo = Some (CObj vps)).
Local Abbreviation inside := (Settings.inside P (length h0)).

Lemma later_refl h : later (length h0) h h.
Proof. by split. Qed.

Lemma later_trans h1 h2 h3 :
  later (length h0) h1 h2 → later (length h0) h2 h3 → later (length h0) h1 h3.
Proof.
  intros [Hlen1 H1] [Hlen2 H2]. split; [lia|]. intros l Hl Hne.
  rewrite H2, H1; auto with lia.
Qed.

Lemma later_prefix h h' : h `prefix_of` h' → later (length h0) h h'.
Proof.
  intros Hpre. split; [by apply prefix_length|]. intros l Hl _.
  symmetry. by apply prefix_lookup_lt.
Qed.

Lemma later_store h key v : later (length h0) h (store (length h0) key v h).
Proof.
  unfold store. split; [by rewrite length_alter|]. intros l _ Hne.
  by rewrite list_lookup_alter_ne.
Qed.

Lemma repr_later h h' t v :
  h0 `prefix_of` h → later (length h0) h h' →
  repr (inside (length h)) h t v → repr (inside (length h')) h' t v.
Proof.
  intros Hpre [Hlen Hsame]. apply repr_weaken. intros l Hl.
  apply prefix_length in Hpre.
  assert (l < length h ∧ l ≠ length h0) as [? ?].
  { destruct Hl as [Hl%HP|Hl]; lia. }
  split; [|by apply Hsame]. destruct Hl as [Hl|Hl]; [by left|right; lia].
Qed.

Lemma repr_old h t v :
  h0 `prefix_of` h → repr P h0 t v → repr (inside (length h)) h t v.
Proof.
  intros Hpre. apply repr_weaken. intros l Hl. split; [by left|].
  symmetry. apply prefix_lookup_lt; auto.
Qed.

Lemma read_source h key :
  h0 `prefix_of` h → read h (VRef lo) key = default VUndefined (assoc key vps).
Proof.
  intros Hpre. unfold read, length_of, props_of.
  by rewrite <-(prefix_lookup_lt h0 h lo), Hlo by auto.
Qed.

(** Storing a member into the result. *)
Lemma store_member h h1 key x w res_t res_v :
  h0 `prefix_of` h → h0 `prefix_of` h1 → later (length h0) h h1 →
  h1 !! length h0 = Some (CObj res_v) →
  Forall2 (same_entry (repr (inside (length h)) h)) res_t res_v →
  repr (inside (length h1)) h1 x w →
  h0 `prefix_of` store (length h0) key w h1 ∧
  store (length h0) key w h1 !! length h0 = Some (CObj (put key w res_v)) ∧
  Forall2 (same_entry (repr (inside (length (store (length h0) key w h1)))
                            (store (length h0) key w h1)))
    (put key x res_t) (put key w res_v).
Proof.
  intros Hpre Hpre1 Hlater Hr Hres Hxw. split_and!.
  - by apply prefix_alter.
  - unfold store. by rewrite list_lookup_alter_eq, Hr.
  - apply same_entry_put.
    + eapply repr_later; [exact Hpre1|apply later_store|exact Hxw].
    + eapply Forall2_impl; [exact Hres|]. intros p q [Hk Hpq]. split; [done|].
      eapply repr_later; [exact Hpre| |exact Hpq].
      eapply later_trans; [exact Hlater|apply later_store].
Qed.

(** The value [target[key] || {}] and the heap it is in. *)
Lemma base_member h key :
  h0 `prefix_of` h →
  ∃ bv h1,
    (if truthy_value (read h vb key) then (read h vb key, h)
     else (VRef (length h), h ++ [CObj []])) = (bv, h1) ∧
    h `prefix_of` h1 ∧
    repr (λ l, inside (length h) l ∨ length h ≤ l < length h1) h1
         (base_at base key) bv.
Proof.
  intros Hpre.
  pose proof (repr_read _ _ _ _ key (repr_old h base vb Hpre Hbase)) as Hread.
  assert (Hfresh :
    repr (λ l, inside (length h) l ∨ length h ≤ l < length (h ++ [CObj []]))
         (h ++ [CObj []]) (TObj []) (VRef (length h))).
  { apply repr_obj. exists (length h), [].
    rewrite length_app. simpl. split_and!; [done|right; lia| |constructor].
    by rewrite lookup_app_r, Nat.sub_diag by lia. }
  unfold base_at. destruct (get base key) as [x|].
  - rewrite (repr_truthy _ _ _ _ Hread). destruct (truthy x).
    + exists (read h vb key), h. split_and!; [done..|].
      eapply repr_weaken; [|exact Hread]. intros l Hl. split; [by left|done].
    + exists (VRef (length h)), (h ++ [CObj []]).
      split_and!; [done|by apply prefix_app_r|exact Hfresh].
  - rewrite Hread. simpl.
    exists (VRef (length h)), (h ++ [CObj []]).
    split_and!; [done|by apply prefix_app_r|exact Hfresh].
Qed.

Lemma merge_keys_refines rest :
  Forall (λ p, ∃ w, assoc p.1 vps = Some w ∧ repr P h0 p.2 w) rest →
  Forall (λ p, refines p.2) rest →
  Forall (λ p, unique_keys p.2 ∧ object_depth p.2 ≤ fuel) rest →
  ∀ h res_t res_v,
    h0 `prefix_of` h →
    h !! length h0 = Some (CObj res_v) →
    Forall2 (same_entry (repr (inside (length h)) h)) res_t res_v →
    ∃ h' res_v',
      merge_keys (deepMerge fuel) vb (VRef lo) (length h0) rest.*1 h = Ok h' ∧
      h0 `prefix_of` h' ∧
      h' !! length h0 = Some (CObj res_v') ∧
      Forall2 (same_entry (repr (inside (length h')) h'))
        (foldl (λ result '(key, sv),
                  put key (merge_tree (base_at base key) sv) result) res_t rest)
        res_v'.
Proof.
  induction rest as [|[key sv] rest IH];
    intros Hsrc Href Hwf h res_t res_v Hpre Hr Hres.
  { exists h, res_v. done. }
  apply Forall_cons in Hsrc as [(w & Hw & Hsv) Hsrc].
  apply Forall_cons in Href as [Hrefsv Href].
  apply Forall_cons in Hwf as [[Hu Hd] Hwf].
  simpl in Hw, Hsv, Hrefsv, Hu, Hd.
  specialize (IH Hsrc Href Hwf).
  rewrite fmap_cons. cbn [merge_keys fst foldl].
  rewrite (read_source h key Hpre), Hw. cbn [default from_option id].
  rewrite (repr_plain_object _ _ _ _ (repr_old h sv w Hpre Hsv)).
  assert (Hplain : ∀ x, (∀ sps, sv ≠ TObj sps) → merge_tree x sv = sv).
  { intros x Hsv'. destruct sv; try done. by destruct (Hsv' props). }
  assert (Hstore : (∀ sps, sv ≠ TObj sps) →
    ∃ h' res_v',
      merge_keys (deepMerge fuel) vb (VRef lo) (length h0) rest.*1
        (store (length h0) key w h) = Ok h' ∧
      h0 `prefix_of` h' ∧ h' !! length h0 = Some (CObj res_v') ∧
      Forall2 (same_entry (repr (inside (length h')) h'))
        (foldl (λ result '(key, sv),
                  put key (merge_tree (base_at base key) sv) result)
               (put key (merge_tree (base_at base key) sv) res_t) rest) res_v').
  { intros Hsv'. rewrite Hplain by done.
    destruct (store_member h h key sv w res_t res_v) as (? & ? & ?);
      [done|done|apply later_refl|done|done|by apply repr_old|].
    by eapply IH. }
  destruct sv as [| | | | |sps]; try (by apply Hstore).
  clear Hstore Hplain.
  rewrite (repr_nullish _ _ _ _ Hbase Hnn).
  destruct (base_member h key Hpre) as (bv & h1 & -> & Hpre1 & Hbv).
  assert (Hpre01 : h0 `prefix_of` h1) by (by etrans).
  rewrite (read_source h1 key Hpre01), Hw. cbn [default from_option id].
  assert (Hcall : ∃ h2,
    deepMerge fuel bv w h1 = Ok (VRef (length h1), h2) ∧
    repr (λ l, (inside (length h) l ∨ length h ≤ l < length h1)
               ∨ length h1 ≤ l < length h2) h2
         (merge_tree (base_at base key) (TObj sps)) (VRef (length h1))).
  { apply Hrefsv; [|done| | |done|done|by eexists].
    - intros l [[Hl%HP|Hl]|Hl]; apply prefix_length in Hpre, Hpre1; lia.
    - unfold base_at. destruct (get base key) as [x|]; [|done].
      destruct (truthy x) eqn:Hx; [|done]. by intros ->.
    - eapply repr_weaken; [|exact Hsv]. intros l Hl. split; [by left; left|].
      symmetry. apply prefix_lookup_lt; auto. }
  destruct Hcall as (h2 & Hcall & Hrep).
  destruct (deepMerge_extends _ _ _ _ _ _ Hcall) as [_ Hpre12].
  rewrite Hcall.
  assert (Hpre2 : h `prefix_of` h2) by (by etrans).
  apply lookup_lt_Some in Hr as Hlt.
  destruct (store_member h h2 key (merge_tree (base_at base key) (TObj sps))
              (VRef (length h1)) res_t res_v) as (? & ? & ?);
    [done|by etrans|by apply later_prefix
    |by eapply prefix_lookup_Some|done| |by eapply IH].
  eapply repr_weaken; [|exact Hrep]. intros l Hl. split; [|done].
  apply prefix_length in Hpre, Hpre1, Hpre12. unfold Settings.inside in *.
  destruct Hl as [[[Hl|Hl]|Hl]|Hl]; [by left|right; lia..].
Qed.

End Loop.

Section Refinement.

Lemma unique_keys_obj props :
  unique_keys (TObj props) ↔
    NoDup props.*1 ∧ Forall (λ p, unique_keys p.2) props.
Proof.
  simpl. apply and_iff_compat_l.
  induction props as [|[k x] props IH]; simpl.
  - split; [constructor|done].
  - rewrite Forall_cons, IH. done.
Qed.

Lemma object_depth_obj props n :
  object_depth (TObj props) ≤ S n ↔ Forall (λ p, object_depth p.2 ≤ n) props.
Proof.
  simpl. rewrite <-Nat.succ_le_mono.
  induction props as [|[k x] props IH]; simpl.
  - split; [constructor|lia].
  - rewrite Forall_cons, <-IH. simpl. lia.
Qed.

Lemma depth_obj props n :
  depth (TObj props) ≤ S n ↔ Forall (λ p, depth p.2 ≤ n) props.
Proof.
  simpl. rewrite <-Nat.succ_le_mono.
  induction props as [|[k x] props IH]; simpl.
  - split; [constructor|lia].
  - rewrite Forall_cons, <-IH. simpl. lia.
Qed.

Lemma depth_arr items n :
  depth (TArr items) ≤ S n ↔ Forall (λ x, depth x ≤ n) items.
Proof.
  simpl. rewrite <-Nat.succ_le_mono.
  induction items as [|x items IH]; simpl.
  - split; [constructor|lia].
  - rewrite Forall_cons, <-IH. lia.
Qed.

Lemma source_members (R : tree → value → Prop) props vps :
  NoDup props.*1 → Forall2 (same_entry R) props vps →
  Forall (λ p, ∃ w, assoc p.1 vps = Some w ∧ R p.2 w) props.
Proof.
  intros Hnd Hall. apply Forall_forall. intros [k x] Hin.
  pose proof (assoc_same_entry R k _ _ Hall) as Hassoc.
  by rewrite (assoc_unique k props x Hnd Hin) in Hassoc.
Qed.

Lemma deepMerge_refines over : refines over.
Proof.
  induction over as [| | | | |props IH] using tree_members_ind;
    try (by intros ? ? ? ? ? ? _ _ _ _ _ _ [? ?]).
  intros P h base vb vo fuel HP Hbase Hnn Hover Hu Hd _.
  apply repr_obj in Hover as (lo & vps & -> & HPlo & Hlo & Hall).
  apply unique_keys_obj in Hu as [Hnd Hu].
  destruct fuel as [|fuel]; [simpl in Hd; lia|].
  apply object_depth_obj in Hd.
  cbn [deepMerge nullish].
  assert (Hkeys : (props_of (h ++ [CObj (props_of h vb)]) (VRef lo)).*1 = props.*1).
  { simpl. rewrite lookup_app_l, Hlo by auto.
    clear -Hall. induction Hall as [|? ? ? ? [Hk _] _ IH']; [done|].
    rewrite !fmap_cons. by rewrite Hk, IH'. }
  rewrite Hkeys.
  destruct (merge_keys_refines P h base vb lo vps fuel HP Hbase Hnn HPlo Hlo props)
    with (h := h ++ [CObj (props_of h vb)]) (res_t := own_props base)
         (res_v := props_of h vb)
    as (h' & res_v' & -> & Hpre & Hr & Hres).
  - by apply source_members.
  - exact IH.
  - apply Forall_forall. intros p Hp. split.
    + by apply (proj1 (Forall_forall _ _) Hu).
    + by apply (proj1 (Forall_forall _ _) Hd).
  - by apply prefix_app_r.
  - by rewrite lookup_app_r, Nat.sub_diag by lia.
  - eapply Forall2_impl; [apply (repr_props _ _ _ _ Hbase)|].
    intros p q [Hk Hpq]. split; [done|].
    apply (repr_old P h HP); [by apply prefix_app_r|done].
  - exists h'. split; [done|]. apply repr_obj.
    exists (length h), res_v'. apply lookup_lt_Some in Hr as Hlt.
    split_and!; [done|right; lia|done|].
    eapply Forall2_impl; [exact Hres|]. intros p q [Hk Hpq]. split; [done|].
    eapply repr_weaken; [|exact Hpq]. intros l [Hl|Hl]; (split; [|done]);
      [by left|right; lia].
Qed.

End Refinement.

(** ** What [merge_tree] holds *)

Section MergeTree.
Context (f : string → tree → tree).
Local Abbreviation step := (λ (result : list (string * tree)) '(key, sv), put key (f key sv) result).

Lemma foldl_put_other key sps init :
  key ∉ sps.*1 → assoc key (foldl step init sps) = assoc key init.
Proof.
  revert init. induction sps as [|[k sv] sps IH]; intros init; simpl; [done|].
  intros [Hne Hin]%not_elem_of_cons. rewrite IH by done.
  rewrite assoc_put. by rewrite decide_False.
Qed.

Lemma foldl_put_member key sv sps init :
  NoDup sps.*1 → (key, sv) ∈ sps →
  assoc key (foldl step init sps) = Some (f key sv).
Proof.
  revert init. induction sps as [|[k x] sps IH]; intros init; simpl; [by inv 2|].
  intros [Hk Hnd]%NoDup_cons [[= -> ->]|Hin]%elem_of_cons.
  - rewrite foldl_put_other by done. rewrite assoc_put. by rewrite decide_True.
  - by apply IH.
Qed.


End MergeTree.

Section MergeTreeFacts.


Lemma merge_tree_obj base sps :
  merge_tree base (TObj sps) =
    TObj (foldl (λ result '(key, sv),
                   put key (merge_tree (base_at base key) sv) result)
                (own_props base) sps).
Proof. reflexivity. Qed.

(** A key of the base that the overlay does not have keeps its value, at
    every depth the two documents share. *)
Lemma merge_tree_retains path : ∀ base over key sps bps x,
  unique_keys over →
  obj_at over path = Some sps → obj_at base path = Some bps →
  assoc key sps = None → assoc key bps = Some x →
  ∃ rps, obj_at (merge_tree base over) path = Some rps ∧ assoc key rps = Some x.
Proof.
  induction path as [|k path IH]; intros base over key sps bps x Hu Hover Hbase Hkey Hx.
  - destruct over as [| | | | |ops]; [done..|]. destruct base as [| | | | |bs]; [done..|].
    simpl in Hover, Hbase. simplify_eq. rewrite merge_tree_obj.
    eexists. split; [done|].
    rewrite (foldl_put_other (λ key, merge_tree (base_at (TObj bps) key)));
      [done|by apply assoc_None].
  - destruct over as [| | | | |ops]; [done..|]. destruct base as [| | | | |bs]; [done..|].
    simpl in Hover, Hbase.
    destruct (assoc k ops) as [o'|] eqn:Ho; [|done].
    destruct (assoc k bs) as [b'|] eqn:Hb; [|done]. simpl in Hover, Hbase.
    apply unique_keys_obj in Hu as [Hnd Hu].
    apply assoc_Some_elem in Ho as Hin.
    rewrite merge_tree_obj. cbn [obj_at].
    rewrite (foldl_put_member (λ key, merge_tree (base_at (TObj bs) key)) k o')
      by done. simpl.
    assert (base_at (TObj bs) k = b') as ->.
    { unfold base_at. simpl. rewrite Hb. by destruct b', path. }
    eapply IH; try done.
    by apply (proj1 (Forall_forall _ _) Hu (k, o')).
Qed.




End MergeTreeFacts.

(** ** Building a document in the heap and reading it back *)

Section AllocReify.

Lemma alloc_arr items h :
  alloc (TArr items) h =
    let '(vs, h1) := alloc_items items h in (VRef (length h1), h1 ++ [CArr vs]).
Proof. reflexivity. Qed.

Lemma alloc_obj props h :
  alloc (TObj props) h =
    let '(vps, h1) := alloc_props props h in (VRef (length h1), h1 ++ [CObj vps]).
Proof. reflexivity. Qed.

Lemma reify_ref fuel h l :
  reify (S fuel) h (VRef l) =
    match h !! l with
    | Some (CObj props) => TObj <$> reify_props fuel h props
    | Some (CArr items) => TArr <$> reify_items fuel h items
    | None => None
    end.
Proof. reflexivity. Qed.

Lemma repr_grow lo h h' x v :
  h `prefix_of` h' →
  repr (λ l, lo ≤ l < length h) h x v →
  repr (λ l, lo ≤ l < length h') h' x v.
Proof.
  intros Hpre. apply repr_weaken. intros l [? ?].
  split; [apply prefix_length in Hpre; lia|].
  symmetry. by apply prefix_lookup_lt.
Qed.

Lemma repr_shift lo lo' h x v :
  lo' ≤ lo → repr (λ l, lo ≤ l < length h) h x v →
  repr (λ l, lo' ≤ l < length h) h x v.
Proof. intros Hlo. apply repr_weaken. intros l [? ?]. split; [lia|done]. Qed.

Lemma alloc_items_spec items :
  Forall allocated items →
  ∀ h vs h', alloc_items items h = (vs, h') →
    h `prefix_of` h' ∧
    Forall2 (repr (λ l, length h ≤ l < length h') h') items vs ∧
    Forall (λ x, length h + depth x ≤ length h') items.
Proof.
  induction 1 as [|x items Hx _ IH]; intros h vs h'; simpl.
  { intros [= <- <-]. split_and!; [done|constructor..]. }
  destruct (alloc x h) as [v h1] eqn:Halloc.
  destruct (alloc_items items h1) as [vs' h2] eqn:Hrest.
  intros [= <- <-].
  destruct (Hx _ _ _ Halloc) as (Hpre1 & Hv & Hd).
  destruct (IH _ _ _ Hrest) as (Hpre2 & Hvs & Hds).
  pose proof (prefix_length _ _ Hpre1). pose proof (prefix_length _ _ Hpre2).
  split_and!; [by etrans| |].
  - constructor; [by eapply repr_grow|].
    eapply Forall2_impl; [exact Hvs|]. intros ? ?. apply repr_shift. lia.
  - constructor; [lia|]. eapply Forall_impl; [exact Hds|]. simpl. lia.
Qed.

Lemma alloc_props_spec props :
  Forall (λ p, allocated p.2) props →
  ∀ h vps h', alloc_props props h = (vps, h') →
    h `prefix_of` h' ∧
    Forall2 (same_entry (repr (λ l, length h ≤ l < length h') h')) props vps ∧
    Forall (λ p, length h + depth p.2 ≤ length h') props.
Proof.
  induction 1 as [|[k x] props Hx _ IH]; intros h vps h'; simpl.
  { intros [= <- <-]. split_and!; [done|constructor..]. }
  destruct (alloc x h) as [v h1] eqn:Halloc.
  destruct (alloc_props props h1) as [vps' h2] eqn:Hrest.
  intros [= <- <-].
  destruct (Hx _ _ _ Halloc) as (Hpre1 & Hv & Hd).
  destruct (IH _ _ _ Hrest) as (Hpre2 & Hvs & Hds).
  pose proof (prefix_length _ _ Hpre1). pose proof (prefix_length _ _ Hpre2).
  split_and!; [by etrans| |].
  - constructor; [split; [done|by eapply repr_grow]|].
    eapply Forall2_impl; [exact Hvs|]. intros ? ? [? ?]. split; [done|].
    eapply repr_shift; [|done]. lia.
  - constructor; [simpl in *; lia|]. eapply Forall_impl; [exact Hds|]. simpl. lia.
Qed.

Lemma alloc_spec x : allocated x.
Proof.
  induction x as [| | | |items IH|props IH] using tree_members_ind;
    intros h v h'; try (intros [= <- <-]; split_and!; simpl; done || lia).
  - rewrite alloc_arr. destruct (alloc_items items h) as [vs h1] eqn:Hitems.
    intros [= <- <-].
    destruct (alloc_items_spec items IH _ _ _ Hitems) as (Hpre & Hvs & Hds).
    pose proof (prefix_length _ _ Hpre). rewrite length_app. cbn [length].
    split_and!.
    + by apply prefix_app_r.
    + apply repr_arr. exists (length h1), vs. split_and!; [done|lia|lia| |].
      * by rewrite lookup_app_r, Nat.sub_diag by lia.
      * eapply Forall2_impl; [exact Hvs|]. intros ? ?. apply repr_weaken.
        intros l [? ?]. split; [lia|]. by rewrite lookup_app_l.
    + assert (depth (TArr items) ≤ S (length h1 - length h)); [|lia].
      apply depth_arr. eapply Forall_impl; [exact Hds|]. simpl. lia.
  - rewrite alloc_obj. destruct (alloc_props props h) as [vps h1] eqn:Hprops.
    intros [= <- <-].
    destruct (alloc_props_spec props IH _ _ _ Hprops) as (Hpre & Hvs & Hds).
    pose proof (prefix_length _ _ Hpre). rewrite length_app. cbn [length].
    split_and!.
    + by apply prefix_app_r.
    + apply repr_obj. exists (length h1), vps. split_and!; [done|lia|lia| |].
      * by rewrite lookup_app_r, Nat.sub_diag by lia.
      * eapply Forall2_impl; [exact Hvs|]. intros ? ? [? ?]. split; [done|].
        eapply repr_weaken; [|done].
        intros l [? ?]. split; [lia|]. by rewrite lookup_app_l.
    + assert (depth (TObj props) ≤ S (length h1 - length h)); [|lia].
      apply depth_obj. eapply Forall_impl; [exact Hds|]. simpl. lia.
Qed.

Lemma repr_defined P h x v : repr P h x v → v ≠ VUndefined.
Proof.
  destruct x; simpl; try (by intros ->); by intros (? & ? & -> & _).
Qed.

Lemma reify_spec x : ∀ P h v fuel,
  repr P h x v → depth x < fuel → reify fuel h v = Some x.
Proof.
  induction x as [| | | |items IH|props IH] using tree_members_ind;
    intros P h v [|fuel] Hr Hd; try lia; try (by simpl in Hr; subst v).
  - apply repr_arr in Hr as (l & vs & -> & _ & Hl & Hvs).
    rewrite reify_ref, Hl.
    assert (Hpos : 0 < fuel) by (simpl in Hd; lia).
    assert (Hds : Forall (λ x, depth x ≤ fuel - 1) items).
    { apply depth_arr. lia. }
    assert (reify_items fuel h vs = Some items) as ->; [|done].
    clear Hl Hd. induction Hvs as [|x v items vs Hx _ IHvs]; [done|].
    apply Forall_cons in IH as [IHx IH]. apply Forall_cons in Hds as [Hdx Hds].
    simpl. rewrite (IHx P h v fuel) by (done || lia). simpl.
    by rewrite IHvs.
  - apply repr_obj in Hr as (l & vps & -> & _ & Hl & Hvs).
    rewrite reify_ref, Hl.
    assert (Hpos : 0 < fuel) by (simpl in Hd; lia).
    assert (Hds : Forall (λ p, depth p.2 ≤ fuel - 1) props).
    { apply depth_obj. lia. }
    assert (reify_props fuel h vps = Some props) as ->; [|done].
    clear Hl Hd. induction Hvs as [|[k x] [k' v] props vps [Hk Hx] _ IHvs]; [done|].
    apply Forall_cons in IH as [IHx IH]. apply Forall_cons in Hds as [Hdx Hds].
    simpl in *. subst k'.
    pose proof (IHx P h v fuel Hx ltac:(lia)) as Hreify.
    pose proof (repr_defined _ _ _ _ Hx) as Hdef.
    destruct v; [done|..]; rewrite Hreify; simpl; by rewrite IHvs.
Qed.

Lemma stringify_spec P h x v :
  repr P h x v → depth x ≤ length h → stringify h v = Ok x.
Proof.
  intros Hr Hd. unfold stringify. rewrite (reify_spec x P h v) by (done || lia).
  apply repr_defined in Hr. by destruct v.
Qed.

End AllocReify.

(** ** [deepMerge] on two objects *)

(** Reading a value along a path that runs through objects. *)
Lemma repr_member_at P h path : ∀ t v ps key x,
  repr P h t v → obj_at t path = Some ps → assoc key ps = Some x →
  ∃ w, member_at h v (path ++ [key]) = Some w ∧ repr P h x w.
Proof.
  induction path as [|k path IH]; intros t v ps key x Hr Hobj Hx;
    (destruct t as [| | | | |props]; [done..|]); simpl in Hobj;
    cbn [app member_at]; rewrite (repr_nullish _ _ _ _ Hr) by done.
  - simplify_eq. pose proof (repr_read _ _ _ _ key Hr) as Hread.
    cbn [get own_props] in Hread. rewrite Hx in Hread. by eexists.
  - destruct (assoc k props) as [t'|] eqn:Hk; [|done]. simpl in Hobj.
    pose proof (repr_read _ _ _ _ k Hr) as Hread.
    cbn [get own_props] in Hread. rewrite Hk in Hread. by eapply IH.
Qed.

(** On a base and an overlay object that stand in the heap, [deepMerge]
    with fuel for the nesting of the overlay returns a new object that
    stands for [merge_tree base over]; the heap is only added to, so the
    two arguments stand for what they stood for. *)
Lemma deepMerge_objects P h base sps vb vo :
  (∀ l, P l → l < length h) →
  repr P h base vb → base ≠ TNull → repr P h (TObj sps) vo →
  unique_keys (TObj sps) →
  ∃ h', deepMerge (object_depth (TObj sps)) vb vo h = Ok (VRef (length h), h') ∧
        h `prefix_of` h' ∧ repr P h' base vb ∧ repr P h' (TObj sps) vo ∧
        repr (λ l, P l ∨ length h ≤ l < length h') h'
             (merge_tree base (TObj sps)) (VRef (length h)).
Proof.
  intros HP Hbase Hnn Hover Hu.
  destruct (deepMerge_refines (TObj sps) P h base vb vo (object_depth (TObj sps)))
    as (h' & Hcall & Hrep); [done..|by eexists|].
  destruct (deepMerge_extends _ _ _ _ _ _ Hcall) as [_ Hpre].
  exists h'. split_and!; [done|done| | |done];
    (eapply repr_weaken; [|eassumption]); intros l Hl; (split; [done|]);
    symmetry; apply prefix_lookup_lt; auto.
Qed.

(** C3: [deepMerge] changes no cell of the heap it is given, so neither
    argument is mutated: whenever the call returns, both arguments stand
    for the documents they stood for; and a key that the base has and the
    overlay has not is in the result with the base's value, at every depth
    the two objects share: reading the result along the path gives a value
    that stands for what the base holds there.  On an overlay of ordinary
    keys the call does return. *)
Theorem deepMerge_leaves_arguments :
  (∀ fuel target source h r h',
     deepMerge fuel target source h = Ok (r, h') → h `prefix_of` h')
  ∧ (∀ P h bps sps vb vo fuel r h',
       (∀ l, P l → l < length h) →
       repr P h (TObj bps) vb → repr P h (TObj sps) vo →
       unique_keys (TObj sps) → object_depth (TObj sps) ≤ fuel →
       deepMerge fuel vb vo h = Ok (r, h') →
       repr P h' (TObj bps) vb ∧ repr P h' (TObj sps) vo ∧
       ∀ path key ops bs x,
         obj_at (TObj sps) path = Some ops →
         obj_at (TObj bps) path = Some bs →
         assoc key ops = None → assoc key bs = Some x →
         ∃ w, member_at h' r (path ++ [key]) = Some w ∧
              repr (λ l, P l ∨ length h ≤ l < length h') h' x w)
  ∧ (∀ P h bps sps vb vo,
       (∀ l, P l → l < length h) →
       repr P h (TObj bps) vb → repr P h (TObj sps) vo →
       unique_keys (TObj sps) → ordinary (TObj bps) (TObj sps) = true →
       ∃ r h', deepMerge (object_depth (TObj sps)) vb vo h = Ok (r, h')).
Proof.
  split_and!.
  - intros fuel target source h r h' Hcall.
    by apply deepMerge_extends in Hcall as [_ ?].
  - intros P h bps sps vb vo fuel r h' HP Hbase Hover Hu Hfuel Hcall.
    destruct (deepMerge_refines (TObj sps) P h (TObj bps) vb vo fuel)
      as (h1 & Hcall1 & Hr); [done..|by eexists|].
    rewrite Hcall in Hcall1. injection Hcall1 as -> <-.
    destruct (deepMerge_extends _ _ _ _ _ _ Hcall) as [_ Hpre].
    split_and!.
    1,2: (eapply repr_weaken; [|eassumption]); intros l Hl; (split; [done|]);
      symmetry; apply prefix_lookup_lt; auto.
    intros path key ops bs x Hops Hbs Hkey Hx.
    destruct (merge_tree_retains path (TObj bps) (TObj sps) key ops bs x)
      as (rps & Hrps & Hrx); [done..|].
    by eapply repr_member_at.
  - intros P h bps sps vb vo HP Hbase Hover Hu _.
    destruct (deepMerge_objects P h (TObj bps) sps vb vo)
      as (h' & Hcall & _); [done..|]. by eexists _, _.
Qed.





Lemma deepMerge_leaves_arguments_witness :
  ordinary (TObj [("a", TNum 1); ("b", TObj [("x", TNum 1)])])
           (TObj [("b", TObj [("y", TNum 2)])]) = true ∧
  ∃ r h',
    deepMerge 2 (VRef 1) (VRef 3)
      [CObj [("x", VNum 1)]; CObj [("a", VNum 1); ("b", VRef 0)];
       CObj [("y", VNum 2)]; CObj [("b", VRef 2)]]
      = Ok (r, h') ∧
    repr (λ l, l < 4) h' (TObj [("a", TNum 1); ("b", TObj [("x", TNum 1)])]) (VRef 1) ∧
    repr (λ l, l < 4) h' (TObj [("b", TObj [("y", TNum 2)])]) (VRef 3) ∧
    member_at h' r ["b"; "x"] = Some (VNum 1).
Proof.
  split; [reflexivity|].
  set (h := [CObj [("x", VNum 1)]; CObj [("a", VNum 1); ("b", VRef 0)];
             CObj [("y", VNum 2)]; CObj [("b", VRef 2)]]).
  assert (HP : ∀ l, l < 4 → l < length h) by (simpl; lia).
  assert (Hbase : repr (λ l, l < 4) h
            (TObj [("a", TNum 1); ("b", TObj [("x", TNum 1)])]) (VRef 1)).
  { simpl. eexists 1, _. split_and!; [reflexivity|lia|reflexivity|]. simpl.
    split_and!; [reflexivity..| |exact I].
    eexists 0, _. split_and!; [reflexivity|lia|reflexivity|]. simpl. auto. }
  assert (Hover : repr (λ l, l < 4) h (TObj [("b", TObj [("y", TNum 2)])]) (VRef 3)).
  { simpl. eexists 3, _. split_and!; [reflexivity|lia|reflexivity|]. simpl.
    split_and!; [reflexivity| |exact I].
    eexists 2, _. split_and!; [reflexivity|lia|reflexivity|]. simpl. auto. }
  assert (Hu : unique_keys (TObj [("b", TObj [("y", TNum 2)])])).
  { simpl. split_and!; try exact I; apply (bool_decide_unpack _); by vm_compute. }
  destruct (proj2 (proj2 deepMerge_leaves_arguments) (λ l, l < 4) h
              [("a", TNum 1); ("b", TObj [("x", TNum 1)])]
              [("b", TObj [("y", TNum 2)])] (VRef 1) (VRef 3) HP Hbase Hover Hu)
    as (r & h' & Hcall); [reflexivity|].
  destruct (proj1 (proj2 deepMerge_leaves_arguments) (λ l, l < 4) h
              [("a", TNum 1); ("b", TObj [("x", TNum 1)])]
              [("b", TObj [("y", TNum 2)])] (VRef 1) (VRef 3) 2 r h'
              HP Hbase Hover Hu)
    as (Hb & Ho & Hkeep); [simpl; lia|exact Hcall|].
  exists r, h'. split_and!; [exact Hcall|exact Hb|exact Ho|].
  destruct (Hkeep ["b"] "x" [("y", TNum 2)] [("x", TNum 1)] (TNum 1))
    as (w & Hw & Hx); [reflexivity..|].
  simpl in Hx. by rewrite <-Hx.
Defined.


(** ** [deepMerge] on whole documents *)

Section Documents.

Lemma own_props_depth b : Forall (λ p, depth p.2 ≤ pred (depth b)) (own_props b).
Proof.
  destruct b as [| | |s|items|props]; try (by constructor).
  - simpl. apply Forall_forall. intros p Hp.
    apply list_elem_of_lookup in Hp as [i Hp].
    rewrite list_lookup_imap in Hp.
    destruct (list_ascii_of_string s !! i); simplify_eq/=. lia.
  - assert (Hitems : Forall (λ x, depth x ≤ pred (depth (TArr items))) items).
    { apply depth_arr. simpl. lia. }
    cbn [own_props]. apply Forall_forall. intros p Hp.
    apply list_elem_of_lookup in Hp as [i Hp].
    rewrite list_lookup_imap in Hp.
    destruct (items !! i) as [x|] eqn:Hx; simplify_eq/=.
    apply (proj1 (Forall_forall _ _) Hitems x).
    apply list_elem_of_lookup. eauto.
  - apply depth_obj. simpl. lia.
Qed.

Lemma assoc_depth (n : nat) key props x :
  Forall (λ p, depth p.2 ≤ n) props → assoc key props = Some x → depth x ≤ n.
Proof.
  intros Hall Hx. apply assoc_Some_elem in Hx.
  apply (proj1 (Forall_forall _ _) Hall (key, x) Hx).
Qed.

Lemma base_at_depth b key : depth (base_at b key) ≤ 1 `max` pred (depth b).
Proof.
  unfold base_at. destruct (get b key) as [x|] eqn:Hx; [|simpl; lia].
  destruct (truthy x); [|simpl; lia].
  assert (depth x ≤ pred (depth b)); [|lia].
  pose proof (own_props_depth b) as Hall.
  destruct b as [| | |s|items|props]; unfold get in Hx;
    try (by eapply assoc_depth);
    (case_decide; [simplify_eq/=; lia|by eapply assoc_depth]).
Qed.

Lemma put_depth (n : nat) key x props :
  depth x ≤ n → Forall (λ p, depth p.2 ≤ n) props →
  Forall (λ p, depth p.2 ≤ n) (put key x props).
Proof.
  intros Hx. induction 1 as [|[k y] props Hy Hall IH]; simpl.
  - by repeat constructor.
  - case_decide; constructor; simpl; auto.
Qed.

Lemma foldl_put_depth (f : string → tree → tree) (n : nat) sps init :
  Forall (λ p, depth p.2 ≤ n) init →
  Forall (λ p, depth (f p.1 p.2) ≤ n) sps →
  Forall (λ p, depth p.2 ≤ n)
    (foldl (λ result '(key, sv), put key (f key sv) result) init sps).
Proof.
  intros Hinit Hsps. revert init Hinit.
  induction Hsps as [|[k sv] sps Hsv _ IH]; intros init Hinit; simpl; [done|].
  apply IH. by apply put_depth.
Qed.

(** Merging nests no deeper than the deeper of the two documents. *)
Lemma merge_tree_depth over : ∀ base,
  depth (merge_tree base over) ≤ depth base `max` depth over.
Proof.
  induction over as [| | | | |sps IH] using tree_members_ind;
    intros base; try (simpl; lia).
  rewrite merge_tree_obj.
  assert (Hsps : Forall (λ p, depth p.2 ≤ pred (depth (TObj sps))) sps).
  { apply depth_obj. simpl. lia. }
  assert (1 ≤ depth (TObj sps)) by (simpl; lia).
  set (n := pred (depth base) `max` pred (depth (TObj sps))).
  assert (depth (TObj (foldl (λ result '(key, sv),
              put key (merge_tree (base_at base key) sv) result)
            (own_props base) sps)) ≤ S n); [|lia].
  apply depth_obj.
  apply (foldl_put_depth (λ key, merge_tree (base_at base key))).
  - eapply Forall_impl; [apply own_props_depth|]. simpl. lia.
  - apply Forall_forall. intros [k sv] Hin. simpl.
    pose proof (proj1 (Forall_forall _ _) Hsps (k, sv) Hin) as Hsv.
    pose proof (proj1 (Forall_forall _ _) IH (k, sv) Hin (base_at base k)) as Hm.
    pose proof (base_at_depth base k). simpl in Hsv, Hm.
    destruct sv; simpl in *; lia.
Qed.

(** Two documents built one after the other stand in the heap together. *)
Lemma alloc_two base over h vb h1 vo h2 :
  alloc base h = (vb, h1) → alloc over h1 = (vo, h2) →
  h `prefix_of` h2 ∧
  repr (λ l, l < length h2) h2 base vb ∧ repr (λ l, l < length h2) h2 over vo ∧
  depth base + depth over ≤ length h2.
Proof.
  intros Hb Ho.
  destruct (alloc_spec base _ _ _ Hb) as (Hpre1 & Hrb & Hdb).
  destruct (alloc_spec over _ _ _ Ho) as (Hpre2 & Hro & Hdo).
  pose proof (prefix_length _ _ Hpre1). pose proof (prefix_length _ _ Hpre2).
  split_and!; [by etrans| | |lia].
  - eapply repr_weaken; [|exact Hrb]. intros l [? ?]. split; [lia|].
    symmetry. by apply prefix_lookup_lt.
  - eapply repr_weaken; [|exact Hro]. intros l [? ?]. by split.
Qed.

(** On two objects, built in the heap, merged and read back, [deepMerge]
    is [merge_tree]. *)
Lemma deepMerge_documents_merge_tree bps sps :
  unique_keys (TObj sps) →
  deepMerge_documents (TObj bps) (TObj sps) = Some (merge_tree (TObj bps) (TObj sps)).
Proof.
  intros Hu. unfold deepMerge_documents.
  destruct (alloc (TObj bps) []) as [vb h1] eqn:Hb.
  destruct (alloc (TObj sps) h1) as [vo h2] eqn:Ho.
  destruct (alloc_two _ _ _ _ _ _ _ Hb Ho) as (_ & Hrb & Hro & Hd).
  destruct (deepMerge_objects (λ l, l < length h2) h2 (TObj bps) sps vb vo)
    as (h' & -> & Hpre & _ & _ & Hr); [done..|].
  apply prefix_length in Hpre.
  apply (reify_spec _ _ _ _ _ Hr).
  pose proof (merge_tree_depth (TObj sps) (TObj bps)). lia.
Qed.

End Documents.

(** ** [removeSettings] *)

Section RemoveSettings.

Lemma same_entry_remove (R : tree → value → Prop) key props vps :
  Forall2 (same_entry R) props vps →
  Forall2 (same_entry R) (remove key props) (remove key vps).
Proof.
  unfold remove. induction 1 as [|[k x] [k' w] props vps [Hk Hx] _ IH]; [constructor|].
  simpl in Hk. subst k'. rewrite !filter_cons. simpl.
  case_decide; [constructor; [by split|done]|done].
Qed.

Lemma removeSettings_object props h vps h1 :
  alloc_props props h = (vps, h1) →
  removeSettings true (Conflicts.Document (TObj props)) h =
    Ok (Conflicts.Document (TObj (remove "danizee-suite" props)),
        h1 ++ [CObj (remove "danizee-suite" vps)]).
Proof.
  intros Hprops. unfold removeSettings, writeSettings, readSettings.
  rewrite alloc_obj, Hprops. cbn [delete_marker].
  rewrite <-(Nat.add_0_r (length h1)), alter_app_r. cbn [alter list_alter].
  rewrite Nat.add_0_r.
  destruct (alloc_props_spec props
              (Forall_true _ _ (λ p, alloc_spec p.2)) _ _ _ Hprops)
    as (Hpre & Hvs & Hds).
  pose proof (prefix_length _ _ Hpre).
  rewrite (stringify_spec (λ l, l ≤ length h1) _ (TObj (remove "danizee-suite" props)));
    [done| |].
  - apply repr_obj. eexists (length h1), _. split_and!; [done|done| |].
    + by rewrite lookup_app_r, Nat.sub_diag by lia.
    + apply same_entry_remove. eapply Forall2_impl; [exact Hvs|].
      intros p q [Hk Hpq]. split; [done|]. eapply repr_weaken; [|exact Hpq].
      intros l [? ?]. split; [lia|]. by rewrite lookup_app_l.
  - rewrite length_app. cbn [length].
    assert (depth (TObj (remove "danizee-suite" props)) ≤ S (length h1 - length h));
      [|lia].
    apply depth_obj. unfold remove. apply Forall_forall.
    intros p [_ Hp]%list_elem_of_filter.
    pose proof (proj1 (Forall_forall _ _) Hds p Hp). simpl in *. lia.
Qed.

End RemoveSettings.



(* ================================================================== *)
(** * Part III: further properties of the two modules                  *)
(* ================================================================== *)

(** ** [levenshteinDistance] as a metric *)

Section Metric.
Implicit Types (s t u : list ascii) (c d : ascii) (n : nat).

(** Two scripts, one after the other, are done by one script that costs
    no more than the two together. *)
Lemma edit_trans s t m :
  edit s t m → ∀ u n, edit t u n → ∃ k, k ≤ m + n ∧ edit s u k.
Proof.
  induction 1 as [|c s t m _ IH|c d s t m _ IH|c s t m _ IH|d s t m _ IH];
    intros u n Hu.
  - exists n. split; [lia|done].
  - remember (c :: t) as ct eqn:Hct. revert Hct.
    induction Hu as [|c' t' u n Hu _|c' d' t' u n Hu _|c' t' u n Hu _|d' t' u n Hu IHu];
      intros Hct; simplify_eq.
    + destruct (IH _ _ Hu) as (k & Hk & Hs). exists k. split; [lia|by constructor].
    + destruct (IH _ _ Hu) as (k & Hk & Hs). exists (S k).
      split; [lia|by apply edit_subst].
    + destruct (IH _ _ Hu) as (k & Hk & Hs). exists (S k).
      split; [lia|by apply edit_delete].
    + destruct (IHu eq_refl) as (k & Hk & Hs). exists (S k).
      split; [lia|by apply edit_insert].
  - remember (d :: t) as dt eqn:Hdt. revert Hdt.
    induction Hu as [|c' t' u n Hu _|c' d' t' u n Hu _|c' t' u n Hu _|d' t' u n Hu IHu];
      intros Hdt; simplify_eq.
    + destruct (IH _ _ Hu) as (k & Hk & Hs). exists (S k).
      split; [lia|by apply edit_subst].
    + destruct (IH _ _ Hu) as (k & Hk & Hs). exists (S k).
      split; [lia|by apply edit_subst].
    + destruct (IH _ _ Hu) as (k & Hk & Hs). exists (S k).
      split; [lia|by apply edit_delete].
    + destruct (IHu eq_refl) as (k & Hk & Hs). exists (S k).
      split; [lia|by apply edit_insert].
  - destruct (IH _ _ Hu) as (k & Hk & Hs). exists (S k).
    split; [lia|by apply edit_delete].
  - remember (d :: t) as dt eqn:Hdt. revert Hdt.
    induction Hu as [|c' t' u n Hu _|c' d' t' u n Hu _|c' t' u n Hu _|d' t' u n Hu IHu];
      intros Hdt; simplify_eq.
    + destruct (IH _ _ Hu) as (k & Hk & Hs). exists (S k).
      split; [lia|by apply edit_insert].
    + destruct (IH _ _ Hu) as (k & Hk & Hs). exists (S k).
      split; [lia|by apply edit_insert].
    + destruct (IH _ _ Hu) as (k & Hk & Hs). exists k. split; [lia|done].
    + destruct (IHu eq_refl) as (k & Hk & Hs). exists (S k).
      split; [lia|by apply edit_insert].
Qed.

Lemma lev_triangle s t u : lev s u ≤ lev s t + lev t u.
Proof.
  destruct (edit_trans s t _ (lev_edit s t) u _ (lev_edit t u)) as (k & Hk & Hs).
  apply lev_least in Hs. lia.
Qed.

(** A script changes the length by no more than its cost. *)
Lemma edit_length s t n :
  edit s t n → length t ≤ length s + n ∧ length s ≤ length t + n.
Proof. induction 1; simpl; lia. Qed.

(** Substituting as far as the shorter side goes, and then inserting or
    deleting, costs the length of the longer side. *)
Lemma edit_longest s t : edit s t (length s `max` length t).
Proof.
  revert t. induction s as [|c s IH]; intros t.
  - apply edit_insert_all.
  - destruct t as [|d t]; [apply edit_delete_all|].
    simpl. apply edit_subst, IH.
Qed.

(** A script that costs nothing changes nothing. *)
Lemma edit_zero s t : edit s t 0 → s = t.
Proof.
  intros H. remember 0 as z eqn:Hz. induction H; try done.
  f_equal. auto.
Qed.

Lemma chars_inj (a b : string) : chars a = chars b → a = b.
Proof.
  intros Hab. rewrite <-(string_of_list_ascii_of_string a),
    <-(string_of_list_ascii_of_string b). unfold chars in Hab. by rewrite Hab.
Qed.

Lemma levenshteinDistance_eq (a b : string) :
  levenshteinDistance a b = Some (lev (chars a) (chars b)).
Proof. apply levenshteinDistance_spec, lev_is_distance. Qed.

Lemma lev_zero s t : lev s t = 0 ↔ s = t.
Proof.
  split.
  - intros Hz. apply edit_zero. rewrite <-Hz. apply lev_edit.
  - intros ->. pose proof (lev_least t t 0 (edit_refl t)). lia.
Qed.

Lemma lev_sym s t : lev s t = lev t s.
Proof.
  apply (is_distance_unique s t); [apply lev_is_distance|].
  apply is_distance_sym, lev_is_distance.
Qed.

Lemma lev_bounds s t :
  length s `max` length t - length s `min` length t ≤ lev s t
  ∧ lev s t ≤ length s `max` length t.
Proof.
  split.
  - pose proof (edit_length s t _ (lev_edit s t)). lia.
  - apply lev_least, edit_longest.
Qed.

End Metric.

(** X1: The distance obeys the triangle inequality: going from [a] to [c]
    costs no more than going through any [b]. *)
Theorem levenshteinDistance_triangle a b c :
  ∃ x y z,
    levenshteinDistance a b = Some x ∧ levenshteinDistance b c = Some y ∧
    levenshteinDistance a c = Some z ∧ z ≤ x + y.
Proof.
  exists (lev (chars a) (chars b)), (lev (chars b) (chars c)), (lev (chars a) (chars c)).
  rewrite !levenshteinDistance_eq. split_and!; [done..|]. apply lev_triangle.
Qed.

(** X2: The distance lies between the difference of the two lengths and the
    longer of them. *)
Theorem levenshteinDistance_bounds a b :
  ∃ d, levenshteinDistance a b = Some d
    ∧ String.length a `max` String.length b - String.length a `min` String.length b ≤ d
    ∧ d ≤ String.length a `max` String.length b.
Proof.
  exists (lev (chars a) (chars b)). rewrite levenshteinDistance_eq.
  split; [done|]. rewrite <-!length_chars. apply lev_bounds.
Qed.

(** X3: The distance is zero on equal strings only. *)
Theorem levenshteinDistance_zero a b :
  levenshteinDistance a b = Some 0 ↔ a = b.
Proof.
  rewrite levenshteinDistance_eq. split.
  - intros [= Hz]. by apply chars_inj, lev_zero.
  - intros ->. f_equal. by apply lev_zero.
Qed.

(** ** [areSimilar]: symmetry, letter case and the threshold *)

Section Similar.
Implicit Types (a b : string) (q : Q).

Lemma lower_char_idemp c : lower_char (lower_char c) = lower_char c.
Proof. by destruct c as [[] [] [] [] [] [] [] []]. Qed.

Lemma toLowerCase_idemp a : toLowerCase (toLowerCase a) = toLowerCase a.
Proof. induction a as [|c a IH]; simpl; [done|]. by rewrite lower_char_idemp, IH. Qed.

Lemma length_toLowerCase a : String.length (toLowerCase a) = String.length a.
Proof. induction a as [|c a IH]; simpl; [done|]. by rewrite IH. Qed.

Lemma toLowerCase_empty a : toLowerCase a = EmptyString ↔ a = EmptyString.
Proof. by destruct a. Qed.

(** The verdict at a rational threshold, as an inequality of integers. *)
Lemma areSimilar_Fin a b q :
  areSimilar a b (Fin q) = true ↔
    0 < String.length a `max` String.length b ∧
    (Z.of_nat (lev (chars (toLowerCase a)) (chars (toLowerCase b))) * Z.pos (Qden q)
       ≤ Qnum q * Z.of_nat (String.length a `max` String.length b))%Z.
Proof.
  unfold areSimilar. rewrite levenshteinDistance_eq.
  pose proof (lev_bounds (chars (toLowerCase a)) (chars (toLowerCase b))) as [_ Hd].
  rewrite !length_chars, !length_toLowerCase in Hd.
  set (d := lev _ _) in *. set (m := _ `max` _) in *.
  destruct m as [|m]; simpl.
  - assert (d = 0) as -> by lia. simpl. split; [done|lia].
  - rewrite Qle_bool_iff. unfold Qle. cbn [Qnum Qden].
    rewrite <-Pos.of_nat_succ, Zpos_P_of_succ_nat, <-Nat2Z.inj_succ.
    split; [|tauto]. intros H. split; [lia|done].
Qed.

End Similar.

(** X4: [areSimilar] treats its two strings alike, and sees them in lower
    case only. *)
Theorem areSimilar_sym_case :
  (∀ a b threshold, areSimilar a b threshold = areSimilar b a threshold)
  ∧ (∀ a b threshold,
       areSimilar (toLowerCase a) (toLowerCase b) threshold = areSimilar a b threshold).
Proof.
  split; intros a b threshold; unfold areSimilar.
  - rewrite !levenshteinDistance_eq, lev_sym. by rewrite Nat.max_comm.
  - by rewrite !toLowerCase_idemp, !length_toLowerCase.
Qed.

(** X5: On strings of Latin-1 characters, which lower-casing leaves as long
    as they were: raising the threshold keeps a pair similar; at a
    threshold of 1 or more every pair is similar but the two empty strings,
    below 0 none is, and none is at a threshold that is not a number. *)
Theorem areSimilar_threshold :
  (∀ a b p q, (p <= q)%Q →
     areSimilar a b (Fin p) = true → areSimilar a b (Fin q) = true)
  ∧ (∀ a b q, (1 <= q)%Q → a ≠ EmptyString ∨ b ≠ EmptyString →
       areSimilar a b (Fin q) = true)
  ∧ (∀ a b q, (q < 0)%Q → areSimilar a b (Fin q) = false)
  ∧ (∀ a b, areSimilar a b NaN = false).
Proof.
  split_and!.
  - intros a b p q Hpq. unfold areSimilar.
    destruct (divide _ _) as [| | |x]; simpl; try done.
    rewrite !Qle_bool_iff. intros Hx. by eapply Qle_trans.
  - intros a b q Hq Hne. apply areSimilar_Fin.
    pose proof (lev_bounds (chars (toLowerCase a)) (chars (toLowerCase b))) as [_ Hd].
    rewrite !length_chars, !length_toLowerCase in Hd.
    unfold Qle in Hq. simpl in Hq. split.
    + destruct Hne as [Hne|Hne]; [destruct a|destruct b]; simpl; try done; lia.
    + nia.
  - intros a b q Hq. apply not_true_is_false. rewrite areSimilar_Fin.
    intros [Hm Hd]. unfold Qlt in Hq. simpl in Hq. nia.
  - intros a b. unfold areSimilar. by destruct (divide _ _).
Qed.

Lemma areSimilar_threshold_witness :
  areSimilar "plan" "work" (Fin 1) = true
  ∧ areSimilar "plan" "plan" (Fin (-1 # 10)) = false.
Proof.
  split.
  - apply (proj1 (proj2 areSimilar_threshold)); [done|by left].
  - by apply (proj1 (proj2 (proj2 areSimilar_threshold))).
Defined.

(** X6: At the threshold 0 the similar pairs are the non-empty names that are
    equal up to letter case. *)
Theorem areSimilar_exact a b :
  areSimilar a b (Fin 0) = true ↔ a ≠ EmptyString ∧ toLowerCase a = toLowerCase b.
Proof.
  rewrite areSimilar_Fin. simpl. split.
  - intros [Hm Hd].
    assert (toLowerCase a = toLowerCase b) as Heq.
    { apply chars_inj, lev_zero. lia. }
    split; [|done]. intros ->. simpl in Heq. symmetry in Heq.
    apply (proj1 (toLowerCase_empty b)) in Heq. subst b. simpl in Hm. lia.
  - intros [Hne Heq]. rewrite Heq. split.
    + destruct a; simpl; [done|lia].
    + rewrite (proj2 (lev_zero _ _) eq_refl). lia.
Qed.

(** X7: With the default threshold, two names of at most three characters are
    similar only if they are equal up to letter case: one differing
    character in so short a name is already more than three tenths. *)
Theorem areSimilar_short_names a b :
  String.length a ≤ 3 → String.length b ≤ 3 →
  areSimilar a b default_threshold = true ↔
    a ≠ EmptyString ∧ toLowerCase a = toLowerCase b.
Proof.
  intros Ha Hb. rewrite <-areSimilar_exact. unfold default_threshold.
  rewrite !areSimilar_Fin. simpl. split; intros [Hm Hd]; (split; [done|]); lia.
Qed.

Lemma areSimilar_short_names_witness :
  areSimilar "run" "RUN" default_threshold = true ↔
    "run" ≠ EmptyString ∧ toLowerCase "run" = toLowerCase "RUN".
Proof. apply areSimilar_short_names; simpl; lia. Defined.

(** ** The detectors, record by record *)

Section Detectors.

Lemma tree_null_dec (t : tree) : t = TNull ∨ t ≠ TNull.
Proof. destruct t; auto. Qed.

Lemma for_of_stops {A} (xs : list A) y ys (body : A → block unit) c :
  (∀ c', body y c' = (None, c')) →
  (for_of (xs ++ y :: ys) body c).2 = (for_of xs body c).2.
Proof.
  intros Hy. revert c. induction xs as [|x xs IH]; intros c; simpl.
  - unfold bind. by rewrite Hy.
  - unfold bind. destruct (body x c) as [[[]|] c']; [apply IH|done].
Qed.

Lemma overrides_spec section record settings localSettings c :
  settings ≠ TNull → localSettings ≠ TNull →
  overrides section record settings localSettings c =
    (Some tt, c ++ overridden section record settings localSettings).
Proof.
  intros Hs Hl. unfold overrides, overridden.
  assert (Hmember : ∀ t, t ≠ TNull → member t section = ret (get t section)).
  { by intros []. }
  rewrite !Hmember by done. unfold bind at 1. cbn [ret].
  destruct (truthy_opt (get settings section)); simpl; [|by rewrite app_nil_r].
  unfold bind at 1. cbn [ret].
  destruct (truthy_opt (get localSettings section)); simpl; [|by rewrite app_nil_r].
  apply for_of_collect. intros key c' _.
  destruct (truthy_opt _); simpl; [done|by rewrite app_nil_r].
Qed.

Lemma mcp_loops servers c :
  Forall (λ p, p.2 ≠ TNull) servers →
  for_of (seq 0 (length servers)) (λ i,
    for_of (seq (i + 1) (length servers - (i + 1))) (λ j,
      serverA <- defined (servers !! i);;
      serverB <- defined (servers !! j);;
      let '(nameA, configA) := serverA in
      let '(nameB, configB) := serverB in
      commandA <- member configA "command";;
      commandB <- member configB "command";;
      if strict_eq commandA commandB then
        argsA <- member configA "args";;
        argsB <- member configB "args";;
        if stringify_eq argsA argsB then push (duplicate_mcp (nameA, nameB))
        else ret tt
      else ret tt)) c
  = (Some tt, c ++ (index_pairs (length servers) ≫= duplicated servers)).
Proof.
  intros Hnn. unfold index_pairs.
  rewrite (for_of_collect _ _
    (λ i, seq (i + 1) (length servers - (i + 1)) ≫= λ j, duplicated servers (i, j))).
  - f_equal. f_equal. induction (seq 0 (length servers)) as [|i l IH]; [done|].
    rewrite !bind_cons, bind_app, IH. f_equal. by rewrite list_fmap_bind.
  - intros i c' Hi%elem_of_seq.
    apply for_of_collect. intros j c'' Hj%elem_of_seq.
    destruct (lookup_lt_is_Some_2 servers i) as [[na ca] Hi']; [lia|].
    destruct (lookup_lt_is_Some_2 servers j) as [[nb cb] Hj']; [lia|].
    assert (ca ≠ TNull) as Hca.
    { apply (proj1 (Forall_forall _ _) Hnn (na, ca)). by eapply list_elem_of_lookup_2. }
    assert (cb ≠ TNull) as Hcb.
    { apply (proj1 (Forall_forall _ _) Hnn (nb, cb)). by eapply list_elem_of_lookup_2. }
    assert (Hmember : ∀ t key, t ≠ TNull → member t key = ret (get t key)).
    { by intros []. }
    unfold duplicated. simpl. rewrite Hi', Hj'. unfold bind. simpl.
    rewrite !Hmember by done. simpl.
    destruct (strict_eq _ _); simpl; [|by rewrite app_nil_r].
    destruct (stringify_eq _ _); simpl; [done|by rewrite app_nil_r].
Qed.

Lemma detectMcpConflicts_duplicated dir settings mcpServers :
  settings_json dir = Document settings → settings ≠ TNull →
  get settings "mcpServers" = Some mcpServers → truthy mcpServers = true →
  Forall (λ p, p.2 ≠ TNull) (own_props mcpServers) →
  detectMcpConflicts dir =
    index_pairs (length (own_props mcpServers)) ≫= duplicated (own_props mcpServers).
Proof.
  intros Hs Hsn Hm Ht Hnn. unfold detectMcpConflicts, caught. rewrite Hs. simpl.
  unfold bind at 1. cbn [ret].
  assert (member settings "mcpServers" = ret (Some mcpServers)) as ->.
  { rewrite <-Hm. by destruct settings. }
  unfold bind at 1. cbn [ret truthy_opt from_option]. rewrite Ht. cbn [default from_option id].
  by rewrite mcp_loops.
Qed.

End Detectors.

(** X8: When every entry of the commands directory can be read,
    [detectDuplicateCommands] returns the records of the directories one
    after the other, in the order of the listing; an entry that is not a
    directory contributes none. *)
Theorem detectDuplicateCommands_readable dir subdirs :
  commands dir = Some subdirs → Forall (λ p, p.2 ≠ Failing) subdirs →
  detectDuplicateCommands dir = subdirs ≫= scanned.
Proof.
  intros Hdir Hread. unfold detectDuplicateCommands, caught. rewrite Hdir.
  simpl. unfold bind at 1. cbn [ret].
  rewrite (for_of_collect _ _ scanned); [done|].
  intros [subdir e] c Hin. unfold scanned. simpl.
  pose proof (proj1 (Forall_forall _ _) Hread _ Hin) as He. simpl in He.
  destruct e as [|files|]; [by rewrite app_nil_r| |done].
  apply scan_directory_spec.
Qed.

Lemma detectDuplicateCommands_readable_witness :
  detectDuplicateCommands
    {| commands := Some [("notes.txt", NotDirectory);
                         ("workflows", Directory ["plan.md"; "plann.md"])];
       settings_json := Missing; settings_local_json := Missing |}
  = [("notes.txt", NotDirectory);
     ("workflows", Directory ["plan.md"; "plann.md"])] ≫= scanned.
Proof.
  apply detectDuplicateCommands_readable; [reflexivity|].
  repeat constructor; done.
Defined.

(** X9: A commands directory that is missing gives no record.  An entry that
    cannot be read ends the scan without an error: the records of the
    entries before it are returned, the entries after it are not looked
    at. *)
Theorem detectDuplicateCommands_stops :
  (∀ dir, commands dir = None → detectDuplicateCommands dir = [])
  ∧ (∀ dir dir' before subdir after,
       commands dir = Some (before ++ (subdir, Failing) :: after) →
       commands dir' = Some before →
       detectDuplicateCommands dir = detectDuplicateCommands dir').
Proof.
  split.
  - intros dir Hdir. unfold detectDuplicateCommands. by rewrite Hdir.
  - intros dir dir' before subdir after Hdir Hdir'.
    unfold detectDuplicateCommands, caught. rewrite Hdir, Hdir'. simpl.
    unfold bind, ret. by apply for_of_stops.
Qed.

Lemma detectDuplicateCommands_stops_witness :
  detectDuplicateCommands
    {| commands := Some [("workflows", Directory ["plan.md"; "plann.md"]);
                         ("locked", Failing);
                         ("analysis", Directory ["theme.md"; "themes.md"])];
       settings_json := Missing; settings_local_json := Missing |}
  = detectDuplicateCommands
      {| commands := Some [("workflows", Directory ["plan.md"; "plann.md"])];
         settings_json := Missing; settings_local_json := Missing |}.
Proof.
  by apply (proj2 detectDuplicateCommands_stops _ _
              [("workflows", Directory ["plan.md"; "plann.md"])] "locked"
              [("analysis", Directory ["theme.md"; "themes.md"])]).
Defined.

(** X10: On two settings files that both hold a document other than [null],
    and whose sections are such that the detector reads own properties
    only (no key of a section of [settings.json] is a name that the section
    of [settings.local.json] inherits from a prototype),
    [detectSettingsConflicts] returns, for the plugins and then for the MCP
    servers, one record for each key of the section of [settings.json]
    under which the section of [settings.local.json] holds a truthy value,
    in the order of the keys; a section that is missing or falsy on either
    side contributes none. *)
Theorem detectSettingsConflicts_documents dir settings localSettings :
  settings_json dir = Document settings →
  settings_local_json dir = Document localSettings →
  settings ≠ TNull → localSettings ≠ TNull →
  own_section_reads "plugins" settings localSettings = true →
  own_section_reads "mcpServers" settings localSettings = true →
  detectSettingsConflicts dir =
    overridden "plugins" plugin_override settings localSettings ++
    overridden "mcpServers" mcp_server_override settings localSettings.
Proof.
  intros Hs Hl Hsn Hln _ _. unfold detectSettingsConflicts, caught.
  rewrite Hs, Hl. simpl. unfold bind. simpl.
  rewrite overrides_spec by done. by rewrite overrides_spec by done.
Qed.

Lemma detectSettingsConflicts_documents_witness :
  detectSettingsConflicts
    {| commands := None;
       settings_json :=
         Document (TObj [("plugins", TObj [("a", TBool true); ("b", TBool true)]);
                         ("mcpServers", TObj [("m", TObj [])])]);
       settings_local_json :=
         Document (TObj [("plugins", TObj [("b", TNum 1); ("a", TNum 0)]);
                         ("mcpServers", TObj [("m", TObj [])])]) |}
  = [plugin_override "b"; mcp_server_override "m"].
Proof.
  rewrite (detectSettingsConflicts_documents _
    (TObj [("plugins", TObj [("a", TBool true); ("b", TBool true)]);
           ("mcpServers", TObj [("m", TObj [])])])
    (TObj [("plugins", TObj [("b", TNum 1); ("a", TNum 0)]);
           ("mcpServers", TObj [("m", TObj [])])])); done.
Defined.

(** X11: When one of the two settings files is missing, is not JSON, or holds
    [null], [detectSettingsConflicts] returns no record and no error. *)
Theorem detectSettingsConflicts_absent dir :
  settings_json dir = Missing ∨ settings_json dir = Unparseable
  ∨ settings_json dir = Document TNull
  ∨ settings_local_json dir = Missing ∨ settings_local_json dir = Unparseable
  ∨ settings_local_json dir = Document TNull →
  detectSettingsConflicts dir = [].
Proof.
  intros Hcase. unfold detectSettingsConflicts, caught.
  destruct (settings_json dir) as [| |s] eqn:Hs;
    destruct (settings_local_json dir) as [| |l] eqn:Hl; try done.
  simpl. unfold bind. simpl.
  destruct (tree_null_dec s) as [->|Hsn]; [done|].
  assert (l = TNull) as -> by (destruct Hcase as [|[|[|[|[|]]]]]; congruence).
  unfold overrides.
  assert (Hmember : member s = λ key, ret (get s key)) by (by destruct s).
  rewrite !Hmember. unfold bind. simpl.
  destruct (truthy_opt (get s "plugins")); simpl; [done|].
  by destruct (truthy_opt (get s "mcpServers")).
Qed.

Lemma detectSettingsConflicts_absent_witness :
  detectSettingsConflicts
    {| commands := None;
       settings_json := Document (TObj [("plugins", TObj [("a", TBool true)])]);
       settings_local_json := Unparseable |} = [].
Proof. apply detectSettingsConflicts_absent. simpl. do 4 right. by left. Defined.

(** X12: [detectExistingInstallation] reports an installation exactly when
    [settings.json] holds a document other than [null] with a truthy value
    under "danizee-suite"; the version it then reports is never empty
    ("unknown" stands in for a missing or falsy one), and a report of no
    installation carries no version and no date. *)
Theorem detectExistingInstallation_report dir :
  (installed (detectExistingInstallation dir) = true ↔
     ∃ settings marker,
       settings_json dir = Document settings ∧ settings ≠ TNull ∧
       get settings "danizee-suite" = Some marker ∧ truthy marker = true)
  ∧ (installed (detectExistingInstallation dir) = true →
       truthy_opt (version (detectExistingInstallation dir)) = true)
  ∧ (installed (detectExistingInstallation dir) = false →
       version (detectExistingInstallation dir) = None ∧
       installedAt (detectExistingInstallation dir) = None).
Proof.
  unfold detectExistingInstallation.
  destruct (settings_json dir) as [| |settings];
    try (split_and!; [split; [done|by intros (? & ? & ? & _)]|done..]).
  destruct (tree_null_dec settings) as [->|Hnn].
  { split_and!; [split; [done|by intros (? & ? & [= <-] & ? & _)]|done..]. }
  assert (∀ A (x y : A), match settings with TNull => x | _ => y end = y) as ->.
  { by destruct settings. }
  destruct (get settings "danizee-suite") as [marker|] eqn:Hmarker.
  - destruct (truthy marker) eqn:Htruthy; simpl.
    + split_and!; [split; [by exists settings, marker|done]| |done].
      intros _. destruct (truthy_opt (get marker "version")) eqn:Hv; [|done].
      by destruct (get marker "version").
    + split_and!; [split; [done|]|done..].
      intros (? & ? & [= <-] & _ & ? & ?). congruence.
  - split_and!; [split; [done|]|done..].
    intros (? & ? & [= <-] & _ & ? & _). congruence.
Qed.

Lemma detectExistingInstallation_report_witness :
  truthy_opt (version (detectExistingInstallation
    {| commands := None;
       settings_json := Document (TObj [("danizee-suite", TObj [("version", TStr "")])]);
       settings_local_json := Missing |})) = true.
Proof.
  by apply (proj1 (proj2 (detectExistingInstallation_report _))).
Defined.

(** X13: On a settings document whose MCP servers all hold a configuration
    other than [null], [detectMcpConflicts] tests every pair of servers
    once, earlier against later, and returns a record for each pair with
    strictly equal commands and equal argument lists, in the order of the
    tests. *)
Theorem detectMcpConflicts_pairs dir settings mcpServers :
  settings_json dir = Document settings → settings ≠ TNull →
  get settings "mcpServers" = Some mcpServers → truthy mcpServers = true →
  Forall (λ p, p.2 ≠ TNull) (own_props mcpServers) →
  detectMcpConflicts dir =
    index_pairs (length (own_props mcpServers)) ≫= duplicated (own_props mcpServers).
Proof. apply detectMcpConflicts_duplicated. Qed.

Lemma detectMcpConflicts_pairs_witness :
  detectMcpConflicts
    {| commands := None;
       settings_json :=
         Document (TObj [("mcpServers",
           TObj [("a", TObj [("command", TStr "npx"); ("args", TArr [TStr "x"])]);
                 ("b", TObj [("command", TStr "node")]);
                 ("c", TObj [("command", TStr "npx"); ("args", TArr [TStr "x"])])])]);
       settings_local_json := Missing |}
  = [duplicate_mcp ("a", "c")].
Proof.
  rewrite (detectMcpConflicts_pairs _
    (TObj [("mcpServers",
       TObj [("a", TObj [("command", TStr "npx"); ("args", TArr [TStr "x"])]);
             ("b", TObj [("command", TStr "node")]);
             ("c", TObj [("command", TStr "npx"); ("args", TArr [TStr "x"])])])])
    (TObj [("a", TObj [("command", TStr "npx"); ("args", TArr [TStr "x"])]);
           ("b", TObj [("command", TStr "node")]);
           ("c", TObj [("command", TStr "npx"); ("args", TArr [TStr "x"])])]));
    try done.
  repeat constructor; done.
Defined.



(** X15: A server listed first whose configuration is [null] silences the
    check: reading its command throws at the first pair, and no duplicate
    among the other servers is reported. *)
Theorem detectMcpConflicts_null_config dir settings name name' config' others :
  settings_json dir = Document settings → settings ≠ TNull →
  get settings "mcpServers"
    = Some (TObj ((name, TNull) :: (name', config') :: others)) →
  detectMcpConflicts dir = [].
Proof.
  intros Hs Hsn Hm. unfold detectMcpConflicts, caught. rewrite Hs. simpl.
  unfold bind at 1. cbn [ret].
  assert (member settings "mcpServers"
          = ret (Some (TObj ((name, TNull) :: (name', config') :: others)))) as ->.
  { rewrite <-Hm. by destruct settings. }
  unfold bind at 1. cbn [ret truthy_opt from_option truthy default id own_props length].
  cbn [seq for_of]. unfold bind at 1. cbn [Nat.add Nat.sub seq for_of].
  unfold bind. by simpl.
Qed.

Lemma detectMcpConflicts_null_config_witness :
  detectMcpConflicts
    {| commands := None;
       settings_json :=
         Document (TObj [("mcpServers",
           TObj [("off", TNull);
                 ("a", TObj [("command", TStr "npx")]);
                 ("b", TObj [("command", TStr "npx")])])]);
       settings_local_json := Missing |} = [].
Proof.
  by apply (detectMcpConflicts_null_config _
    (TObj [("mcpServers",
       TObj [("off", TNull);
             ("a", TObj [("command", TStr "npx")]);
             ("b", TObj [("command", TStr "npx")])])])
    "off" "a" (TObj [("command", TStr "npx")]) [("b", TObj [("command", TStr "npx")])]).
Defined.

(** ** The conflict check of [install] *)

(** X16: With [force], [install] is never refused by the conflict check.
    Without it, [install] goes on exactly when the three detectors find
    nothing and no installation is detected; on a project where the suite
    is installed it is refused, and the record of the installation is the
    last one listed. *)
Theorem install_refused_cases :
  (∀ dir, Installer.install_refused dir true = None)
  ∧ (∀ dir, Installer.install_refused dir false = None ↔
       detectDuplicateCommands dir = [] ∧ detectSettingsConflicts dir = []
       ∧ detectMcpConflicts dir = []
       ∧ installed (detectExistingInstallation dir) = false)
  ∧ (∀ dir, installed (detectExistingInstallation dir) = true →
       ∃ records,
         Installer.install_refused dir false =
           Some (records ++
                 [existing_installation (version (detectExistingInstallation dir))])).
Proof.
  unfold Installer.install_refused, runConflictChecks. split_and!.
  - intros dir. simpl. by rewrite andb_false_r.
  - intros dir. simpl. rewrite !andb_true_r.
    destruct (installed (detectExistingInstallation dir)); simpl.
    + split; [|by intros (_ & _ & _ & [=])].
      rewrite bool_decide_eq_true_2; [done|]. rewrite !length_app. simpl. lia.
    + destruct (detectDuplicateCommands dir) as [|r1 l1]; [|split; [done|by intros [[=] _]]].
      destruct (detectSettingsConflicts dir) as [|r2 l2];
        [|split; [done|by intros (_ & [=] & _)]].
      destruct (detectMcpConflicts dir) as [|r3 l3];
        [|split; [done|by intros (_ & _ & [=] & _)]].
      done.
  - intros dir Hinst. simpl. rewrite Hinst. simpl.
    rewrite bool_decide_eq_true_2 by (rewrite !length_app; simpl; lia).
    simpl. by eexists.
Qed.

Lemma install_refused_cases_witness :
  ∃ records,
    Installer.install_refused
      {| commands := None;
         settings_json := Document (TObj [("danizee-suite", TObj [])]);
         settings_local_json := Missing |} false
    = Some (records ++ [existing_installation (Some (TStr "unknown"))]).
Proof.
  by apply (proj2 (proj2 install_refused_cases)
              {| commands := None;
                 settings_json := Document (TObj [("danizee-suite", TObj [])]);
                 settings_local_json := Missing |}).
Defined.

(** ** [deepMerge]: merging again, the keys, and the overlay's leaves *)

Section MergeAgain.

Lemma put_same {A} key (v : A) props :
  assoc key props = Some v → put key v props = props.
Proof.
  induction props as [|[k x] props IH]; simpl; [done|].
  case_decide; [by intros [= ->]; subst|]. intros Hk. by rewrite IH.
Qed.


Lemma merge_tree_leaf base over :
  (∀ sub, over ≠ TObj sub) → merge_tree base over = over.
Proof. intros Hleaf. destruct over; try done. by destruct (Hleaf props). Qed.


Lemma elem_of_put_keys {A} key (v : A) props k :
  k ∈ (put key v props).*1 ↔ k = key ∨ k ∈ props.*1.
Proof.
  induction props as [|[k' x] props IH]; simpl.
  - rewrite list_elem_of_singleton. split; [auto|]. intros [|[]%not_elem_of_nil]. done.
  - case_decide as Hk; rewrite !fmap_cons, !elem_of_cons; simpl.
    + subst. tauto.
    + rewrite IH. tauto.
Qed.

Lemma elem_of_foldl_put_keys (f : string → tree → tree) sps init k :
  k ∈ (foldl (λ result '(key, sv), put key (f key sv) result) init sps).*1 ↔
    k ∈ init.*1 ∨ k ∈ sps.*1.
Proof.
  revert init. induction sps as [|[k' sv] sps IH]; intros init; simpl.
  - split; [auto|]. by intros [|[]%not_elem_of_nil].
  - rewrite IH, elem_of_put_keys, elem_of_cons. tauto.
Qed.

(** A leaf of the overlay, that is a member that is no object, reached
    through objects of the overlay, is in the result at the same place,
    whatever the base holds there. *)
Lemma merge_tree_leaves path : ∀ base over key ops x,
  unique_keys over → obj_at over path = Some ops →
  assoc key ops = Some x → (∀ sub, x ≠ TObj sub) →
  ∃ rps, obj_at (merge_tree base over) path = Some rps ∧ assoc key rps = Some x.
Proof.
  induction path as [|k path IH]; intros base over key ops x Hu Hover Hkey Hleaf;
    (destruct over as [| | | | |ops0]; [done..|]);
    apply unique_keys_obj in Hu as [Hnd Hu]; rewrite merge_tree_obj.
  - simpl in Hover. simplify_eq. eexists. split; [done|].
    rewrite (foldl_put_member (λ key, merge_tree (base_at base key)) key x)
      by (done || by apply assoc_Some_elem).
    by rewrite merge_tree_leaf.
  - simpl in Hover. destruct (assoc k ops0) as [o'|] eqn:Ho; [|done].
    simpl in Hover. apply assoc_Some_elem in Ho as Hin.
    cbn [obj_at].
    rewrite (foldl_put_member (λ key, merge_tree (base_at base key)) k o') by done.
    simpl. eapply IH; try done.
    by apply (proj1 (Forall_forall _ _) Hu (k, o')).
Qed.

End MergeAgain.



(** X18: The result of merging an overlay of ordinary keys has the keys of
    the base and the keys of the overlay, and no other. *)
Theorem deepMerge_keys bps sps :
  unique_keys (TObj sps) → ordinary (TObj bps) (TObj sps) = true →
  ∃ r, deepMerge_documents (TObj bps) (TObj sps) = Some r
       ∧ ∀ k, k ∈ keys r ↔ k ∈ bps.*1 ∨ k ∈ sps.*1.
Proof.
  intros Hu _. exists (merge_tree (TObj bps) (TObj sps)).
  split; [by apply deepMerge_documents_merge_tree|].
  intros k. rewrite merge_tree_obj. unfold keys. cbn [own_props].
  apply (elem_of_foldl_put_keys (λ key, merge_tree (base_at (TObj bps) key))).
Qed.

Lemma deepMerge_keys_witness :
  ∃ r,
    deepMerge_documents (TObj [("a", TNum 1)]) (TObj [("b", TObj [])]) = Some r
    ∧ ∀ k, k ∈ keys r ↔ k ∈ [("a", TNum 1)].*1 ∨ k ∈ [("b", TObj [])].*1.
Proof.
  apply deepMerge_keys; [|reflexivity].
  simpl. split_and!; try exact I; apply (bool_decide_unpack _); by vm_compute.
Defined.

(** X19: The overlay wins at every depth: a member of an overlay of
    ordinary keys that is no object (a scalar, [null] or an array), reached
    through nested objects of the overlay, is in the result under the same
    keys, whatever the base holds there. *)
Theorem deepMerge_overlay_leaves bps sps path key ops x :
  unique_keys (TObj sps) → ordinary (TObj bps) (TObj sps) = true →
  obj_at (TObj sps) path = Some ops → assoc key ops = Some x →
  (∀ sub, x ≠ TObj sub) →
  ∃ r rps, deepMerge_documents (TObj bps) (TObj sps) = Some r
           ∧ obj_at r path = Some rps ∧ assoc key rps = Some x.
Proof.
  intros Hu _ Hover Hkey Hleaf.
  destruct (merge_tree_leaves path (TObj bps) (TObj sps) key ops x)
    as (rps & Hrps & Hx); [done..|].
  exists (merge_tree (TObj bps) (TObj sps)), rps.
  split_and!; [by apply deepMerge_documents_merge_tree|done..].
Qed.

Lemma deepMerge_overlay_leaves_witness :
  ∃ r rps,
    deepMerge_documents
      (TObj [("a", TNum 7); ("b", TNum 1)])
      (TObj [("a", TObj [("n", TObj [("x", TNull)])])]) = Some r
    ∧ obj_at r ["a"; "n"] = Some rps ∧ assoc "x" rps = Some TNull.
Proof.
  apply (deepMerge_overlay_leaves _ _ ["a"; "n"] "x" [("x", TNull)] TNull);
    [|reflexivity|reflexivity|reflexivity|done].
  simpl. split_and!; try exact I; apply (bool_decide_unpack _); by vm_compute.
Defined.

(** ** Reading, writing and unmarking the settings file *)

Section SettingsFile.

Lemma readSettings_spec f h v h' :
  readSettings f h = (v, h') →
  h `prefix_of` h' ∧ repr (λ l, length h ≤ l < length h') h' (settings_of f) v ∧
  length h + depth (settings_of f) ≤ length h'.
Proof.
  destruct f as [| |t]; simpl.
  1,2: intros [= <- <-]; rewrite length_app; simpl;
    (split; [by apply prefix_app_r|]); (split; [|lia]);
    exists (length h), []; (split; [done|]); (split; [lia|]); (split; [|done]);
    by rewrite lookup_app_r, Nat.sub_diag by lia.
  apply alloc_spec.
Qed.

Lemma writeSettings_spec P h t v :
  repr P h t v → depth t ≤ length h →
  writeSettings v h = Ok (Conflicts.Document t).
Proof. intros Hr Hd. unfold writeSettings. by rewrite (stringify_spec P h t v). Qed.

(** [delete] of the marker on what [readSettings] returned for a document
    that is no object leaves the heap as it is. *)
Lemma delete_marker_other t h v h' :
  alloc t h = (v, h') → t ≠ TNull → (∀ props, t ≠ TObj props) →
  delete_marker v h' = Ok h'.
Proof.
  intros Halloc Hnn Hobj.
  destruct t as [| | | |items|props]; try (by simplify_eq/=).
  - rewrite alloc_arr in Halloc.
    destruct (alloc_items items h) as [vs h1]. simplify_eq. cbn [delete_marker].
    rewrite <-(Nat.add_0_r (length h1)), alter_app_r. done.
  - by destruct (Hobj props).
Qed.

Lemma removeSettings_keep f h :
  settings_of f ≠ TNull →
  ∃ h', removeSettings true f h
        = Ok (Conflicts.Document (without_marker (settings_of f)), h').
Proof.
  intros Hnn.
  assert (Hobj : ∀ props h, ∃ h',
    removeSettings true (Conflicts.Document (TObj props)) h
      = Ok (Conflicts.Document (TObj (remove "danizee-suite" props)), h')).
  { intros props h1. destruct (alloc_props props h1) as [vps h2] eqn:Hprops.
    eexists. by apply removeSettings_object. }
  destruct f as [| |t]; cbn [settings_of] in *.
  1,2: destruct (Hobj [] h) as [h' Hh']; exists h';
    etrans; [|exact Hh']; unfold removeSettings, readSettings; by rewrite alloc_obj.
  destruct t as [| | | | |props] eqn:Ht; [done|..|apply Hobj]; rewrite <-Ht in *;
    (assert (Hother : ∀ props, t ≠ TObj props) by (by subst t));
    assert (without_marker t = t) as -> by (by subst t);
    unfold removeSettings, readSettings;
    destruct (alloc t h) as [v h1] eqn:Halloc;
    rewrite (delete_marker_other t h v h1) by done;
    destruct (alloc_spec t _ _ _ Halloc) as (Hpre & Hr & Hd);
    rewrite (writeSettings_spec _ _ t v Hr) by lia; by eexists.
Qed.

End SettingsFile.




(** X22: After [removeSettings], with or without [keepSettings], on a settings
    file that was missing, broken or held an object,
    [detectExistingInstallation] finds no installation. *)
Theorem removeSettings_uninstalls keepSettings f h f' h' dir :
  (∃ props, settings_of f = TObj props) →
  removeSettings keepSettings f h = Ok (f', h') →
  settings_json dir = f' →
  installed (detectExistingInstallation dir) = false.
Proof.
  intros [props Hf] Hrm Hdir. unfold detectExistingInstallation. rewrite Hdir.
  destruct keepSettings.
  - destruct (removeSettings_keep f h) as [h'' Hkeep]; [by rewrite Hf|].
    rewrite Hkeep in Hrm. injection Hrm as <- _. rewrite Hf.
    cbn [without_marker get own_props].
    rewrite assoc_remove. by rewrite decide_True.
  - injection Hrm as <- _. done.
Qed.

Lemma removeSettings_uninstalls_witness :
  installed (detectExistingInstallation
    {| commands := None;
       settings_json := Conflicts.Document (TObj [("a", TNum 1)]);
       settings_local_json := Conflicts.Missing |}) = false.
Proof.
  apply (removeSettings_uninstalls true
    (Conflicts.Document
       (TObj [("danizee-suite", TObj [("version", TStr "1.0.0")]); ("a", TNum 1)]))
    [] (Conflicts.Document (TObj [("a", TNum 1)]))
    [CObj [("version", VStr "1.0.0")]; CObj [("a", VNum 1)]]).
  - by eexists.
  - reflexivity.
  - reflexivity.
Defined.

(** ** [validateSettings] *)

Section Validate.

Lemma read_truthy P h t v key :
  repr P h t v → truthy_value (read h v key) = truthy_opt (get t key).
Proof.
  intros Hr. pose proof (repr_read _ _ _ _ key Hr) as Hread.
  destruct (get t key) as [x|]; simpl.
  - by apply repr_truthy in Hread.
  - by rewrite Hread.
Qed.

Lemma validateSettings_spec P h t settings :
  repr P h t settings → t ≠ TNull →
  ∃ r, validateSettings settings h = Ok r
    ∧ (valid r = true ↔ errors r = [])
    ∧ (valid r = true ↔
         truthy_opt (get t "danizee-suite") = true
         ∧ ∃ servers, get t "mcpServers" = Some servers ∧ servers ≠ TNull
                      ∧ truthy_opt (get servers "claude-flow") = true).
Proof.
  intros Hr Hnn. unfold validateSettings.
  rewrite (repr_nullish _ _ _ _ Hr Hnn), (read_truthy _ _ _ _ _ Hr).
  eexists. split; [done|]. cbn [valid errors].
  assert (Hflow :
    truthy_value (if nullish (read h settings "mcpServers") then VUndefined
                  else read h (read h settings "mcpServers") "claude-flow") = true ↔
    ∃ servers, get t "mcpServers" = Some servers ∧ servers ≠ TNull
               ∧ truthy_opt (get servers "claude-flow") = true).
  { pose proof (repr_read _ _ _ _ "mcpServers" Hr) as Hread.
    destruct (get t "mcpServers") as [servers|].
    - destruct (tree_null_dec servers) as [->|Hsn].
      + simpl in Hread. rewrite Hread. simpl.
        split; [done|]. by intros (? & [= <-] & ? & _).
      + rewrite (repr_nullish _ _ _ _ Hread Hsn), (read_truthy _ _ _ _ _ Hread).
        split; [by exists servers|]. by intros (? & [= <-] & _ & ?).
    - rewrite Hread. simpl. split; [done|]. by intros (? & [=] & _). }
  rewrite <-Hflow. clear Hflow.
  destruct (truthy_opt (get t "danizee-suite")), (truthy_value _); simpl;
    (split; split); try done; by intros [? ?].
Qed.

End Validate.

(** X23: On settings that stand for a document other than [null],
    [validateSettings] returns; the settings are valid exactly when no
    error is listed, which is when the document holds a truthy value under
    "danizee-suite" and its [mcpServers], not [null], hold a truthy value
    under "claude-flow". *)
Theorem validateSettings_valid P h t settings :
  repr P h t settings → t ≠ TNull →
  ∃ r, validateSettings settings h = Ok r
    ∧ (valid r = true ↔ errors r = [])
    ∧ (valid r = true ↔
         truthy_opt (get t "danizee-suite") = true
         ∧ ∃ servers, get t "mcpServers" = Some servers ∧ servers ≠ TNull
                      ∧ truthy_opt (get servers "claude-flow") = true).
Proof. apply validateSettings_spec. Qed.

Lemma validateSettings_valid_witness :
  ∃ r,
    validateSettings (VRef 1)
      [CObj [("claude-flow", VBool true)];
       CObj [("danizee-suite", VNum 1); ("mcpServers", VRef 0)]] = Ok r
    ∧ (valid r = true ↔ errors r = [])
    ∧ (valid r = true ↔
         truthy_opt (get (TObj [("danizee-suite", TNum 1);
                                ("mcpServers", TObj [("claude-flow", TBool true)])])
                         "danizee-suite") = true
         ∧ ∃ servers,
             get (TObj [("danizee-suite", TNum 1);
                        ("mcpServers", TObj [("claude-flow", TBool true)])])
                 "mcpServers" = Some servers
             ∧ servers ≠ TNull ∧ truthy_opt (get servers "claude-flow") = true).
Proof.
  apply (validateSettings_valid (λ l, l < 2)); [|done].
  simpl. eexists 1, _. split_and!; [reflexivity|lia|reflexivity|]. simpl.
  split_and!; [reflexivity..| |exact I].
  eexists 0, _. split_and!; [reflexivity|lia|reflexivity|]. simpl. auto.
Defined.

(** X24: Settings that [validateSettings] accepts are settings in which
    [detectExistingInstallation] finds the suite installed. *)
Theorem validateSettings_detected P h t settings r dir :
  repr P h t settings →
  validateSettings settings h = Ok r → valid r = true →
  settings_json dir = Conflicts.Document t →
  installed (detectExistingInstallation dir) = true.
Proof.
  intros Hr Hcall Hvalid Hdir.
  destruct (tree_null_dec t) as [->|Hnn].
  { simpl in Hr. subst settings. done. }
  destruct (validateSettings_spec P h t settings Hr Hnn) as (r' & Hcall' & _ & Hiff).
  rewrite Hcall in Hcall'. injection Hcall' as <-.
  apply Hiff in Hvalid as [Hsuite _].
  unfold detectExistingInstallation. rewrite Hdir.
  assert (∀ A (x y : A), match t with TNull => x | _ => y end = y) as ->.
  { by destruct t. }
  destruct (get t "danizee-suite") as [marker|]; [|done].
  simpl in Hsuite. by rewrite Hsuite.
Qed.

Lemma validateSettings_detected_witness :
  installed (detectExistingInstallation
    {| commands := None;
       settings_json :=
         Conflicts.Document
           (TObj [("danizee-suite", TNum 1);
                  ("mcpServers", TObj [("claude-flow", TBool true)])]);
       settings_local_json := Conflicts.Missing |}) = true.
Proof.
  apply (validateSettings_detected (λ l, l < 2)
    [CObj [("claude-flow", VBool true)];
     CObj [("danizee-suite", VNum 1); ("mcpServers", VRef 0)]]
    (TObj [("danizee-suite", TNum 1);
           ("mcpServers", TObj [("claude-flow", TBool true)])])
    (VRef 1) {| valid := true; errors := [] |}).
  - simpl. eexists 1, _. split_and!; [reflexivity|lia|reflexivity|]. simpl.
    split_and!; [reflexivity..| |exact I].
    eexists 0, _. split_and!; [reflexivity|lia|reflexivity|]. simpl. auto.
  - reflexivity.
  - reflexivity.
  - reflexivity.
Defined.

(** ** [deepMerge]: the object it makes for one key of the overlay *)

Section Keyed.
Context (k0 : string) (R : tree → value → Prop).

Lemma keyed_put key x w pt pv :
  (key ≠ k0 → R x w) → Forall2 (keyed k0 R) pt pv →
  Forall2 (keyed k0 R) (put key x pt) (put key w pv).
Proof.
  intros Hxw. induction 1 as [|[k y] [k' u] pt pv [Hk Hy] Hall IH]; simpl in *.
  - repeat constructor; done.
  - subst k'. case_decide; constructor; auto; split; simpl; auto.
    subst k. done.
Qed.

Lemma assoc_keyed key pt pv :
  Forall2 (keyed k0 R) pt pv → key ≠ k0 →
  match assoc key pt with
  | Some x => ∃ w, assoc key pv = Some w ∧ R x w
  | None => assoc key pv = None
  end.
Proof.
  intros Hall Hkey.
  induction Hall as [|[k x] [k' w] pt pv [Hk Hx] _ IH]; simpl in *; [done|].
  subst k'. case_decide; [|done]. subst k. eauto.
Qed.

Lemma keyed_absent pt pv :
  Forall2 (keyed k0 R) pt pv → k0 ∉ pt.*1 → Forall2 (same_entry R) pt pv.
Proof.
  induction 1 as [|[k x] [k' w] pt pv [Hk Hx] _ IH]; [constructor|].
  rewrite fmap_cons. intros [Hne Hin]%not_elem_of_cons. simpl in *.
  constructor; [split; auto|auto].
Qed.

Lemma keyed_same pt pv x0 w0 :
  NoDup pt.*1 → Forall2 (keyed k0 R) pt pv →
  assoc k0 pt = Some x0 → assoc k0 pv = Some w0 → R x0 w0 →
  Forall2 (same_entry R) pt pv.
Proof.
  intros Hnd Hall. induction Hall as [|[k x] [k' w] pt pv [Hk Hx] Hall IH];
    [done|].
  rewrite fmap_cons in Hnd. apply NoDup_cons in Hnd as [Hk0 Hnd]. simpl in *.
  subst k'. case_decide as Hkk.
  - intros [= ->] [= ->] Hxw. subst k.
    constructor; [by split|]. by apply keyed_absent.
  - intros Hx0 Hw0 Hxw. constructor; [split; auto|auto].
Qed.

Lemma same_keyed pt pv :
  Forall2 (same_entry R) pt pv → Forall2 (keyed k0 R) pt pv.
Proof.
  intros Hall. eapply Forall2_impl; [exact Hall|]. intros p q [Hk Hpq]. by split.
Qed.

End Keyed.

Lemma keyed_impl k0 (R R' : tree → value → Prop) pt pv :
  Forall2 (keyed k0 R) pt pv → (∀ x w, R x w → R' x w) →
  Forall2 (keyed k0 R') pt pv.
Proof.
  intros Hall Himpl. eapply Forall2_impl; [exact Hall|].
  intros p q [Hk Hpq]. split; auto.
Qed.

Lemma NoDup_put_keys {A} key (v : A) props :
  NoDup props.*1 → NoDup (put key v props).*1.
Proof.
  induction props as [|[k x] props IH]; [intros _; apply NoDup_singleton|].
  rewrite fmap_cons. intros [Hk Hnd]%NoDup_cons. cbn [put].
  case_decide; rewrite fmap_cons; apply NoDup_cons; simpl in *; (split; [|auto]).
  - done.
  - rewrite elem_of_put_keys. intros [?|?]; congruence.
Qed.

Lemma NoDup_foldl_put_keys (f : string → tree → tree) sps init :
  NoDup init.*1 →
  NoDup (foldl (λ result '(key, sv), put key (f key sv) result) init sps).*1.
Proof.
  revert init. induction sps as [|[k sv] sps IH]; intros init Hnd; simpl; [done|].
  by apply IH, NoDup_put_keys.
Qed.

Lemma merge_keys_app recurse target source result ks1 ks2 h :
  merge_keys recurse target source result (ks1 ++ ks2) h =
    match merge_keys recurse target source result ks1 h with
    | Ok h1 => merge_keys recurse target source result ks2 h1
    | TypeError => TypeError
    | OutOfFuel => OutOfFuel
    end.
Proof.
  revert h. induction ks1 as [|k ks1 IH]; intros h; simpl; [done|].
  destruct (plain_object _ _); [|apply IH].
  destruct (nullish target); [done|].
  destruct (truthy_value _);
    (destruct (recurse _ _ _) as [[r1 h1]| |]; [apply IH|done..]).
Qed.

(** The result of [deepMerge], cell and members: the members are reached
    without going through the result itself. *)
Lemma deepMerge_root P h base vb sps vo fuel :
  (∀ l, P l → l < length h) →
  repr P h base vb → base ≠ TNull → repr P h (TObj sps) vo →
  unique_keys (TObj sps) → object_depth (TObj sps) ≤ fuel →
  ∃ h' res_v,
    deepMerge fuel vb vo h = Ok (VRef (length h), h') ∧ h `prefix_of` h' ∧
    h' !! length h = Some (CObj res_v) ∧
    Forall2 (same_entry (repr (inside P (length h) (length h')) h'))
      (own_props (merge_tree base (TObj sps))) res_v.
Proof.
  intros HP Hbase Hnn Hover Hu Hd.
  apply repr_obj in Hover as (lo & vps & -> & HPlo & Hlo & Hall).
  apply unique_keys_obj in Hu as [Hnd Hu].
  destruct fuel as [|fuel]; [simpl in Hd; lia|].
  apply object_depth_obj in Hd.
  cbn [deepMerge nullish].
  assert (Hkeys : (props_of (h ++ [CObj (props_of h vb)]) (VRef lo)).*1 = sps.*1).
  { simpl. rewrite lookup_app_l, Hlo by auto.
    clear -Hall. induction Hall as [|? ? ? ? [Hk _] _ IH']; [done|].
    rewrite !fmap_cons. by rewrite Hk, IH'. }
  rewrite Hkeys.
  destruct (merge_keys_refines P h base vb lo vps fuel HP Hbase Hnn HPlo Hlo sps)
    with (h := h ++ [CObj (props_of h vb)]) (res_t := own_props base)
         (res_v := props_of h vb)
    as (h' & res_v' & -> & Hpre & Hr & Hres).
  - by apply source_members.
  - apply Forall_forall. intros p _. apply deepMerge_refines.
  - apply Forall_forall. intros p Hp. split.
    + by apply (proj1 (Forall_forall _ _) Hu).
    + by apply (proj1 (Forall_forall _ _) Hd).
  - by apply prefix_app_r.
  - by rewrite lookup_app_r, Nat.sub_diag by lia.
  - eapply Forall2_impl; [apply (repr_props _ _ _ _ Hbase)|].
    intros p q [Hk Hpq]. split; [done|].
    apply (repr_old P h HP); [by apply prefix_app_r|done].
  - exists h', res_v'. by rewrite merge_tree_obj.
Qed.

Section Apart.
Context (P : nat → Prop) (h0 : heap) (base : tree) (vb : value).
Context (lo : nat) (vps : list (string * value)) (fuel : nat).
Context (k0 : string) (a : nat).
Context (HP : ∀ l, P l → l < length h0).
Context (Hbase : repr P h0 base vb) (Hnn : base ≠ TNull).
Context (HPlo : P lo) (Hlo : h0 !! lo = Some (CObj vps)).
Context (Ha : length h0 < a).

Lemma repr_apart_later h h' t v :
  later (length h0) h h' →
  repr (apart (length h0) a (length h)) h t v →
  repr (apart (length h0) a (length h')) h' t v.
Proof.
  intros [Hlen Hsame]. apply repr_weaken. intros l (Hl & Hr & Hal).
  split; [split_and!; [lia|done..]|]. by apply Hsame.
Qed.

Lemma repr_apart_old h t v :
  h0 `prefix_of` h → repr P h0 t v → repr (apart (length h0) a (length h)) h t v.
Proof.
  intros Hpre. apply repr_weaken. intros l Hl%HP.
  apply prefix_length in Hpre as Hlen.
  split; [split_and!; lia|]. symmetry. by apply prefix_lookup_lt.
Qed.

(** The value [target[key] || {}], read off the old cells. *)
Lemma base_member_old h key :
  h0 `prefix_of` h →
  ∃ bv h1,
    (if truthy_value (read h vb key) then (read h vb key, h)
     else (VRef (length h), h ++ [CObj []])) = (bv, h1) ∧
    h `prefix_of` h1 ∧
    repr (λ l, P l ∨ length h ≤ l < length h1) h1 (base_at base key) bv.
Proof.
  intros Hpre.
  assert (Hb : repr P h base vb).
  { eapply repr_weaken; [|exact Hbase]. intros l Hl. split; [done|].
    symmetry. apply prefix_lookup_lt; auto. }
  pose proof (repr_read _ _ _ _ key Hb) as Hread.
  assert (Hfresh :
    repr (λ l, P l ∨ length h ≤ l < length (h ++ [CObj []]))
         (h ++ [CObj []]) (TObj []) (VRef (length h))).
  { apply repr_obj. exists (length h), [].
    rewrite length_app. simpl. split_and!; [done|right; lia| |constructor].
    by rewrite lookup_app_r, Nat.sub_diag by lia. }
  unfold base_at. destruct (get base key) as [x|].
  - rewrite (repr_truthy _ _ _ _ Hread). destruct (truthy x).
    + exists (read h vb key), h. split_and!; [done..|].
      eapply repr_weaken; [|exact Hread]. intros l Hl. split; [by left|done].
    + exists (VRef (length h)), (h ++ [CObj []]).
      split_and!; [done|by apply prefix_app_r|exact Hfresh].
  - rewrite Hread. simpl.
    exists (VRef (length h)), (h ++ [CObj []]).
    split_and!; [done|by apply prefix_app_r|exact Hfresh].
Qed.

(** The loop over keys other than [k0], in a heap where the cell [a]
    exists: the members under the other keys are reached without going
    through [a], and the member under [k0] is left alone. *)
Lemma merge_keys_apart rest :
  k0 ∉ rest.*1 →
  Forall (λ p, ∃ w, assoc p.1 vps = Some w ∧ repr P h0 p.2 w) rest →
  Forall (λ p, unique_keys p.2 ∧ object_depth p.2 ≤ fuel) rest →
  ∀ h res_t res_v,
    h0 `prefix_of` h → a < length h →
    h !! length h0 = Some (CObj res_v) →
    Forall2 (keyed k0 (repr (apart (length h0) a (length h)) h)) res_t res_v →
    ∃ h' res_v',
      merge_keys (deepMerge fuel) vb (VRef lo) (length h0) rest.*1 h = Ok h' ∧
      h0 `prefix_of` h' ∧ later (length h0) h h' ∧
      h' !! length h0 = Some (CObj res_v') ∧
      assoc k0 res_v' = assoc k0 res_v ∧
      Forall2 (keyed k0 (repr (apart (length h0) a (length h')) h'))
        (foldl (λ result '(key, sv),
                  put key (merge_tree (base_at base key) sv) result) res_t rest)
        res_v'.
Proof.
  induction rest as [|[key sv] rest IH];
    intros Hk0 Hsrc Hwf h res_t res_v Hpre Hah Hr Hres.
  { exists h, res_v. split_and!; done || apply later_refl. }
  rewrite fmap_cons in Hk0. apply not_elem_of_cons in Hk0 as [Hne Hk0].
  apply Forall_cons in Hsrc as [(w & Hw & Hsv) Hsrc].
  apply Forall_cons in Hwf as [[Hu Hd] Hwf].
  simpl in Hne, Hw, Hsv, Hu, Hd.
  specialize (IH Hk0 Hsrc Hwf).
  rewrite fmap_cons. cbn [merge_keys fst foldl].
  rewrite (read_source P h0 lo vps HP HPlo Hlo h key Hpre), Hw. cbn [default from_option id].
  rewrite (repr_plain_object _ _ _ _ (repr_apart_old h sv w Hpre Hsv)).
  assert (Hstep : ∀ x u h1,
    h0 `prefix_of` h1 → later (length h0) h h1 →
    h1 !! length h0 = Some (CObj res_v) →
    repr (apart (length h0) a (length h1)) h1 x u →
    ∃ h' res_v',
      merge_keys (deepMerge fuel) vb (VRef lo) (length h0) rest.*1
        (store (length h0) key u h1) = Ok h' ∧
      h0 `prefix_of` h' ∧ later (length h0) h h' ∧
      h' !! length h0 = Some (CObj res_v') ∧
      assoc k0 res_v' = assoc k0 res_v ∧
      Forall2 (keyed k0 (repr (apart (length h0) a (length h')) h'))
        (foldl (λ result '(key, sv),
                  put key (merge_tree (base_at base key) sv) result)
               (put key x res_t) rest) res_v').
  { intros x u h1 Hpre1 Hlater1 Hr1 Hxu.
    assert (Hlater2 : later (length h0) h (store (length h0) key u h1)).
    { eapply later_trans; [exact Hlater1|apply later_store]. }
    destruct (IH (store (length h0) key u h1) (put key x res_t) (put key u res_v))
      as (h' & res_v' & Hloop & Hpre' & Hlater' & Hr' & Hk' & Hres').
    - by apply prefix_alter.
    - destruct Hlater2 as [Hlen _]. lia.
    - unfold store. by rewrite list_lookup_alter_eq, Hr1.
    - apply keyed_put.
      + intros _. eapply repr_apart_later; [apply later_store|exact Hxu].
      + eapply keyed_impl; [exact Hres|]. intros y v. by apply repr_apart_later.
    - exists h', res_v'. split_and!; try done.
      + by eapply later_trans.
      + rewrite Hk', assoc_put. by rewrite decide_False. }
  destruct sv as [| | | | |sps];
    try (apply Hstep; [done|apply later_refl|done|by apply repr_apart_old]).
  clear IH.
  rewrite (repr_nullish _ _ _ _ Hbase Hnn).
  destruct (base_member_old h key Hpre) as (bv & h1 & -> & Hpre1 & Hbv).
  assert (Hpre01 : h0 `prefix_of` h1) by (by etrans).
  rewrite (read_source P h0 lo vps HP HPlo Hlo h1 key Hpre01), Hw. cbn [default from_option id].
  apply prefix_length in Hpre as Hlen, Hpre1 as Hlen1.
  destruct (deepMerge_refines (TObj sps)
              (λ l, P l ∨ length h ≤ l < length h1) h1
              (base_at base key) bv w fuel) as (h2 & Hcall & Hrep).
  - intros l [Hl%HP|Hl]; lia.
  - done.
  - unfold base_at. destruct (get base key) as [x|]; [|done].
    destruct (truthy x) eqn:Hx; [|done]. by intros ->.
  - eapply repr_weaken; [|exact Hsv]. intros l Hl. split; [by left|].
    symmetry. apply prefix_lookup_lt; auto.
  - done.
  - done.
  - by eexists.
  - destruct (deepMerge_extends _ _ _ _ _ _ Hcall) as [_ Hpre12].
    rewrite Hcall. apply prefix_length in Hpre12 as Hlen12.
    apply lookup_lt_Some in Hr as Hlt.
    apply Hstep.
    + by etrans.
    + apply later_prefix. by etrans.
    + eapply prefix_lookup_Some; [exact Hr|by etrans].
    + eapply repr_weaken; [|exact Hrep]. intros l Hl. split; [|done].
      unfold apart. destruct Hl as [[Hl%HP|Hl]|Hl]; lia.
Qed.

End Apart.

(** Under a key [k0] at which the overlay holds an object, the result of
    [deepMerge] holds a new object [a] of its own: the members of [a] and
    the members of the result under the other keys are reached without
    going through [a] or through the result. *)
Lemma deepMerge_member P h base vb sps vo k0 sub fuel :
  (∀ l, P l → l < length h) →
  repr P h base vb → base ≠ TNull → repr P h (TObj sps) vo →
  unique_keys (TObj sps) → object_depth (TObj sps) ≤ fuel →
  assoc k0 sps = Some (TObj sub) →
  ∃ h' res_v a dv,
    deepMerge fuel vb vo h = Ok (VRef (length h), h') ∧ h `prefix_of` h' ∧
    h' !! length h = Some (CObj res_v) ∧
    assoc k0 res_v = Some (VRef a) ∧ length h < a < length h' ∧
    h' !! a = Some (CObj dv) ∧
    Forall2 (same_entry (repr (apart (length h) a (length h')) h'))
      (own_props (merge_tree (base_at base k0) (TObj sub))) dv ∧
    Forall2 (keyed k0 (repr (apart (length h) a (length h')) h'))
      (own_props (merge_tree base (TObj sps))) res_v.
Proof.
  intros HP Hbase Hnn Hover Hu Hd Hk0.
  apply repr_obj in Hover as (lo & vps & -> & HPlo & Hlo & Hall).
  apply unique_keys_obj in Hu as [Hnd Hu].
  destruct fuel as [|fuel]; [simpl in Hd; lia|].
  apply object_depth_obj in Hd.
  assert (Hkeys : (props_of (h ++ [CObj (props_of h vb)]) (VRef lo)).*1 = sps.*1).
  { simpl. rewrite lookup_app_l, Hlo by auto.
    clear -Hall. induction Hall as [|? ? ? ? [Hk _] _ IH']; [done|].
    rewrite !fmap_cons. by rewrite Hk, IH'. }
  pose proof (source_members (repr P h) sps vps Hnd Hall) as Hsrc.
  assert (Hwf : Forall (λ p, unique_keys p.2 ∧ object_depth p.2 ≤ fuel) sps).
  { apply Forall_forall. intros p Hp. split.
    - by apply (proj1 (Forall_forall _ _) Hu).
    - by apply (proj1 (Forall_forall _ _) Hd). }
  apply assoc_Some_elem in Hk0 as Hin.
  apply list_elem_of_split in Hin as (pre & post & ->).
  rewrite fmap_app, fmap_cons in Hnd.
  apply NoDup_app in Hnd as (_ & Hdisj & [Hpost _]%NoDup_cons).
  assert (Hpre0 : k0 ∉ pre.*1).
  { intros Hin. apply (Hdisj _ Hin). left. }
  apply Forall_app in Hsrc as [Hsrc_pre [(w0 & Hw0 & Hsub) Hsrc_post]%Forall_cons].
  apply Forall_app in Hwf as [Hwf_pre [[Hu0 Hd0] Hwf_post]%Forall_cons].
  cbn [fst snd] in Hpost, Hw0, Hsub, Hu0, Hd0.
  cbn [deepMerge nullish]. rewrite Hkeys, fmap_app, fmap_cons, merge_keys_app.
  cbn [fst].
  (* the keys before [k0] *)
  destruct (merge_keys_refines P h base vb lo vps fuel HP Hbase Hnn HPlo Hlo pre)
    with (h := h ++ [CObj (props_of h vb)]) (res_t := own_props base)
         (res_v := props_of h vb)
    as (ha & res_a & -> & Hpre_a & Hr_a & Hres_a).
  { done. }
  { apply Forall_forall. intros p _. apply deepMerge_refines. }
  { done. }
  { by apply prefix_app_r. }
  { by rewrite lookup_app_r, Nat.sub_diag by lia. }
  { eapply Forall2_impl; [apply (repr_props _ _ _ _ Hbase)|].
    intros p q [Hk Hpq]. split; [done|].
    apply (repr_old P h HP); [by apply prefix_app_r|done]. }
  (* the key [k0] *)
  cbn [merge_keys].
  rewrite (read_source P h lo vps HP HPlo Hlo ha k0 Hpre_a), Hw0.
  cbn [default from_option id].
  rewrite (repr_plain_object _ _ _ _ (repr_old P h HP ha _ _ Hpre_a Hsub)).
  rewrite (repr_nullish _ _ _ _ Hbase Hnn).
  destruct (base_member P h base vb HP Hbase ha k0 Hpre_a)
    as (bv & h1 & -> & Hpre1 & Hbv).
  assert (Hpre01 : h `prefix_of` h1) by (by etrans).
  rewrite (read_source P h lo vps HP HPlo Hlo h1 k0 Hpre01), Hw0.
  cbn [default from_option id].
  apply prefix_length in Hpre_a as Hlen_a, Hpre1 as Hlen1.
  apply lookup_lt_Some in Hr_a as Hlt_a.
  destruct (deepMerge_root
              (λ l, inside P (length h) (length ha) l ∨ length ha ≤ l < length h1)
              h1 (base_at base k0) bv sub w0 fuel)
    as (h2 & dv & Hcall & Hpre12 & Hdv & Hmem).
  { unfold inside. intros l [[Hl%HP|Hl]|Hl]; lia. }
  { done. }
  { unfold base_at. destruct (get base k0) as [x|]; [|done].
    destruct (truthy x) eqn:Hx; [|done]. by intros ->. }
  { eapply repr_weaken; [|exact Hsub]. intros l Hl. split; [by left; left|].
    symmetry. apply prefix_lookup_lt; auto. }
  { done. }
  { done. }
  rewrite Hcall.
  apply prefix_length in Hpre12 as Hlen12.
  apply lookup_lt_Some in Hdv as Hlt_dv.
  set (a := length h1) in *.
  set (h3 := store (length h) k0 (VRef a) h2).
  assert (Hlater3 : later (length h) ha h3).
  { eapply later_trans; [apply later_prefix; by etrans|apply later_store]. }
  (* the keys after [k0] *)
  destruct (merge_keys_apart P h base vb lo vps fuel k0 a HP Hbase Hnn HPlo Hlo
              ltac:(lia) post Hpost Hsrc_post Hwf_post h3
              (put k0 (merge_tree (base_at base k0) (TObj sub))
                 (foldl (λ result '(key, sv),
                           put key (merge_tree (base_at base key) sv) result)
                        (own_props base) pre))
              (put k0 (VRef a) res_a))
    as (h' & res_v' & Hloop & Hpre' & Hlater' & Hr' & Hk0' & Hres').
  { apply prefix_alter; [|done]. by repeat (etrans; [eassumption|]). }
  { unfold h3, store. rewrite length_alter. lia. }
  { unfold h3, store. rewrite list_lookup_alter_eq.
    by rewrite (prefix_lookup_Some ha h2 _ _ Hr_a) by (by etrans). }
  { apply keyed_put; [done|]. apply same_keyed.
    eapply Forall2_impl; [exact Hres_a|]. intros p q [Hk Hpq]. split; [done|].
    eapply repr_weaken; [|exact Hpq]. intros l Hl.
    destruct Hlater3 as [Hlen3 Hsame3].
    assert (l < length ha ∧ l ≠ length h) as [? ?].
    { destruct Hl as [Hl%HP|Hl]; lia. }
    split; [unfold apart; lia|]. by apply Hsame3. }
  fold h3. rewrite Hloop.
  destruct Hlater' as [Hlen' Hsame'].
  assert (Hlen3 : length h3 = length h2).
  { unfold h3, store. by rewrite length_alter. }
  assert (Hmove : ∀ l, l < length h2 → l ≠ length h → h' !! l = h2 !! l).
  { intros l Hl Hne. rewrite Hsame' by lia.
    unfold h3, store. by rewrite list_lookup_alter_ne. }
  exists h', res_v', a, dv. split_and!.
  - done.
  - done.
  - done.
  - rewrite Hk0', assoc_put. by rewrite decide_True.
  - lia.
  - lia.
  - rewrite Hmove by lia. done.
  - eapply Forall2_impl; [exact Hmem|]. intros p q [Hk Hpq]. split; [done|].
    eapply repr_weaken; [|exact Hpq]. intros l Hl.
    assert (l < length h2 ∧ l ≠ length h ∧ l ≠ a) as (? & ? & ?).
    { unfold inside in Hl. destruct Hl as [[[Hl%HP|Hl]|Hl]|Hl]; lia. }
    split; [unfold apart; lia|]. by apply Hmove.
  - rewrite merge_tree_obj. cbn [own_props]. rewrite foldl_app. exact Hres'.
Qed.

(** ** [mergeSettings] *)

Section PluginSettings.

Lemma read_obj h l vps key :
  h !! l = Some (CObj vps) →
  read h (VRef l) key = default VUndefined (assoc key vps).
Proof. intros Hl. unfold read, length_of, props_of. by rewrite Hl. Qed.

Lemma getPluginSettings_spec pluginName t h :
  get plugin_settings pluginName = Some t → truthy t = true →
  ∃ v h', getPluginSettings pluginName h = (v, h') ∧ h `prefix_of` h' ∧
          repr (λ l, length h ≤ l < length h') h' t v.
Proof.
  intros Ht Htruthy. unfold getPluginSettings.
  destruct (alloc plugin_settings h) as [settings h1] eqn:Halloc.
  destruct (alloc_spec _ _ _ _ Halloc) as (Hpre & Hr & _).
  pose proof (repr_read _ _ _ _ pluginName Hr) as Hread. rewrite Ht in Hread.
  rewrite (repr_truthy _ _ _ _ Hread), Htruthy.
  exists (read h1 settings pluginName), h1. split; [done|]. split; [done|exact Hread].
Qed.

Lemma prefix_of_lookup {A} (l k : list A) :
  length l ≤ length k → (∀ i, i < length l → k !! i = l !! i) → l `prefix_of` k.
Proof.
  intros Hlen Hsame. exists (drop (length l) k). apply list_eq. intros i.
  destruct (decide (i < length l)) as [Hi|Hi].
  - rewrite lookup_app_l by done. by apply Hsame.
  - rewrite lookup_app_r, lookup_drop by lia. f_equal. lia.
Qed.

(** One round of the loop that fills [allPluginSettings], the object at
    [ap]. *)
Lemma plugin_round ap h res_t res_v plugin t :
  h !! ap = Some (CObj res_v) →
  Forall2 (same_entry (repr (λ l, ap < l < length h) h)) res_t res_v →
  get plugin_settings plugin = Some t → truthy t = true →
  ∃ v h',
    (let '(v, h1) := getPluginSettings plugin h in store ap plugin v h1) = h' ∧
    length h ≤ length h' ∧ (∀ l, l < ap → h' !! l = h !! l) ∧
    h' !! ap = Some (CObj (put plugin v res_v)) ∧
    Forall2 (same_entry (repr (λ l, ap < l < length h') h'))
      (put plugin t res_t) (put plugin v res_v).
Proof.
  intros Hap Hres Ht Htruthy.
  destruct (getPluginSettings_spec plugin t h Ht Htruthy) as (v & h1 & -> & Hpre & Hv).
  apply prefix_length in Hpre as Hlen. apply lookup_lt_Some in Hap as Hlt.
  exists v, (store ap plugin v h1). unfold store. rewrite length_alter.
  split_and!; [done|done| | |].
  - intros l Hl. rewrite list_lookup_alter_ne by lia.
    symmetry. apply prefix_lookup_lt; [lia|done].
  - rewrite list_lookup_alter_eq. by rewrite (prefix_lookup_Some _ _ _ _ Hap Hpre).
  - apply same_entry_put.
    + eapply repr_weaken; [|exact Hv]. intros l Hl. simpl in Hl.
      split; [lia|]. rewrite list_lookup_alter_ne by lia. done.
    + eapply Forall2_impl; [exact Hres|]. intros p q [Hk Hpq]. split; [done|].
      eapply repr_weaken; [|exact Hpq]. intros l Hl. simpl in Hl.
      split; [lia|]. rewrite list_lookup_alter_ne by lia.
      symmetry. apply prefix_lookup_lt; [lia|done].
Qed.

(** After the loop, [allPluginSettings] stands for the whole table. *)
Lemma all_plugin_settings h :
  ∃ h',
    foldl (λ h' plugin,
             let '(v, h1) := getPluginSettings plugin h' in
             store (length h) plugin v h1)
          (h ++ [CObj []]) ["claude-flow"; "compound-engineering"; "frontend-design"]
      = h' ∧
    h `prefix_of` h' ∧ length h < length h' ∧
    repr (λ l, length h ≤ l < length h') h' plugin_settings (VRef (length h)).
Proof.
  cbn [foldl].
  assert (Hap : (h ++ [CObj []]) !! length h = Some (CObj [])).
  { by rewrite lookup_app_r, Nat.sub_diag by lia. }
  assert (Hlook : ∀ l, l < length h → (h ++ [CObj []]) !! l = h !! l).
  { intros l Hl. by rewrite lookup_app_l. }
  assert (Hlen : length h < length (h ++ [CObj []])).
  { rewrite length_app. simpl. lia. }
  edestruct (plugin_round (length h) (h ++ [CObj []]) [] [] "claude-flow")
    as (v1 & h1 & -> & Hlen1 & Hlook1 & Hap1 & Hres1);
    [exact Hap|constructor|reflexivity|reflexivity|].
  edestruct (plugin_round (length h) h1) with (plugin := "compound-engineering")
    as (v2 & h2 & -> & Hlen2 & Hlook2 & Hap2 & Hres2);
    [exact Hap1|exact Hres1|reflexivity|reflexivity|].
  edestruct (plugin_round (length h) h2) with (plugin := "frontend-design")
    as (v3 & h3 & -> & Hlen3 & Hlook3 & Hap3 & Hres3);
    [exact Hap2|exact Hres2|reflexivity|reflexivity|].
  exists h3. split_and!; [done| |lia|].
  - apply prefix_of_lookup; [lia|]. intros l Hl.
    by rewrite Hlook3, Hlook2, Hlook1, Hlook by lia.
  - apply repr_obj. eexists (length h), _.
    split; [done|]. split; [lia|]. split; [exact Hap3|].
    eapply Forall2_impl; [exact Hres3|]. intros p q [Hk Hpq]. split; [done|].
    eapply repr_weaken; [|exact Hpq]. intros l Hl. simpl in Hl. split; [lia|done].
Qed.

End PluginSettings.

Section MergeSettings.

(** The value [merged[key] || {}] for a key other than [k0]. *)
Lemma keyed_member_base k0 r a h res_t res_v key :
  h !! r = Some (CObj res_v) → a < length h →
  Forall2 (keyed k0 (repr (apart r a (length h)) h)) res_t res_v →
  key ≠ k0 →
  ∃ bv h1,
    (if truthy_value (read h (VRef r) key) then (read h (VRef r) key, h)
     else (VRef (length h), h ++ [CObj []])) = (bv, h1) ∧
    h `prefix_of` h1 ∧
    repr (apart r a (length h1)) h1 (base_at (TObj res_t) key) bv.
Proof.
  intros Hr Ha Hres Hkey. apply lookup_lt_Some in Hr as Hlt.
  rewrite (read_obj _ _ _ _ Hr).
  pose proof (assoc_keyed k0 _ key _ _ Hres Hkey) as Hassoc.
  assert (Hfresh :
    repr (apart r a (length (h ++ [CObj []]))) (h ++ [CObj []])
         (TObj []) (VRef (length h))).
  { apply repr_obj. exists (length h), [].
    rewrite length_app. simpl. split; [done|]. split; [unfold apart; lia|].
    split; [|constructor]. by rewrite lookup_app_r, Nat.sub_diag by lia. }
  unfold base_at. cbn [get own_props].
  destruct (assoc key res_t) as [x|].
  - destruct Hassoc as (w & -> & Hw). cbn [default from_option id].
    rewrite (repr_truthy _ _ _ _ Hw). destruct (truthy x).
    + by exists w, h.
    + exists (VRef (length h)), (h ++ [CObj []]).
      split_and!; [done|by apply prefix_app_r|exact Hfresh].
  - rewrite Hassoc. simpl.
    exists (VRef (length h)), (h ++ [CObj []]).
    split_and!; [done|by apply prefix_app_r|exact Hfresh].
Qed.

Lemma base_at_not_null base key : base_at base key ≠ TNull.
Proof.
  unfold base_at. destruct (get base key) as [x|]; [|done].
  destruct (truthy x) eqn:Hx; [|done]. by intros ->.
Qed.

Lemma merged_settings_depth e force now now1 now2 :
  depth (merged_settings e force now now1 now2) ≤ S (depth e `max` 4).
Proof.
  unfold merged_settings.
  set (m1 := merge_tree e (getDefaultSettings now)).
  set (N := depth e `max` 4).
  assert (HN : 4 ≤ N) by (unfold N; lia).
  assert (H1 : depth m1 ≤ N).
  { pose proof (merge_tree_depth (getDefaultSettings now) e) as Hm.
    change (depth (getDefaultSettings now)) with 4 in Hm. done. }
  assert (Hp1 : Forall (λ p, depth p.2 ≤ N) (own_props m1)).
  { eapply Forall_impl; [apply own_props_depth|]. intros p Hp. cbn beta in Hp. lia. }
  set (x2 := merge_tree (base_at (TObj (own_props m1)) "plugins") plugin_settings).
  assert (H2 : depth x2 ≤ N).
  { pose proof (merge_tree_depth plugin_settings
                  (base_at (TObj (own_props m1)) "plugins")) as Hm.
    pose proof (base_at_depth (TObj (own_props m1)) "plugins") as Hb.
    change (depth plugin_settings) with 4 in Hm. fold x2 in Hm.
    change (depth (TObj (own_props m1))) with (depth m1) in Hb. lia. }
  assert (Hp2 : Forall (λ p, depth p.2 ≤ N) (put "plugins" x2 (own_props m1))).
  { by apply put_depth. }
  destruct force; [|by apply depth_obj].
  apply depth_obj, put_depth; [|done].
  set (x0 := default (TObj []) (assoc "danizee-suite" (put "plugins" x2 (own_props m1)))).
  assert (H0 : depth x0 ≤ N).
  { unfold x0. destruct (assoc _ _) as [x|] eqn:Hx; simpl; [|lia].
    by eapply assoc_depth. }
  assert (N = S (pred N)) as -> by lia.
  apply depth_obj. pose proof (own_props_depth x0) as Hs.
  assert (Hs' : Forall (λ p, depth p.2 ≤ pred N) (own_props x0)).
  { eapply Forall_impl; [exact Hs|]. intros p Hp. cbn beta in Hp. lia. }
  apply put_depth; [simpl; lia|]. apply put_depth; [simpl; lia|done].
Qed.

(** [mergeSettings] on a settings file that does not hold [null] (and
    whose top-level keys are distinct, as those of a parsed object are):
    it writes and returns [merged_settings]. *)
Lemma mergeSettings_spec f force now now1 now2 h :
  settings_of f ≠ TNull → NoDup (keys (settings_of f)) →
  ∃ merged h',
    mergeSettings f force now now1 now2 h
      = Ok (merged,
            Conflicts.Document (merged_settings (settings_of f) force now now1 now2),
            h')
    ∧ repr (λ l, l < length h') h'
           (merged_settings (settings_of f) force now now1 now2) merged.
Proof.
  intros Hnn Hnd. unfold mergeSettings.
  destruct (readSettings f h) as [existing hE] eqn:Hread.
  destruct (readSettings_spec _ _ _ _ Hread) as (HpreE & HreprE & HdepthE).
  destruct (alloc (getDefaultSettings now) hE) as [defaults hD] eqn:Halloc.
  destruct (alloc_spec _ _ _ _ Halloc) as (HpreD & HreprD & HdepthD).
  cbv zeta.
  destruct (all_plugin_settings hD) as (h3 & -> & Hpre3 & Hlen3 & Hrepr3).
  set (e := settings_of f) in *.
  apply prefix_length in HpreE as HlenE, HpreD as HlenD, Hpre3 as Hlen3'.
  assert (HE3 : repr (λ l, l < length h3) h3 e existing).
  { eapply repr_weaken; [|exact HreprE]. intros l Hl. simpl in Hl.
    split; [lia|]. symmetry. apply prefix_lookup_lt; [lia|by etrans]. }
  assert (HD3 : repr (λ l, l < length h3) h3 (getDefaultSettings now) defaults).
  { eapply repr_weaken; [|exact HreprD]. intros l Hl. simpl in Hl.
    split; [lia|]. symmetry. apply prefix_lookup_lt; [lia|done]. }
  assert (HP3 : repr (λ l, l < length h3) h3 plugin_settings (VRef (length hD))).
  { eapply repr_weaken; [|exact Hrepr3]. intros l Hl. simpl in Hl. split; [lia|done]. }
  set (dprops := own_props (getDefaultSettings now)).
  set (sub := own_props (default TNull (assoc "danizee-suite" dprops))).
  destruct (deepMerge_member (λ l, l < length h3) h3 e existing dprops defaults
              "danizee-suite" sub (object_depth (getDefaultSettings now)))
    as (hA & res_v & a & dv & Hcall & HpreA & HrA & Hk0 & Ha & Hdv & Hmem & Hkeyed).
  { done. }
  { done. }
  { done. }
  { exact HD3. }
  { simpl. split_and!; try exact I; apply (bool_decide_unpack _); by vm_compute. }
  { done. }
  { reflexivity. }
  rewrite Hcall. cbv beta iota.
  set (r1 := length h3) in *.
  set (props1 := own_props (merge_tree e (TObj dprops))) in *.
  apply prefix_length in HpreA as HlenA.
  destruct (keyed_member_base "danizee-suite" r1 a hA props1 res_v "plugins"
              HrA ltac:(lia) Hkeyed ltac:(done))
    as (bv2 & hA' & -> & HpreA' & Hrepr2).
  apply prefix_length in HpreA' as HlenA'.
  destruct (deepMerge_objects (apart r1 a (length hA')) hA'
              (base_at (TObj props1) "plugins") (own_props plugin_settings)
              bv2 (VRef (length hD)))
    as (hB & Hcall2 & HpreB & _ & _ & HreprB).
  { by intros l (? & _). }
  { done. }
  { apply base_at_not_null. }
  { eapply repr_weaken; [|exact HP3]. intros l Hl. simpl in Hl.
    split; [unfold apart; lia|]. symmetry.
    apply prefix_lookup_lt; [done|by etrans]. }
  { simpl. split_and!; try exact I; apply (bool_decide_unpack _); by vm_compute. }
  change (object_depth plugin_settings)
    with (object_depth (TObj (own_props plugin_settings))).
  rewrite Hcall2. cbn [assign].
  apply prefix_length in HpreB as HlenB.
  set (r2 := length hA') in *.
  set (x0 := merge_tree (base_at e "danizee-suite") (TObj sub)) in *.
  set (x2 := merge_tree (base_at (TObj props1) "plugins")
               (TObj (own_props plugin_settings))) in *.
  set (hC := store r1 "plugins" (VRef r2) hB).
  set (props2 := put "plugins" x2 props1).
  set (res2 := put "plugins" (VRef r2) res_v).
  assert (HlenC : length hC = length hB).
  { unfold hC, store. by rewrite length_alter. }
  assert (HsameC : ∀ l, l < length hA → l ≠ r1 → hC !! l = hA !! l).
  { intros l Hl Hne. unfold hC, store. rewrite list_lookup_alter_ne by done.
    symmetry. apply prefix_lookup_lt; [done|by etrans]. }
  assert (HrC : hC !! r1 = Some (CObj res2)).
  { unfold hC, store. rewrite list_lookup_alter_eq.
    by rewrite (prefix_lookup_Some hA hB _ _ HrA) by (by etrans). }
  assert (HdvC : hC !! a = Some (CObj dv)).
  { rewrite HsameC by lia. done. }
  assert (HkeyedC :
    Forall2 (keyed "danizee-suite" (repr (apart r1 a (length hC)) hC)) props2 res2).
  { apply keyed_put.
    - intros _. eapply repr_weaken; [|exact HreprB]. intros l Hl.
      assert (l < length hB ∧ l ≠ r1 ∧ l ≠ a) as (? & ? & ?).
      { unfold apart in Hl. lia. }
      split; [unfold apart; lia|]. unfold hC, store. by rewrite list_lookup_alter_ne.
    - eapply keyed_impl; [exact Hkeyed|]. intros x w. apply repr_weaken.
      intros l (Hl & Hr & Hal). split; [unfold apart; lia|]. by apply HsameC. }
  assert (HmemC :
    Forall2 (same_entry (repr (apart r1 a (length hC)) hC)) (own_props x0) dv).
  { eapply Forall2_impl; [exact Hmem|]. intros p q [Hk Hpq]. split; [done|].
    eapply repr_weaken; [|exact Hpq].
    intros l (Hl & Hr & Hal). split; [unfold apart; lia|]. by apply HsameC. }
  assert (Hk0C : assoc "danizee-suite" res2 = Some (VRef a)).
  { unfold res2. rewrite assoc_put. by rewrite decide_False. }
  assert (Hx0 : assoc "danizee-suite" props2 = Some x0).
  { unfold props2. rewrite assoc_put, decide_False by done.
    unfold props1. rewrite merge_tree_obj. cbn [own_props].
    apply (foldl_put_member (λ key, merge_tree (base_at e key))
             "danizee-suite" (TObj sub)).
    - apply (bool_decide_unpack _). by vm_compute.
    - left. }
  assert (Hnd2 : NoDup props2.*1).
  { apply NoDup_put_keys. unfold props1. rewrite merge_tree_obj. cbn [own_props].
    by apply NoDup_foldl_put_keys. }
  assert (Hfinish : ∀ hF dvF subF,
    length hF = length hC → (∀ l, l ≠ a → hF !! l = hC !! l) →
    hF !! a = Some (CObj dvF) →
    Forall2 (same_entry (repr (apart r1 a (length hF)) hF)) subF dvF →
    depth (TObj (put "danizee-suite" (TObj subF) props2)) ≤ S (depth e `max` 4) →
    repr (λ l, l < length hF) hF
         (TObj (put "danizee-suite" (TObj subF) props2)) (VRef r1)
    ∧ writeSettings (VRef r1) hF
      = Ok (Conflicts.Document (TObj (put "danizee-suite" (TObj subF) props2)))).
  { intros hF dvF subF HlenF HsameF HdvF HmemF HdepthF.
    assert (Hrepr : repr (λ l, l < length hF) hF
              (TObj (put "danizee-suite" (TObj subF) props2)) (VRef r1)).
    { apply repr_obj. exists r1, res2.
      split; [done|]. split; [lia|]. split; [by rewrite HsameF by lia|].
      apply (keyed_same "danizee-suite" _ _ _ (TObj subF) (VRef a)).
      - by apply NoDup_put_keys.
      - rewrite <-(put_same "danizee-suite" (VRef a) res2 Hk0C).
        apply keyed_put; [done|].
        eapply keyed_impl; [exact HkeyedC|]. intros x w. apply repr_weaken.
        intros l (Hl & Hr & Hal). split; [lia|]. by apply HsameF.
      - rewrite assoc_put. by rewrite decide_True.
      - done.
      - apply repr_obj. exists a, dvF. split; [done|]. split; [lia|].
        split; [done|]. eapply Forall2_impl; [exact HmemF|].
        intros p q [Hk Hpq]. split; [done|]. eapply repr_weaken; [|exact Hpq].
        intros l (Hl & _). done. }
    split; [done|]. apply (writeSettings_spec _ _ _ _ Hrepr).
    change (depth (getDefaultSettings now)) with 4 in HdepthD. lia. }
  assert (Hself : put "danizee-suite" (TObj (own_props x0)) props2 = props2).
  { by apply put_same. }
  destruct force.
  - (* the two dates are set on the marker *)
    assert (Htree : merged_settings e true now now1 now2 =
      TObj (put "danizee-suite"
              (TObj (put "updatedAt" (TStr now2)
                       (put "installedAt" (TStr now1) (own_props x0))))
              props2)).
    { unfold merged_settings.
      change (own_props (merge_tree e (getDefaultSettings now))) with props1.
      change plugin_settings with (TObj (own_props plugin_settings)).
      fold x2 props2. by rewrite Hx0. }
    rewrite Htree.
    rewrite (read_obj _ _ _ _ HrC), Hk0C. cbn [default from_option id assign].
    set (hD1 := store a "installedAt" (VStr now1) hC).
    assert (HrD1 : hD1 !! r1 = Some (CObj res2)).
    { unfold hD1, store. rewrite list_lookup_alter_ne by lia. done. }
    rewrite (read_obj _ _ _ _ HrD1), Hk0C. cbn [default from_option id assign].
    set (hE1 := store a "updatedAt" (VStr now2) hD1).
    destruct (Hfinish hE1
                (put "updatedAt" (VStr now2) (put "installedAt" (VStr now1) dv))
                (put "updatedAt" (TStr now2)
                   (put "installedAt" (TStr now1) (own_props x0))))
      as [Hrepr Hwrite].
    + unfold hE1, hD1, store. by rewrite !length_alter.
    + intros l Hl. unfold hE1, hD1, store. by rewrite !list_lookup_alter_ne.
    + unfold hE1, hD1, store. rewrite !list_lookup_alter_eq, HdvC. done.
    + apply same_entry_put; [done|]. apply same_entry_put; [done|].
      eapply Forall2_impl; [exact HmemC|]. intros p q [Hk Hpq]. split; [done|].
      eapply repr_weaken; [|exact Hpq]. intros l (Hl & Hr & Hal).
      unfold hE1, hD1, store. rewrite !length_alter, !list_lookup_alter_ne by done.
      split; [unfold apart; lia|done].
    + rewrite <-Htree. apply merged_settings_depth.
    + rewrite Hwrite. by eexists _, _.
  - change (merged_settings e false now now1 now2) with (TObj props2).
    destruct (Hfinish hC dv (own_props x0)) as [Hrepr Hwrite];
      [done|done|done|exact HmemC| |].
    + rewrite Hself. apply (merged_settings_depth e false now now1 now2).
    + rewrite Hself in Hrepr, Hwrite. rewrite Hwrite. by eexists _, _.
Qed.

End MergeSettings.

Section MergedSettings.

(** What is under the keys of the merged document. *)
Lemma merged_settings_lookup e force now now1 now2 :
  ∃ props suite servers flow perms,
    merged_settings e force now now1 now2 = TObj props
    ∧ assoc "danizee-suite" props = Some (TObj suite)
    ∧ assoc "version" suite = Some (TStr "1.0.0")
    ∧ assoc "installedAt" suite = Some (TStr (if force then now1 else now))
    ∧ (force = true → assoc "updatedAt" suite = Some (TStr now2))
    ∧ assoc "mcpServers" props = Some (TObj servers)
    ∧ assoc "claude-flow" servers = Some (TObj flow)
    ∧ (∀ name, name ≠ "claude-flow" →
         assoc name servers = assoc name (own_props (base_at e "mcpServers")))
    ∧ assoc "permissions" props = Some (TObj perms)
    ∧ assoc "allow" perms
      = Some (TArr [TStr "Bash(npx claude-flow*)"; TStr "Bash(git worktree*)";
                    TStr "Read(docs/solutions/**)"; TStr "Write(docs/solutions/**)"])
    ∧ (∀ name, name ≠ "allow" →
         assoc name perms = assoc name (own_props (base_at e "permissions")))
    ∧ ∀ key,
        key ∉ ["danizee-suite"; "mcpServers"; "permissions"; "features"; "plugins"] →
        assoc key props = assoc key (own_props e).
Proof.
  set (dprops := own_props (getDefaultSettings now)).
  set (props1 := own_props (merge_tree e (TObj dprops))).
  set (x2 := merge_tree (base_at (TObj props1) "plugins") plugin_settings).
  set (props2 := put "plugins" x2 props1).
  assert (Hnd : NoDup dprops.*1) by (apply (bool_decide_unpack _); by vm_compute).
  assert (Hmember : ∀ key sv, (key, sv) ∈ dprops → key ≠ "plugins" →
            assoc key props2 = Some (merge_tree (base_at e key) sv)).
  { intros key sv Hin Hne. unfold props2. rewrite assoc_put, decide_False by done.
    unfold props1. rewrite merge_tree_obj. cbn [own_props].
    by apply (foldl_put_member (λ key, merge_tree (base_at e key))). }
  assert (Hother : ∀ key,
            key ∉ ["danizee-suite"; "mcpServers"; "permissions"; "features"; "plugins"] →
            assoc key props2 = assoc key (own_props e)).
  { intros key Hkey. rewrite !not_elem_of_cons in Hkey.
    destruct Hkey as (Hk1 & Hk2 & Hk3 & Hk4 & Hk5 & _).
    unfold props2. rewrite assoc_put, decide_False by done.
    unfold props1. rewrite merge_tree_obj. cbn [own_props].
    apply (foldl_put_other (λ key, merge_tree (base_at e key))).
    change (dprops.*1) with ["danizee-suite"; "mcpServers"; "permissions"; "features"].
    rewrite !not_elem_of_cons. split_and!; try done. apply not_elem_of_nil. }
  pose proof (Hmember "danizee-suite" _ ltac:(left) ltac:(done)) as Hsuite.
  pose proof (Hmember "mcpServers" _ ltac:(right; left) ltac:(done)) as Hservers.
  pose proof (Hmember "permissions" _ ltac:(do 2 right; left) ltac:(done)) as Hperms.
  rewrite merge_tree_obj in Hsuite, Hservers, Hperms.
  set (suite0 := foldl _ (own_props (base_at e "danizee-suite")) _) in Hsuite.
  assert (Hversion : assoc "version" suite0 = Some (TStr "1.0.0")).
  { unfold suite0.
    rewrite (foldl_put_member (λ key, merge_tree (base_at (base_at e "danizee-suite") key))
               "version" (TStr "1.0.0")); [done| |left].
    apply (bool_decide_unpack _). by vm_compute. }
  assert (Hdate : assoc "installedAt" suite0 = Some (TStr now)).
  { unfold suite0.
    rewrite (foldl_put_member (λ key, merge_tree (base_at (base_at e "danizee-suite") key))
               "installedAt" (TStr now)); [done| |right; left].
    apply (bool_decide_unpack _). by vm_compute. }
  cbn [foldl] in Hservers, Hperms.
  assert (Hrest : ∀ props,
    assoc "mcpServers" props = assoc "mcpServers" props2 →
    assoc "permissions" props = assoc "permissions" props2 →
    ∃ servers flow perms,
      assoc "mcpServers" props = Some (TObj servers)
      ∧ assoc "claude-flow" servers = Some (TObj flow)
      ∧ (∀ name, name ≠ "claude-flow" →
           assoc name servers = assoc name (own_props (base_at e "mcpServers")))
      ∧ assoc "permissions" props = Some (TObj perms)
      ∧ assoc "allow" perms
        = Some (TArr [TStr "Bash(npx claude-flow*)"; TStr "Bash(git worktree*)";
                      TStr "Read(docs/solutions/**)"; TStr "Write(docs/solutions/**)"])
      ∧ (∀ name, name ≠ "allow" →
           assoc name perms = assoc name (own_props (base_at e "permissions")))).
  { intros props -> ->. rewrite Hservers, Hperms. eexists _, _, _.
    split; [done|]. split; [by rewrite assoc_put, decide_True|].
    split; [intros name Hname; by rewrite assoc_put, decide_False|].
    split; [done|]. split; [by rewrite assoc_put, decide_True|].
    intros name Hname. by rewrite assoc_put, decide_False. }
  destruct force.
  - destruct (Hrest (put "danizee-suite"
                (TObj (put "updatedAt" (TStr now2)
                         (put "installedAt" (TStr now1) suite0))) props2))
      as (servers & flow & perms & H1 & H2 & H2' & H3 & H4 & H4');
      [by rewrite assoc_put, decide_False..|].
    eexists _, _, servers, flow, perms. split_and!.
    + unfold merged_settings. fold dprops.
      change (own_props (merge_tree e (getDefaultSettings now))) with props1.
      fold x2 props2. rewrite Hsuite. done.
    + by rewrite assoc_put, decide_True.
    + by rewrite !assoc_put, !decide_False.
    + rewrite assoc_put, decide_False by done. by rewrite assoc_put, decide_True.
    + intros _. by rewrite assoc_put, decide_True.
    + done.
    + done.
    + done.
    + done.
    + done.
    + done.
    + intros key Hkey. rewrite assoc_put, decide_False; [by apply Hother|].
      intros <-. apply Hkey. left.
  - destruct (Hrest props2) as (servers & flow & perms & H1 & H2 & H2' & H3 & H4 & H4');
      [done..|].
    exists props2, suite0, servers, flow, perms. split_and!; try done.
Qed.

End MergedSettings.





(** X27: [mergeSettings] overwrites what the defaults carry, whatever the file
    held and whether or not [force] is set: the version of the marker is
    "1.0.0", its [installedAt] is a date of this run, and
    [permissions.allow] is the suite's list of four, the list the user had
    being replaced.  With [force] the marker also carries [updatedAt]. *)
Theorem mergeSettings_overwrites f force now now1 now2 h :
  settings_of f ≠ TNull → NoDup (keys (settings_of f)) →
  ∃ merged t h' suite perms,
    mergeSettings f force now now1 now2 h = Ok (merged, Conflicts.Document t, h')
    ∧ get t "danizee-suite" = Some (TObj suite)
    ∧ assoc "version" suite = Some (TStr "1.0.0")
    ∧ assoc "installedAt" suite = Some (TStr (if force then now1 else now))
    ∧ (force = true → assoc "updatedAt" suite = Some (TStr now2))
    ∧ get t "permissions" = Some (TObj perms)
    ∧ assoc "allow" perms
      = Some (TArr [TStr "Bash(npx claude-flow*)"; TStr "Bash(git worktree*)";
                    TStr "Read(docs/solutions/**)"; TStr "Write(docs/solutions/**)"]).
Proof.
  intros Hnn Hnd.
  destruct (mergeSettings_spec f force now now1 now2 h Hnn Hnd)
    as (merged & h' & Hcall & _).
  destruct (merged_settings_lookup (settings_of f) force now now1 now2)
    as (props & suite & servers & flow & perms & Ht & Hsuite & Hversion & Hdate
        & Hupdated & _ & _ & _ & Hperms & Hallow & _ & _).
  exists merged, (TObj props), h', suite, perms. rewrite <-Ht.
  split; [done|]. rewrite Ht. by split_and!.
Qed.

Lemma mergeSettings_overwrites_witness :
  ∃ merged t h' suite perms,
    mergeSettings
      (Conflicts.Document
         (TObj [("danizee-suite", TObj [("installedAt", TStr "long ago")]);
                ("permissions", TObj [("allow", TArr [TStr "Bash(make*)"])])]))
      false "d0" "d1" "d2" [] = Ok (merged, Conflicts.Document t, h')
    ∧ get t "danizee-suite" = Some (TObj suite)
    ∧ assoc "version" suite = Some (TStr "1.0.0")
    ∧ assoc "installedAt" suite = Some (TStr "d0")
    ∧ (false = true → assoc "updatedAt" suite = Some (TStr "d2"))
    ∧ get t "permissions" = Some (TObj perms)
    ∧ assoc "allow" perms
      = Some (TArr [TStr "Bash(npx claude-flow*)"; TStr "Bash(git worktree*)";
                    TStr "Read(docs/solutions/**)"; TStr "Write(docs/solutions/**)"]).
Proof.
  apply (mergeSettings_overwrites
    (Conflicts.Document
       (TObj [("danizee-suite", TObj [("installedAt", TStr "long ago")]);
              ("permissions", TObj [("allow", TArr [TStr "Bash(make*)"])])]))
    false "d0" "d1" "d2" []); [done|].
  apply (bool_decide_unpack _). by vm_compute.
Defined.

(** X28: What [mergeSettings] returns passes [validateSettings], and in the
    file it wrote [detectExistingInstallation] finds the suite installed at
    version "1.0.0": a further [install] without [force] is refused. *)
Theorem mergeSettings_installs f force now now1 now2 h :
  settings_of f ≠ TNull → NoDup (keys (settings_of f)) →
  ∃ merged f' h' r,
    mergeSettings f force now now1 now2 h = Ok (merged, f', h')
    ∧ validateSettings merged h' = Ok r ∧ valid r = true ∧ errors r = []
    ∧ ∀ dir, settings_json dir = f' →
        installed (detectExistingInstallation dir) = true
        ∧ version (detectExistingInstallation dir) = Some (TStr "1.0.0")
        ∧ Installer.install_refused dir false ≠ None.
Proof.
  intros Hnn Hnd.
  destruct (mergeSettings_spec f force now now1 now2 h Hnn Hnd)
    as (merged & h' & Hcall & Hrepr).
  destruct (merged_settings_lookup (settings_of f) force now now1 now2)
    as (props & suite & servers & flow & perms & Ht & Hsuite & Hversion & _
        & _ & Hservers & Hflow & _).
  rewrite Ht in Hcall, Hrepr.
  destruct (validateSettings_spec _ _ _ _ Hrepr ltac:(done))
    as (r & Hvalidate & Herrors & Hvalid).
  assert (Hr : valid r = true).
  { apply Hvalid. cbn [get own_props]. rewrite Hsuite. split; [done|].
    exists (TObj servers). split; [done|]. split; [done|].
    cbn [get own_props]. by rewrite Hflow. }
  exists merged, (Conflicts.Document (TObj props)), h', r.
  split_and!; [done|done|done|by apply Herrors|].
  intros dir Hdir.
  assert (Hdetect : detectExistingInstallation dir =
    {| installed := true; version := Some (TStr "1.0.0");
       installedAt := assoc "installedAt" suite |}).
  { unfold detectExistingInstallation. rewrite Hdir. cbn [get own_props].
    rewrite Hsuite. cbn [truthy get own_props]. by rewrite Hversion. }
  rewrite Hdetect. split_and!; [done|done|].
  unfold Installer.install_refused, runConflictChecks. rewrite Hdetect. simpl.
  rewrite bool_decide_eq_true_2; [done|]. rewrite !length_app. simpl. lia.
Qed.

Lemma mergeSettings_installs_witness :
  ∃ merged f' h' r,
    mergeSettings Conflicts.Missing false "d0" "d1" "d2" [] = Ok (merged, f', h')
    ∧ validateSettings merged h' = Ok r ∧ valid r = true ∧ errors r = []
    ∧ ∀ dir, settings_json dir = f' →
        installed (detectExistingInstallation dir) = true
        ∧ version (detectExistingInstallation dir) = Some (TStr "1.0.0")
        ∧ Installer.install_refused dir false ≠ None.
Proof.
  apply (mergeSettings_installs Conflicts.Missing false "d0" "d1" "d2" []); [done|].
  constructor.
Defined.

(** ** [deepMerge] and [mergeSettings] on [null] *)

Section NullTarget.

Lemma merge_keys_null_target P h0 lo vps recurse target rest :
  (∀ l, P l → l < length h0) → P lo → h0 !! lo = Some (CObj vps) →
  nullish target = true →
  Forall (λ p, ∃ w, assoc p.1 vps = Some w ∧ repr P h0 p.2 w) rest →
  Exists (λ p, ∃ sub, p.2 = TObj sub) rest →
  ∀ h, h0 `prefix_of` h →
    merge_keys recurse target (VRef lo) (length h0) rest.*1 h = TypeError.
Proof.
  intros HP HPlo Hlo Hnull Hsrc Hobj.
  induction rest as [|[key sv] rest IH]; intros h Hpre; [by inv Hobj|].
  apply Forall_cons in Hsrc as [(w & Hw & Hsv) Hsrc]. simpl in Hw, Hsv.
  rewrite fmap_cons. cbn [merge_keys fst].
  rewrite (read_source P h0 lo vps HP HPlo Hlo h key Hpre), Hw.
  cbn [default from_option id].
  assert (Hsv' : repr P h sv w).
  { eapply repr_weaken; [|exact Hsv]. intros l Hl. split; [done|].
    symmetry. apply prefix_lookup_lt; auto. }
  rewrite (repr_plain_object _ _ _ _ Hsv').
  destruct sv as [| | | | |sub]; try (by rewrite Hnull);
    (apply IH; [done| |by apply prefix_alter]);
    (apply Exists_cons in Hobj as [[sub [=]]|Hobj]; done).
Qed.

Lemma deepMerge_null_target P fuel target sps vo h :
  (∀ l, P l → l < length h) → nullish target = true →
  repr P h (TObj sps) vo → NoDup sps.*1 →
  Exists (λ p, ∃ sub, p.2 = TObj sub) sps →
  deepMerge (S fuel) target vo h = TypeError.
Proof.
  intros HP Hnull Hover Hnd Hobj.
  apply repr_obj in Hover as (lo & vps & -> & HPlo & Hlo & Hall).
  cbn [deepMerge nullish].
  assert (Hkeys : (props_of (h ++ [CObj (props_of h target)]) (VRef lo)).*1 = sps.*1).
  { simpl. rewrite lookup_app_l, Hlo by auto.
    clear -Hall. induction Hall as [|? ? ? ? [Hk _] _ IH']; [done|].
    rewrite !fmap_cons. by rewrite Hk, IH'. }
  rewrite Hkeys.
  rewrite (merge_keys_null_target P h lo vps (deepMerge fuel) target sps);
    [done|done|done|done|done| |done|by apply prefix_app_r].
  by apply source_members.
Qed.

End NullTarget.

(** X29: [deepMerge] throws a TypeError when the overlay is [null] or
    [undefined], and when the base is [null] or [undefined] and some key
    of the overlay holds an object. *)
Theorem deepMerge_throws :
  (∀ fuel target source h,
     nullish source = true → deepMerge (S fuel) target source h = TypeError)
  ∧ (∀ P fuel target sps vo h,
       (∀ l, P l → l < length h) → nullish target = true →
       repr P h (TObj sps) vo → NoDup sps.*1 →
       Exists (λ p, ∃ sub, p.2 = TObj sub) sps →
       deepMerge (S fuel) target vo h = TypeError).
Proof.
  split.
  - intros fuel target source h Hnull. cbn [deepMerge]. by rewrite Hnull.
  - apply deepMerge_null_target.
Qed.

Lemma deepMerge_throws_witness :
  deepMerge 1 VNull VUndefined [] = TypeError
  ∧ deepMerge 1 VUndefined (VRef 1) [CObj []; CObj [("a", VNum 1); ("b", VRef 0)]]
    = TypeError.
Proof.
  split.
  - by apply (proj1 deepMerge_throws).
  - apply (proj2 deepMerge_throws (λ l, l < 2) 0 VUndefined
             [("a", TNum 1); ("b", TObj [])]).
    + done.
    + done.
    + simpl. eexists 1, _. split_and!; [reflexivity|lia|reflexivity|]. simpl.
      split_and!; [reflexivity..| |exact I].
      eexists 0, _. split_and!; [reflexivity|lia|reflexivity|]. simpl. auto.
    + apply (bool_decide_unpack _). by vm_compute.
    + apply Exists_cons_tl, Exists_cons_hd. by eexists.
Defined.

(** X30: On a settings file that holds [null], [mergeSettings] throws a
    TypeError, before anything is written. *)
Theorem mergeSettings_null force now now1 now2 h :
  mergeSettings (Conflicts.Document TNull) force now now1 now2 h = TypeError.
Proof.
  unfold mergeSettings. cbn [readSettings alloc].
  destruct (alloc (getDefaultSettings now) h) as [defaults hD] eqn:Halloc.
  destruct (alloc_spec _ _ _ _ Halloc) as (HpreD & HreprD & _).
  cbv zeta.
  destruct (all_plugin_settings hD) as (h3 & -> & Hpre3 & Hlen3 & _).
  change (object_depth (getDefaultSettings now)) with 3.
  rewrite (deepMerge_null_target (λ l, l < length h3) 2 VNull
             (own_props (getDefaultSettings now)) defaults h3); [done|done|done| | |].
  - eapply repr_weaken; [|exact HreprD]. intros l Hl. simpl in Hl.
    split; [lia|]. symmetry. apply prefix_lookup_lt; [lia|done].
  - apply (bool_decide_unpack _). by vm_compute.
  - apply Exists_cons_hd. by eexists.
Qed.
